(** * The C++ bundler of onlinejudge_verify (languages/cplusplus_bundle.py)

    A shallow embedding of [get_uncommented_code] and of the [Bundler] class
    ([_line], [_resolve], [update], [get]), with the file system and the
    external preprocessor taken as a [World], and the properties of the
    bundling engine proved about it.

    Conventions.  Python [bytes] are Rocq strings (lists of 8-bit
    characters).  A Python [str] is represented by its UTF-8 encoding, so
    that [bytes.decode()] is the identity on well-formed input and raises
    [UnicodeDecodeError] on the rest.  A [pathlib.Path] is represented by
    the string [str(path)].  The mutable [Bundler] object is threaded
    through a state monad whose outcomes are a value, a raised exception,
    or exhausted recursion fuel. *)

From Stdlib Require Import ZArith Ascii String List Bool Lia DecimalString.
From stdpp Require Import base decidable option list gmap strings.

Local Open Scope string_scope.
Local Open Scope list_scope.

#[local] Set Warnings "-clear-no-such-hyp".

Abbreviation bytes := string (only parsing).
Abbreviation Path := string (only parsing).

(** ** Bytes *)

Module Bytes.

Definition LF : ascii := "010"%char.
Definition CR : ascii := "013"%char.
Definition DQUOTE : ascii := "034"%char.

(** [b"\n"], the blank placeholder line *)
Definition newline : bytes := String LF EmptyString.

(** ASCII whitespace: the class [\s] of a bytes pattern, and the characters
    removed by [bytes.rstrip()] *)
Definition is_space (c : ascii) : bool :=
  let n := nat_of_ascii c in
  (n =? 32)%nat || ((9 <=? n)%nat && (n <=? 13)%nat).

(** the class [\d] of a bytes pattern *)
Definition is_digit (c : ascii) : bool :=
  let n := nat_of_ascii c in (48 <=? n)%nat && (n <=? 57)%nat.

(** the class [\w] of a bytes pattern: [a-zA-Z0-9_] *)
Definition is_word (c : ascii) : bool :=
  let n := nat_of_ascii c in
  ((97 <=? n)%nat && (n <=? 122)%nat) || ((65 <=? n)%nat && (n <=? 90)%nat)
  || is_digit c || (n =? 95)%nat.

Definition is_empty (s : bytes) : bool :=
  match s with EmptyString => true | String _ _ => false end.

(** [s.startswith(p)], returning the rest of [s] *)
Fixpoint strip_prefix (p s : bytes) : option bytes :=
  match p with
  | EmptyString => Some s
  | String a p' =>
      match s with
      | EmptyString => None
      | String b s' => if Ascii.eqb a b then strip_prefix p' s' else None
      end
  end.

Definition startswith (p s : bytes) : bool :=
  match strip_prefix p s with Some _ => true | None => false end.

(** [s.endswith(b"\n")] *)
Fixpoint ends_with_newline (s : bytes) : bool :=
  match s with
  | EmptyString => false
  | String c EmptyString => Ascii.eqb c LF
  | String _ r => ends_with_newline r
  end.

(** the greedy [\s*] *)
Fixpoint skip_spaces (s : bytes) : bytes :=
  match s with
  | EmptyString => EmptyString
  | String c r => if is_space c then skip_spaces r else s
  end.

(** the greedy run of a character class, and what follows it *)
Fixpoint span (p : ascii -> bool) (s : bytes) : bytes * bytes :=
  match s with
  | EmptyString => (EmptyString, EmptyString)
  | String c r =>
      if p c then let '(a, b) := span p r in (String c a, b)
      else (EmptyString, s)
  end.

(** [s.rstrip()] *)
Fixpoint rstrip (s : bytes) : bytes :=
  match s with
  | EmptyString => EmptyString
  | String c r =>
      let r' := rstrip r in
      if is_space c && is_empty r' then EmptyString else String c r'
  end.

(** [s.splitlines(keepends=True)] on bytes: a line ends at LF, CR or CR LF *)
Fixpoint splitlines (s : bytes) : list bytes :=
  match s with
  | EmptyString => []
  | String c r =>
      if Ascii.eqb c LF then String c EmptyString :: splitlines r
      else if Ascii.eqb c CR then
        match r with
        | String c' r' =>
            if Ascii.eqb c' LF then String c (String c' EmptyString) :: splitlines r'
            else String c EmptyString :: splitlines r
        | EmptyString => [String c EmptyString]
        end
      else
        match splitlines r with
        | [] => [String c EmptyString]
        | l :: ls => String c l :: ls
        end
  end.

(** [b''.join(ls)] *)
Definition join (ls : list bytes) : bytes :=
  fold_right String.append EmptyString ls.

(** [int(digits)] for a run of decimal digits *)
Definition int_of_digits (s : bytes) : nat :=
  fold_left (fun acc c => (10 * acc + (nat_of_ascii c - 48))%nat)
            (list_ascii_of_string s) 0%nat.

(** ['{}'.format(n)] for an [int] *)
Definition format_int (z : Z) : string := NilZero.string_of_int (Z.to_int z).

(** Well-formed UTF-8 (no overlong forms, no surrogates, at most U+10FFFF):
    the inputs on which [bytes.decode()] does not raise. *)
Definition in_range (lo hi : nat) (c : ascii) : bool :=
  let n := nat_of_ascii c in (lo <=? n)%nat && (n <=? hi)%nat.

Fixpoint utf8_valid (s : bytes) : bool :=
  match s with
  | EmptyString => true
  | String c r =>
      if in_range 0 127 c then utf8_valid r
      else if in_range 194 223 c then
        match r with
        | String c1 r1 => in_range 128 191 c1 && utf8_valid r1
        | _ => false
        end
      else if in_range 224 239 c then
        match r with
        | String c1 (String c2 r2) =>
            (if in_range 224 224 c then in_range 160 191 c1
             else if in_range 237 237 c then in_range 128 159 c1
             else in_range 128 191 c1)
            && in_range 128 191 c2 && utf8_valid r2
        | _ => false
        end
      else if in_range 240 244 c then
        match r with
        | String c1 (String c2 (String c3 r3)) =>
            (if in_range 240 240 c then in_range 144 191 c1
             else if in_range 244 244 c then in_range 128 143 c1
             else in_range 128 191 c1)
            && in_range 128 191 c2 && in_range 128 191 c3 && utf8_valid r3
        | _ => false
        end
      else false
  end.

(** [b.decode()]; [None] stands for [UnicodeDecodeError] *)
Definition decode (b : bytes) : option string :=
  if utf8_valid b then Some b else None.

End Bytes.

(** ** The regular expressions of the source, as matchers

    Every pattern is used with [re.match]: anchored at the start of the
    line, free at its end.  In a bytes pattern [.] is any byte but LF. *)

Module Re.
Import Bytes.

(** the common head [\s*#\s*], returning what follows it *)
Definition directive (s : bytes) : option bytes :=
  match skip_spaces s with
  | String c r => if Ascii.eqb c "#"%char then Some (skip_spaces r) else None
  | EmptyString => None
  end.

(** a keyword followed by [\s] *)
Definition keyword_space (k r : bytes) : bool :=
  match strip_prefix k r with
  | Some (String c _) => is_space c
  | _ => false
  end.

(** the greedy group [( .* )] closed by [d]: it runs to the last [d] before
    the first LF *)
Fixpoint group_until (d : ascii) (s : bytes) : option bytes :=
  match s with
  | EmptyString => None
  | String c r =>
      if Ascii.eqb c LF then None
      else match group_until d r with
           | Some g => Some (String c g)
           | None => if Ascii.eqb c d then Some EmptyString else None
           end
  end.

(** [\s+(\w+)], returning the group *)
Definition spaces_word (r : bytes) : option bytes :=
  match r with
  | String c r' =>
      if is_space c then
        match span is_word (skip_spaces r') with
        | (EmptyString, _) => None
        | (w, _) => Some w
        end
      else None
  | EmptyString => None
  end.

(** [rb'\s*#\s*(if|ifdef|ifndef)\s.*'] *)
Definition if_directive (s : bytes) : bool :=
  match directive s with
  | Some r => keyword_space "if" r || keyword_space "ifdef" r || keyword_space "ifndef" r
  | None => false
  end.

(** [rb'\s*#\s*( else\s* | elif\s.* )'] (written here with blanks around the
    alternatives) *)
Definition else_directive (s : bytes) : bool :=
  match directive s with
  | Some r => startswith "else" r || keyword_space "elif" r
  | None => false
  end.

(** [rb'\s*#\s*endif\s*'] *)
Definition endif_directive (s : bytes) : bool :=
  match directive s with
  | Some r => startswith "endif" r
  | None => false
  end.

(** [rb'\s*#\s*pragma\s+once\s*'] *)
Definition pragma_once_directive (s : bytes) : bool :=
  match directive s with
  | Some r =>
      match strip_prefix "pragma" r with
      | Some (String c r') => is_space c && startswith "once" (skip_spaces r')
      | _ => false
      end
  | None => false
  end.

(** [rb'\s*#\s*ifndef\s+(\w+)\s*'], returning group 1 *)
Definition ifndef_macro (s : bytes) : option bytes :=
  match directive s with
  | Some r => match strip_prefix "ifndef" r with
              | Some r' => spaces_word r'
              | None => None
              end
  | None => None
  end.

(** [rb'\s*#\s*define\s+(\w+)\s*'], returning group 1 *)
Definition define_macro (s : bytes) : option bytes :=
  match directive s with
  | Some r => match strip_prefix "define" r with
              | Some r' => spaces_word r'
              | None => None
              end
  | None => None
  end.

(** [\s*#\s*include\s*], an opening delimiter, the greedy group [( .* )] and
    the closing delimiter *)
Definition include_between (o c : ascii) (s : bytes) : option bytes :=
  match directive s with
  | Some r =>
      match strip_prefix "include" r with
      | Some r' =>
          match skip_spaces r' with
          | String x g => if Ascii.eqb x o then group_until c g else None
          | EmptyString => None
          end
      | None => None
      end
  | None => None
  end.

(** [rb'\s*#\s*include\s*<( .* )>\s*'] (the group is written without the
    blanks), returning group 1 *)
Definition include_system (s : bytes) : option bytes :=
  include_between "<"%char ">"%char s.

(** the same pattern with a double quote as both delimiters, returning
    group 1 *)
Definition include_user (s : bytes) : option bytes :=
  include_between DQUOTE DQUOTE s.

(** the linemarker pattern: a hash, a blank, the group [(\d+)], a blank and a
    double-quoted [.*]; returns [int(m.group(1))] *)
Definition linemarker (s : bytes) : option nat :=
  match strip_prefix "# " s with
  | Some r =>
      match span is_digit r with
      | (EmptyString, _) => None
      | (ds, String sp (String q r')) =>
          if Ascii.eqb sp " "%char && Ascii.eqb q DQUOTE then
            match group_until DQUOTE r' with
            | Some _ => Some (int_of_digits ds)
            | None => None
            end
          else None
      | _ => None
      end
  | None => None
  end.

End Re.

(** ** The standard-library name set *)

Definition bits_stdcxx_h : string := "bits/stdc++.h".

Definition cxx_standard_libraries : list string :=
  [ "algorithm"; "array"; "bitset"; "chrono"; "codecvt"; "complex";
    "condition_variable"; "deque"; "exception"; "forward_list"; "fstream";
    "functional"; "future"; "iomanip"; "ios"; "iosfwd"; "iostream"; "istream";
    "iterator"; "limits"; "list"; "locale"; "map"; "memory"; "mutex"; "new";
    "numeric"; "ostream"; "queue"; "random"; "regex"; "set"; "sstream";
    "stack"; "stdexcept"; "streambuf"; "string"; "thread"; "tuple";
    "typeinfo"; "unordered_map"; "unordered_set"; "utility"; "valarray";
    "vector" ].

Definition c_standard_libraries : list string :=
  [ "assert.h"; "complex.h"; "ctype.h"; "errno.h"; "fenv.h"; "float.h";
    "inttypes.h"; "iso646.h"; "limits.h"; "locale.h"; "math.h"; "setjmp.h";
    "signal.h"; "stdalign.h"; "stdarg.h"; "stdatomic.h"; "stdbool.h";
    "stddef.h"; "stdint.h"; "stdio.h"; "stdlib.h"; "stdnoreturn.h";
    "string.h"; "tgmath.h"; "threads.h"; "time.h"; "uchar.h"; "wchar.h";
    "wctype.h" ].

(** ['c' + name[:-len('.h')]] *)
Definition c_prefixed (name : string) : string :=
  String "c"%char (String.substring 0 (String.length name - 2) name).

Definition standard_libraries : list string :=
  [bits_stdcxx_h] ++ cxx_standard_libraries ++ c_standard_libraries
  ++ map c_prefixed c_standard_libraries.

(** [name in standard_libraries] *)
Definition is_standard_library (name : string) : bool :=
  existsb (String.eqb name) standard_libraries.

(** ** Exceptions, outcomes and the external world *)

Inductive exn : Type :=
  | BundleError (message : string)
  | BundleErrorAt (path : Path) (line : Z) (message : string)
  | AssertionError
  | UnicodeDecodeError
  | OSError (path : Path)
  | KeyError (path : Path).

(** What the program sees of the file system ([pathlib], [open]) and of the
    external compiler.  [preprocess] is [_get_uncommented_code]: the probe of
    the compiler and the run of [g++ -fpreprocessed -dD -E], which either
    raises or returns the bytes the subprocess printed. *)
Record World : Type := {
  path_resolve : Path -> Path;                 (* path.resolve() *)
  path_exists : Path -> bool;                  (* path.exists() *)
  path_parent : Path -> Path;                  (* path.parent *)
  path_join : Path -> Path -> Path;            (* dir / path *)
  path_of_str : string -> Path;                (* pathlib.Path(s) *)
  relative_to_cwd : Path -> option Path;       (* None: ValueError *)
  read_file : Path -> option bytes;            (* None: OSError *)
  preprocess : Path -> list string -> string -> exn + bytes
}.

(** [BundleErrorAt.__init__]: the message the exception carries *)
Definition error_message (w : World) (e : exn) : option string :=
  match e with
  | BundleError m => Some m
  | BundleErrorAt path line m =>
      let path' := match relative_to_cwd w (path_resolve w path) with
                   | Some p => p
                   | None => path
                   end in
      Some (path' +:+ ": line " +:+ Bytes.format_int line +:+ ": " +:+ m)
  | _ => None
  end.

Inductive outcome (A : Type) : Type :=
  | Returned (a : A)
  | Raised (e : exn)
  | OutOfFuel.
Arguments Returned {A} a.
Arguments Raised {A} e.
Arguments OutOfFuel {A}.

(** ** The Bundler object *)

Record Bundler : Type := mkBundler {
  iquotes : list Path;
  pragma_once : gset string;
  pragma_once_system : gset string;
  result_lines : list bytes;
  path_stack : gset string;
  compiler : string
}.

(** [Bundler.__init__] *)
Definition init (iquotes : list Path) (compiler : string) : Bundler :=
  mkBundler iquotes ∅ ∅ [] ∅ compiler.

Definition set_pragma_once (f : gset string -> gset string) (b : Bundler) : Bundler :=
  mkBundler (iquotes b) (f (pragma_once b)) (pragma_once_system b)
            (result_lines b) (path_stack b) (compiler b).

Definition set_pragma_once_system (f : gset string -> gset string) (b : Bundler) : Bundler :=
  mkBundler (iquotes b) (pragma_once b) (f (pragma_once_system b))
            (result_lines b) (path_stack b) (compiler b).

Definition set_result_lines (f : list bytes -> list bytes) (b : Bundler) : Bundler :=
  mkBundler (iquotes b) (pragma_once b) (pragma_once_system b)
            (f (result_lines b)) (path_stack b) (compiler b).

Definition set_path_stack (f : gset string -> gset string) (b : Bundler) : Bundler :=
  mkBundler (iquotes b) (pragma_once b) (pragma_once_system b)
            (result_lines b) (f (path_stack b)) (compiler b).

(** ** The monad of methods: state passing over the Bundler, with exceptions *)

Definition M (A : Type) : Type := Bundler -> outcome A * Bundler.

Definition ret {A} (a : A) : M A := fun b => (Returned a, b).

Definition bind {A B} (m : M A) (k : A -> M B) : M B :=
  fun b =>
    match m b with
    | (Returned a, b') => k a b'
    | (Raised e, b') => (Raised e, b')
    | (OutOfFuel, b') => (OutOfFuel, b')
    end.

Definition raise {A} (e : exn) : M A := fun b => (Raised e, b).
Definition out_of_fuel {A} : M A := fun b => (OutOfFuel, b).
Definition get_self : M Bundler := fun b => (Returned b, b).
Definition modify (f : Bundler -> Bundler) : M unit := fun b => (Returned tt, f b).

(** a value or an exception from the world, lifted *)
Definition lift_sum {A} (r : exn + A) : M A :=
  match r with inl e => raise e | inr a => ret a end.

Declare Scope bundler_scope.
Delimit Scope bundler_scope with bundler.
Notation "x <- m ;; k" := (bind m (fun x => k))
  (at level 100, m at next level, right associativity) : bundler_scope.
Notation "m ;; k" := (bind m (fun _ => k))
  (at level 100, right associativity) : bundler_scope.
Local Open Scope bundler_scope.

(** [try: body finally: cleanup], where the cleanup itself may raise *)
Definition try_finally {A} (body : M A) (cleanup : M unit) : M A :=
  fun b =>
    let '(r, b') := body b in
    match cleanup b' with
    | (Returned _, b'') => (r, b'')
    | (Raised e, b'') => (Raised e, b'')
    | (OutOfFuel, b'') => (OutOfFuel, b'')
    end.

(** ** The per-file variables of [update] *)

Record Locals : Type := mkLocals {
  non_guard_line_found : bool;
  pragma_once_found : bool;
  include_guard_macro : option string;
  include_guard_define_found : bool;
  include_guard_endif_found : bool;
  preprocess_if_nest : Z
}.

Definition initial_locals : Locals := mkLocals false false None false false 0.

Definition set_non_guard_line_found (x : bool) (v : Locals) : Locals :=
  mkLocals x (pragma_once_found v) (include_guard_macro v)
           (include_guard_define_found v) (include_guard_endif_found v)
           (preprocess_if_nest v).
Definition set_pragma_once_found (x : bool) (v : Locals) : Locals :=
  mkLocals (non_guard_line_found v) x (include_guard_macro v)
           (include_guard_define_found v) (include_guard_endif_found v)
           (preprocess_if_nest v).
Definition set_include_guard_macro (x : option string) (v : Locals) : Locals :=
  mkLocals (non_guard_line_found v) (pragma_once_found v) x
           (include_guard_define_found v) (include_guard_endif_found v)
           (preprocess_if_nest v).
Definition set_include_guard_define_found (x : bool) (v : Locals) : Locals :=
  mkLocals (non_guard_line_found v) (pragma_once_found v) (include_guard_macro v)
           x (include_guard_endif_found v) (preprocess_if_nest v).
Definition set_include_guard_endif_found (x : bool) (v : Locals) : Locals :=
  mkLocals (non_guard_line_found v) (pragma_once_found v) (include_guard_macro v)
           (include_guard_define_found v) x (preprocess_if_nest v).
Definition set_preprocess_if_nest (x : Z) (v : Locals) : Locals :=
  mkLocals (non_guard_line_found v) (pragma_once_found v) (include_guard_macro v)
           (include_guard_define_found v) (include_guard_endif_found v) x.

(** how one turn of the [for] loop ends: [continue] (or falling off the end
    of the body) with the variables it leaves, or [return] *)
Inductive flow : Type :=
  | Continue (v : Locals)
  | Return.

(** ** The comment-free view and the methods of [Bundler] *)

Section Methods.
Context (w : World).

(** the loop of [get_uncommented_code] over the lines the preprocessor
    printed: a linemarker pads to the line before the one it names and is
    dropped, every other line is kept *)
Definition uncomment_step (lines : list bytes) (line : bytes) : list bytes :=
  match Re.linemarker (Bytes.rstrip line) with
  | Some lineno => lines ++ repeat Bytes.newline (lineno - (length lines + 1))
  | None => lines ++ [line]
  end.

Definition get_uncommented_code (path : Path) (iquotes : list Path)
    (compiler : string) : exn + bytes :=
  let iquotes_options :=
    flat_map (fun iquote => ["-I"; path_resolve w iquote]) iquotes in
  match preprocess w (path_resolve w path) iquotes_options compiler with
  | inl e => inl e
  | inr code =>
      inr (Bytes.join (fold_left uncomment_step (Bytes.splitlines code) []))
  end.

(** the [while] loop of [_line]: drop the [#line] lines at the tail *)
Fixpoint pop_line_directives (lines : list bytes) : list bytes :=
  match lines with
  | [] => []
  | l :: rest =>
      match pop_line_directives rest with
      | [] => if Bytes.startswith "#line " l then [] else [l]
      | rest' => l :: rest'
      end
  end.

(** ['#line {} "{}"\n'.format(line, str(path)).encode()] *)
Definition line_directive (line : nat) (path : Path) : bytes :=
  "#line " +:+ Bytes.format_int (Z.of_nat line) +:+ " "
  +:+ String Bytes.DQUOTE (path +:+ String Bytes.DQUOTE Bytes.newline).

(** [try: path = path.relative_to(pathlib.Path.cwd())], with
    [except ValueError: pass] *)
Definition relative_path (path : Path) : Path :=
  match relative_to_cwd w path with
  | Some p => p
  | None => path
  end.

Definition _line (line : nat) (path : Path) : M unit :=
  modify (set_result_lines (fun lines =>
    pop_line_directives lines ++ [line_directive line (relative_path path)])).

(** the [for] loop of [_resolve] over [self.iquotes] *)
Fixpoint resolve_in (dirs : list Path) (path : Path) : option Path :=
  match dirs with
  | [] => None
  | dir_ :: dirs' =>
      if path_exists w (path_join w dir_ path)
      then Some (path_resolve w (path_join w dir_ path))
      else resolve_in dirs' path
  end.

Definition _resolve (path included_from : Path) : M Path :=
  self <- get_self ;;
  if path_exists w (path_join w (path_parent w included_from) path)
  then ret (path_resolve w (path_join w (path_parent w included_from) path))
  else match resolve_in (iquotes self) path with
       | Some p => ret p
       | None => raise (BundleErrorAt path (-1) "no such header")
       end.

Definition append_line (l : bytes) : M unit :=
  modify (set_result_lines (fun lines => lines ++ [l])).

(** *** One turn of the loop of [update], last stage first *)

Section Line.
Context (update : Path -> M unit).
Context (path : Path) (i : nat) (line uncommented_line : bytes).

Definition here (message : string) : exn :=
  BundleErrorAt path (Z.of_nat i + 1) message.

(** [# otherwise] *)
Definition otherwise (v : Locals) : M flow :=
  append_line line ;; ret (Continue v).

(** [#include "..."] *)
Definition user_include (is_toplevel : bool) (v : Locals) : M flow :=
  match Re.include_user uncommented_line with
  | Some g =>
      match Bytes.decode g with
      | None => raise UnicodeDecodeError
      | Some included =>
          if negb is_toplevel then
            raise (here "unable to process #include in #if / #ifdef / #ifndef other than include guards")
          else
            target <- _resolve (path_of_str w included) path ;;
            update target ;;
            _line (i + 2) path ;;
            ret (Continue v)
      end
  | None => otherwise v
  end.

(** [#include <...>] *)
Definition system_include (is_toplevel : bool) (v : Locals) : M flow :=
  match Re.include_system uncommented_line with
  | Some g =>
      match Bytes.decode g with
      | None => raise UnicodeDecodeError
      | Some included =>
          self <- get_self ;;
          (if bool_decide (included ∈ pragma_once_system self)
              || bool_decide (bits_stdcxx_h ∈ pragma_once_system self)
           then _line (i + 2) path
           else if is_toplevel && is_standard_library included
           then modify (set_pragma_once_system (fun s => {[included]} ∪ s)) ;;
                append_line line
           else append_line line) ;;
          ret (Continue v)
      end
  | None => user_include is_toplevel v
  end.

(** [if uncommented_line:] *)
Definition non_guard_line (is_toplevel : bool) (v : Locals) : M flow :=
  if negb (Bytes.is_empty uncommented_line) then
    let v := set_non_guard_line_found true v in
    let v := if bool_decide (include_guard_macro v ≠ None)
                && negb (include_guard_define_found v)
             then set_include_guard_macro None v else v in
    if include_guard_endif_found v
    then raise (here "found codes out of include guard")
    else system_include is_toplevel v
  else system_include is_toplevel v.

(** [#endif as guard] *)
Definition guard_endif (is_toplevel : bool) (v : Locals) : M flow :=
  if include_guard_define_found v && (preprocess_if_nest v =? 0)%Z
     && negb (include_guard_endif_found v)
     && Re.endif_directive uncommented_line
  then append_line Bytes.newline ;;
       ret (Continue (set_include_guard_endif_found true v))
  else non_guard_line is_toplevel v.

(** [#define HOGE_H as guard] *)
Definition guard_define (is_toplevel : bool) (v : Locals) : M flow :=
  match include_guard_macro v, include_guard_define_found v,
        Re.define_macro uncommented_line with
  | Some macro, false, Some g =>
      match Bytes.decode g with
      | None => raise UnicodeDecodeError
      | Some name =>
          if String.eqb name macro then
            modify (set_pragma_once (fun s => {[path_resolve w path]} ∪ s)) ;;
            append_line Bytes.newline ;;
            ret (Continue (set_include_guard_define_found true v))
          else guard_endif is_toplevel v
      end
  | _, _, _ => guard_endif is_toplevel v
  end.

(** [#ifndef HOGE_H as guard] *)
Definition guard_ifndef (is_toplevel : bool) (v : Locals) : M flow :=
  match negb (pragma_once_found v) && negb (non_guard_line_found v),
        include_guard_macro v, Re.ifndef_macro uncommented_line with
  | true, None, Some g =>
      match Bytes.decode g with
      | None => raise UnicodeDecodeError
      | Some macro =>
          append_line Bytes.newline ;;
          ret (Continue (set_include_guard_macro (Some macro) v))
      end
  | _, _, _ => guard_define is_toplevel v
  end.

(** [#pragma once], recognised on the raw line *)
Definition pragma_once_line (is_toplevel : bool) (v : Locals) : M flow :=
  if Re.pragma_once_directive line then
    if non_guard_line_found v then
      raise (here "#pragma once found in a non-first line")
    else if bool_decide (include_guard_macro v ≠ None) then
      raise (here "#pragma once found in an include guard with #ifndef")
    else
      self <- get_self ;;
      if bool_decide (path_resolve w path ∈ pragma_once self) then ret Return
      else
        modify (set_pragma_once (fun s => {[path_resolve w path]} ∪ s)) ;;
        _line (i + 2) path ;;
        ret (Continue (set_pragma_once_found true v))
  else guard_ifndef is_toplevel v.

(** [# nest] : the three tests on the comment-free line, in order *)
Definition nest_step (nest : Z) : exn + Z :=
  let nest := if Re.if_directive uncommented_line then (nest + 1)%Z else nest in
  if Re.else_directive uncommented_line && (nest =? 0)%Z then
    inl (here "unmatched #else / #elif")
  else if Re.endif_directive uncommented_line then
    let nest := (nest - 1)%Z in
    if (nest <? 0)%Z then inl (here "unmatched #endif") else inr nest
  else inr nest.

Definition is_toplevel_of (v : Locals) : bool :=
  (preprocess_if_nest v =? 0)%Z
  || ((preprocess_if_nest v =? 1)%Z && bool_decide (include_guard_macro v ≠ None)).

(** the body of the [for] loop *)
Definition process_line (v : Locals) : M flow :=
  nest <- lift_sum (nest_step (preprocess_if_nest v)) ;;
  let v := set_preprocess_if_nest nest v in
  pragma_once_line (is_toplevel_of v) v.

End Line.

(** the [for] loop over [enumerate(zip(lines, uncommented_lines))] *)
Fixpoint process_lines (update : Path -> M unit) (path : Path) (i : nat)
    (views : list (bytes * bytes)) (v : Locals) : M flow :=
  match views with
  | [] => ret (Continue v)
  | (line, uncommented_line) :: rest =>
      f <- process_line update path i line uncommented_line v ;;
      match f with
      | Continue v' => process_lines update path (S i) rest v'
      | Return => ret Return
      end
  end.

(** the checks after the loop; [last] is the final value of [i + 1] *)
Definition end_of_file (path : Path) (last : nat) (v : Locals) : M unit :=
  if negb (preprocess_if_nest v =? 0)%Z then
    raise (BundleErrorAt path (Z.of_nat last) "unmatched #if / #ifdef / #ifndef")
  else if bool_decide (include_guard_macro v ≠ None)
          && negb (include_guard_endif_found v) then
    raise (BundleErrorAt path (Z.of_nat last) "unmatched #ifndef")
  else ret tt.

(** the raw view: the file, with a final LF added when it lacks one, split
    into lines *)
Definition raw_lines (code : bytes) : list bytes :=
  Bytes.splitlines
    (if Bytes.ends_with_newline code then code else code +:+ Bytes.newline).

(** the comment-free view, padded with empty lines up to the raw view *)
Definition pad_uncommented (lines uncommented_lines : list bytes) : list bytes :=
  uncommented_lines
  ++ repeat EmptyString (length lines - length uncommented_lines).

(** the head of the [try] block: the two line views of the file, zipped.
    The raw view is read from [path], the comment-free one is asked for
    [path.resolve()], and the [assert] compares their lengths. *)
Definition line_views (iquotes : list Path) (compiler : string) (path : Path)
    : exn + list (bytes * bytes) :=
  match read_file w path with
  | None => inl (OSError path)
  | Some code =>
      let lines := raw_lines code in
      match get_uncommented_code path iquotes compiler with
      | inl e => inl e
      | inr uncommented =>
          let uncommented_lines :=
            pad_uncommented lines (Bytes.splitlines uncommented) in
          if (length lines =? length uncommented_lines)%nat
          then inr (combine lines uncommented_lines)
          else inl AssertionError
      end
  end.

(** the [try] block of [update]; after the loop [i + 1] is the number of
    lines *)
Definition update_body (update : Path -> M unit) (path : Path) : M unit :=
  self <- get_self ;;
  views <- lift_sum (line_views (iquotes self) (compiler self) path) ;;
  _line 1 path ;;
  f <- process_lines update path 0 views initial_locals ;;
  match f with
  | Return => ret tt
  | Continue v => end_of_file path (length views) v
  end.

(** [self.path_stack.remove(path)], which raises [KeyError] on a path that
    is not in the set *)
Definition path_stack_remove (path : Path) : M unit :=
  self <- get_self ;;
  if bool_decide (path ∈ path_stack self)
  then modify (set_path_stack (fun s => s ∖ {[path]}))
  else raise (KeyError path).

(** [Bundler.update]; the fuel bounds the depth of the recursion through
    [#include "..."] *)
Fixpoint update (fuel : nat) (path : Path) : M unit :=
  match fuel with
  | O => out_of_fuel
  | S fuel' =>
      self <- get_self ;;
      if bool_decide (path_resolve w path ∈ pragma_once self) then ret tt
      else if bool_decide (path ∈ path_stack self) then
        raise (BundleErrorAt path (-1) "cycle found in inclusion relations")
      else
        modify (set_path_stack (fun s => {[path]} ∪ s)) ;;
        try_finally (update_body (update fuel') path) (path_stack_remove path)
  end.

(** [Bundler.get] *)
Definition get (self : Bundler) : bytes := Bytes.join (result_lines self).

End Methods.

(** ** Notions used to state the properties *)

(** *** The search order of the resolver, after the specification:
    the directory of the including file first, then the configured
    directories in the order supplied; the first existing path wins *)

Definition resolve_candidates (w : World) (dirs : list Path)
    (header from : Path) : list Path :=
  path_join w (path_parent w from) header
  :: map (fun dir_ => path_join w dir_ header) dirs.

Definition first_existing (w : World) (candidates : list Path) : option Path :=
  List.find (path_exists w) candidates.

(** *** Conditional depth of a comment-free view *)

(** what a line adds to the counter of [update], by the code's own patterns:
    one for a line that [Re.if_directive] recognises, minus one for a line
    that [Re.endif_directive] recognises *)
Definition nest_delta (uncommented_line : bytes) : Z :=
  ((if Re.if_directive uncommented_line then 1 else 0)
   - (if Re.endif_directive uncommented_line then 1 else 0))%Z.

(** the sum of these over a view: the lines the code takes for opening
    conditionals minus the lines it takes for [#endif] *)
Definition nest_balance (uncommented_lines : list bytes) : Z :=
  fold_right (fun u acc => (nest_delta u + acc)%Z) 0%Z uncommented_lines.

(** *** Conditionals as the specification reads them *)

(** The patterns of the specification's table of directives, where the
    keyword ends at a word boundary, and the notion of matched conditionals
    built on them.  These follow the specification, not the code. *)
Module Documented.

(** the keyword [k], then a word boundary *)
Definition keyword (k r : bytes) : bool :=
  match Bytes.strip_prefix k r with
  | Some (String c _) => negb (Bytes.is_word c)
  | Some EmptyString => true
  | None => false
  end.

(** [#], blanks, [if] or [ifdef] or [ifndef], word boundary *)
Definition opens (s : bytes) : bool :=
  match Re.directive s with
  | Some r => keyword "if" r || keyword "ifdef" r || keyword "ifndef" r
  | None => false
  end.

(** [#], blanks, [endif], word boundary *)
Definition closes (s : bytes) : bool :=
  match Re.directive s with
  | Some r => keyword "endif" r
  | None => false
  end.

(** every [#endif] closes an open conditional and none is left open *)
Fixpoint matched_from (depth : nat) (lines : list bytes) : bool :=
  match lines with
  | [] => (depth =? 0)%nat
  | l :: rest =>
      if opens l then matched_from (S depth) rest
      else if closes l then
        match depth with
        | O => false
        | S d => matched_from d rest
        end
      else matched_from depth rest
  end.

Definition matched (lines : list bytes) : bool := matched_from 0 lines.

End Documented.

(** *** Standard-library includes in the output *)

(** the name [H] when a line reads [#include <H>] with [H] in the
    standard-library set *)
Definition standard_include (l : bytes) : option string :=
  match Re.include_system l with
  | Some g =>
      match Bytes.decode g with
      | Some name => if is_standard_library name then Some name else None
      | None => None
      end
  | None => None
  end.

Definition standard_includes (lines : list bytes) : list string :=
  omap standard_include lines.

(** the per-file variables after a turn of the loop that continues: they
    depend on the two views of the line only.  Stage by stage, as
    [process_line] goes through them. *)
Definition after_non_guard_line (uncommented_line : bytes) (v : Locals) : Locals :=
  if negb (Bytes.is_empty uncommented_line) then
    let v := set_non_guard_line_found true v in
    if bool_decide (include_guard_macro v ≠ None)
       && negb (include_guard_define_found v)
    then set_include_guard_macro None v else v
  else v.

Definition after_guard_endif (uncommented_line : bytes) (v : Locals) : Locals :=
  if include_guard_define_found v && (preprocess_if_nest v =? 0)%Z
     && negb (include_guard_endif_found v)
     && Re.endif_directive uncommented_line
  then set_include_guard_endif_found true v
  else after_non_guard_line uncommented_line v.

Definition after_guard_define (uncommented_line : bytes) (v : Locals) : Locals :=
  match include_guard_macro v, include_guard_define_found v,
        Re.define_macro uncommented_line with
  | Some macro, false, Some g =>
      match Bytes.decode g with
      | Some name =>
          if String.eqb name macro then set_include_guard_define_found true v
          else after_guard_endif uncommented_line v
      | None => v
      end
  | _, _, _ => after_guard_endif uncommented_line v
  end.

Definition after_guard_ifndef (uncommented_line : bytes) (v : Locals) : Locals :=
  match negb (pragma_once_found v) && negb (non_guard_line_found v),
        include_guard_macro v, Re.ifndef_macro uncommented_line with
  | true, None, Some g => set_include_guard_macro (Bytes.decode g) v
  | _, _, _ => after_guard_define uncommented_line v
  end.

Definition after_pragma_once_line (line uncommented_line : bytes) (v : Locals)
    : Locals :=
  if Re.pragma_once_directive line then set_pragma_once_found true v
  else after_guard_ifndef uncommented_line v.

Definition locals_step (line uncommented_line : bytes) (v : Locals) : Locals :=
  match nest_step EmptyString 0 uncommented_line (preprocess_if_nest v) with
  | inr nest => after_pragma_once_line line uncommented_line
                  (set_preprocess_if_nest nest v)
  | inl _ => v
  end.

(** the top-level flag of a line, computed as [process_line] does *)
Definition toplevel_at (uncommented_line : bytes) (v : Locals) : bool :=
  match nest_step EmptyString 0 uncommented_line (preprocess_if_nest v) with
  | inr nest => is_toplevel_of (set_preprocess_if_nest nest v)
  | inl _ => false
  end.

(** every standard-library include of the comment-free view sits at top
    level *)
Fixpoint includes_at_toplevel (v : Locals) (views : list (bytes * bytes)) : bool :=
  match views with
  | [] => true
  | (line, uncommented_line) :: rest =>
      (match standard_include uncommented_line with
       | Some _ => toplevel_at uncommented_line v
       | None => true
       end)
      && includes_at_toplevel (locals_step line uncommented_line v) rest
  end.

(** a raw line that reads as a standard-library include is recognised as the
    same include on the comment-free view (no such line is commented out) *)
Definition include_visible (view : bytes * bytes) : bool :=
  match standard_include (fst view) with
  | Some name =>
      match standard_include (snd view) with
      | Some name' => String.eqb name name'
      | None => false
      end
  | None => true
  end.

Definition includes_well_placed (views : list (bytes * bytes)) : bool :=
  includes_at_toplevel initial_locals views && forallb include_visible views.

(** nothing follows the umbrella header in a list of names *)
Definition umbrella_last (names : list string) : Prop :=
  forall before after, names = before ++ bits_stdcxx_h :: after -> after = [].

(** the output agrees with the record of the system headers seen: the
    standard-library includes of the output are distinct, each is recorded
    in [pragma_once_system], and none follows the umbrella header *)
Record ledger (iq : list Path) (cc : string) (self : Bundler) : Prop := {
  ledger_iquotes : iquotes self = iq;
  ledger_compiler : compiler self = cc;
  ledger_nodup : NoDup (standard_includes (result_lines self));
  ledger_recorded :
    forall n, n ∈ standard_includes (result_lines self) ->
              n ∈ pragma_once_system self;
  ledger_umbrella : umbrella_last (standard_includes (result_lines self))
}.

(** a method that relates the Bundler it ends with to the one it started
    from, whatever its outcome *)
Definition preserves (R : Bundler -> Bundler -> Prop) {A} (m : M A) : Prop :=
  forall s r s', m s = (r, s') -> R s s'.

Definition same_path_stack (s s' : Bundler) : Prop := path_stack s' = path_stack s.

(** a turn of the loop that, when it continues, leaves variables that
    satisfy [P] *)
Definition continues_with (P : Locals -> Prop) (m : M flow) : Prop :=
  forall s v' s', m s = (Returned (Continue v'), s') -> P v'.

(** a method that, when it returns, has kept a property of the Bundler *)
Definition keeps (I : Bundler -> Prop) {A} (m : M A) : Prop :=
  forall s a s', I s -> m s = (Returned a, s') -> I s'.

(** *** Lines without effect on the guard state: the comment-free view is
    empty and the raw line is not [#pragma once] *)
Definition transparent (view : bytes * bytes) : bool :=
  Bytes.is_empty (snd view) && negb (Re.pragma_once_directive (fst view)).

(** *** Lines of plain code: neither view is a preprocessor directive and
    the comment-free view is not empty *)
Definition plain_code (view : bytes * bytes) : bool :=
  match Re.directive (fst view), Re.directive (snd view) with
  | None, None => negb (Bytes.is_empty (snd view))
  | _, _ => false
  end.

(** a line recognised as [#include "name"] and not as [#pragma once] *)
Definition includes_header (view : bytes * bytes) (name : string) : bool :=
  negb (Re.pragma_once_directive (fst view))
  && match Re.include_user (snd view) with
     | Some g =>
         match Bytes.decode g with
         | Some n => String.eqb n name
         | None => false
         end
     | None => false
     end.

(** ** An in-memory world, for the examples

    One directory [/w], which is also the working directory.  A table gives
    for each absolute path the bytes of the file and the bytes the
    preprocessor prints for it. *)

Module MemFS.
Import Bytes.

Definition nl : bytes := newline.
Definition quoted (s : string) : string := String DQUOTE (s +:+ String DQUOTE EmptyString).

(** the text of a file from its lines *)
Definition text (lines : list string) : bytes :=
  join (map (fun l => l +:+ nl) lines).

(** what the preprocessor prints for a file without comments: a linemarker
    for line 1 and the file itself *)
Definition cpp_plain (path : Path) (code : bytes) : bytes :=
  "# 1 " +:+ quoted path +:+ nl +:+ code.

Definition table : Type := list (Path * (bytes * bytes)).

Fixpoint lookup_file (files : table) (p : Path) : option (bytes * bytes) :=
  match files with
  | [] => None
  | (k, v) :: rest => if String.eqb k p then Some v else lookup_file rest p
  end.

Definition absolute (p : Path) : Path :=
  if startswith "/" p then p else "/w/" +:+ p.

(** the part before the last slash, when there is one *)
Fixpoint before_last_slash (s : string) : option string :=
  match s with
  | EmptyString => None
  | String c r =>
      match before_last_slash r with
      | Some d => Some (String c d)
      | None => if Ascii.eqb c "/"%char then Some EmptyString else None
      end
  end.

Definition parent (p : Path) : Path :=
  match before_last_slash p with
  | Some EmptyString => "/"
  | Some d => d
  | None => "."
  end.

Definition joinpath (d p : Path) : Path :=
  if startswith "/" p then p
  else if String.eqb d "." then p
  else d +:+ "/" +:+ p.

Definition world (files : table) : World := {|
  path_resolve := absolute;
  path_exists := fun p =>
    match lookup_file files (absolute p) with Some _ => true | None => false end;
  path_parent := parent;
  path_join := joinpath;
  path_of_str := fun s => s;
  relative_to_cwd := strip_prefix "/w/";
  read_file := fun p => fst <$> lookup_file files (absolute p);
  preprocess := fun p _ _ =>
    match lookup_file files p with
    | Some (_, printed) => inr printed
    | None => inl (BundleError "g++ failed")
    end
|}.

(** a file without comments *)
Definition plain (path : Path) (lines : list string) : Path * (bytes * bytes) :=
  (path, (text lines, cpp_plain path (text lines))).

(** an include of a user header inside a conditional that is not a guard *)
Definition conditional_include : table :=
  [ plain "/w/main.cc" ["#ifndef FOO"; "#include " +:+ quoted "a.h"; "#endif"];
    plain "/w/a.h" ["int x;"] ].

(** a standard header included inside [#if] and again at top level *)
Definition repeated_vector : table :=
  [ plain "/w/main.cc" ["#if X"; "#include <vector>"; "#endif"; "#include <vector>"] ].

(** standard headers at top level, repeated and after the umbrella header *)
Definition toplevel_headers : table :=
  [ plain "/w/main.cc"
      ["#include <vector>"; "#include <vector>"; "#include <bits/stdc++.h>";
       "#include <map>"; "int main() {}"] ].

(** [main.cc] includes [a.h], which includes [b.h] *)
Definition nested : table :=
  [ plain "/w/main.cc" ["#include " +:+ quoted "a.h"];
    plain "/w/a.h" ["#include " +:+ quoted "b.h"; "int a;"];
    plain "/w/b.h" ["int b;"] ].

(** a header that starts with [#pragma once]; the preprocessor drops the
    pragma line *)
Definition pragma_header : table :=
  [ ("/w/a.h", (text ["#pragma once"; "int x;"],
                "# 1 " +:+ quoted "/w/a.h" +:+ nl +:+ text [EmptyString; "int x;"])) ].

(** a header with two [#pragma once] lines *)
Definition pragma_twice : table :=
  [ ("/w/a.h", (text ["#pragma once"; "#pragma once"; "int x;"],
                "# 1 " +:+ quoted "/w/a.h" +:+ nl
                +:+ text [EmptyString; EmptyString; "int x;"])) ].

(** a generated file that carries a linemarker of its own, which the
    preprocessor passes on *)
Definition generated : table :=
  [ ("/w/gen.cc", (text ["# 100 " +:+ quoted "gen.y"; "int x;"],
                   "# 1 " +:+ quoted "/w/gen.cc" +:+ nl
                   +:+ text ["# 100 " +:+ quoted "gen.y"; "int x;"])) ].

(** a header with an include guard, and a program that includes it twice *)
Definition guarded_header : table :=
  [ plain "/w/main.cc" ["#include " +:+ quoted "a.h"; "#include " +:+ quoted "a.h";
                        "int main() { return y; }"];
    plain "/w/a.h" ["#ifndef A_H"; "#define A_H"; "int y;"; "#endif"] ].

(** a header that includes itself *)
Definition self_include : table :=
  [ plain "/w/a.h" ["int before;"; "#include " +:+ quoted "a.h"; "int after;"] ].

(** an include of a user header inside [#if] *)
Definition include_in_if : table :=
  [ plain "/w/main.cc" ["#if FOO"; "#include " +:+ quoted "a.h"; "#endif"];
    plain "/w/a.h" ["int x;"] ].

(** a header whose [#pragma once] comes after a line of code *)
Definition late_pragma : table :=
  [ ("/w/a.h", (text ["int x;"; "#pragma once"],
                "# 1 " +:+ quoted "/w/a.h" +:+ nl +:+ text ["int x;"; EmptyString])) ].

(** a guarded header with code after the closing [#endif] *)
Definition code_after_guard : table :=
  [ plain "/w/a.h" ["#ifndef A_H"; "#define A_H"; "int y;"; "#endif"; "int z;"] ].

(** a program whose included file cannot be bundled *)
Definition failing_include : table :=
  [ plain "/w/top.cc" ["int t;"; "#include " +:+ quoted "main.cc"];
    plain "/w/main.cc" ["#if FOO"; "#include " +:+ quoted "a.h"; "#endif"];
    plain "/w/a.h" ["int x;"] ].

(** the umbrella header followed by other system headers *)
Definition umbrella_first : table :=
  [ plain "/w/main.cc" ["#include <bits/stdc++.h>"; "#include <vector>";
                        "#include <atcoder/all>"; "int main() {}"] ].

(** a conditional whose condition follows the keyword without a blank *)
Definition paren_conditional : table :=
  [ plain "/w/main.cc" ["#if(X)"; "int x;"; "#endif"] ].

(** the same conditional with a blank after the keyword *)
Definition spaced_conditional : table :=
  [ plain "/w/main.cc" ["#if (X)"; "int x;"; "#endif"] ].

End MemFS.

(** *** What a call of [update] may change *)

(** the configuration is kept and the two records only grow *)
Definition grows (s s' : Bundler) : Prop :=
  iquotes s' = iquotes s
  /\ compiler s' = compiler s
  /\ pragma_once s ⊆ pragma_once s'
  /\ pragma_once_system s ⊆ pragma_once_system s'.

(** *** The guard state and the depth counter *)

(** while a guard candidate is open, the depth is at least one; the depth
    is never negative *)
Definition guard_open_inside (v : Locals) : Prop :=
  (0 <= preprocess_if_nest v)%Z
  /\ (include_guard_macro v <> None ->
      include_guard_endif_found v = false ->
      (1 <= preprocess_if_nest v)%Z).

(** what is known of the variables in the turn for the comment-free line
    [u], once the depth has been updated *)
Definition guard_entered (u : bytes) (v : Locals) : Prop :=
  (0 <= preprocess_if_nest v)%Z
  /\ (include_guard_macro v <> None ->
      include_guard_endif_found v = false ->
      (1 <= preprocess_if_nest v)%Z \/ Re.endif_directive u = true)
  /\ (Re.if_directive u = true -> (1 <= preprocess_if_nest v)%Z).

(** *** Termination *)

(** every header that can be resolved is one of [files] *)
Definition resolves_within (w : World) (files : gset string) : Prop :=
  forall p, path_exists w p = true -> path_resolve w p ∈ files.

(** a method that, from a Bundler whose path stack is [PS], does not run out
    of fuel, leaves the path stack as it was, and returns a value that
    satisfies [Q] *)
Definition safe (PS : gset string) {A} (Q : A -> Prop) (m : M A) : Prop :=
  forall s, path_stack s = PS ->
    match m s with
    | (Returned a, s') => Q a /\ path_stack s' = PS
    | (Raised _, s') => path_stack s' = PS
    | (OutOfFuel, _) => False
    end.

(** ** The probe of the compiler and the run of the preprocessor

    [_check_compiler] and [_get_uncommented_code], over what they see of the
    host: [shutil.which] and [subprocess.check_output].  The memoisation by
    [functools.lru_cache] does not show in a host that answers the same
    question the same way.

    [str.lower()] is modelled on the UTF-8 bytes by the lowering of the
    letters [A-Z].  For the three tests below this is what Python computes:
    the only characters outside ASCII whose lower case holds an ASCII letter
    give [i] and [k], which occur in none of the three needles. *)

Record Host : Type := {
  which : string -> bool;                       (* shutil.which(c) is not None *)
  check_output : list string -> exn + bytes     (* subprocess.check_output *)
}.

Definition lower_ascii (c : ascii) : ascii :=
  let n := nat_of_ascii c in
  if (65 <=? n)%nat && (n <=? 90)%nat then ascii_of_nat (n + 32) else c.

Fixpoint lower (s : string) : string :=
  match s with
  | EmptyString => EmptyString
  | String c r => String (lower_ascii c) (lower r)
  end.

(** [needle in s] *)
Fixpoint contains (needle s : string) : bool :=
  Bytes.startswith needle s
  || match s with
     | EmptyString => false
     | String _ r => contains needle r
     end.

Definition _check_compiler (h : Host) (compiler : string) : exn + string :=
  match check_output h [compiler; "--version"] with
  | inl e => inl e
  | inr printed =>
      match Bytes.decode printed with
      | None => inl UnicodeDecodeError
      | Some version =>
          if contains "clang" (lower version)
             || contains (lower "Apple LLVM") (lower version)
          then inr "clang"
          else if contains "g++" (lower version) then inr "gcc"
          else inr "unknown"
      end
  end.

Definition _get_uncommented_code (h : Host) (path : Path)
    (iquotes_options : list string) (compiler : string) : exn + bytes :=
  if negb (which h compiler) then
    inl (BundleError ("command not found: " +:+ compiler))
  else
    match _check_compiler h compiler with
    | inl e => inl e
    | inr kind =>
        if negb (String.eqb kind "gcc") then
          if String.eqb compiler "g++" then
            inl (BundleError
                   ("A fake g++ is detected. Please install the GNU C++ compiler.: "
                    +:+ compiler))
          else
            inl (BundleError
                   ("It's not g++. Please specify g++ with $CXX envvar.: "
                    +:+ compiler))
        else
          check_output h
            ([compiler] ++ iquotes_options
             ++ ["-fpreprocessed"; "-dD"; "-E"; path])
    end.

(** a world whose preprocessor is the one of the host *)
Definition on_host (h : Host) (w : World) : World := {|
  path_resolve := path_resolve w;
  path_exists := path_exists w;
  path_parent := path_parent w;
  path_join := path_join w;
  path_of_str := path_of_str w;
  relative_to_cwd := relative_to_cwd w;
  read_file := read_file w;
  preprocess := _get_uncommented_code h
|}.

(** a host on which [g++] is Apple's clang *)
Definition apple_host : Host := {|
  which := fun c => String.eqb c "g++";
  check_output := fun cmd =>
    match cmd with
    | [_; "--version"] =>
        inr "Apple LLVM version 10.0.0 (clang-1000.11.45.5), include dir /usr/include/c++/4.2.1"
    | _ => inr EmptyString
    end
|}.

(** *** The head of the output *)

(** the output begins with a line that starts with [#line ] *)
Definition begins_with_line_directive (s : Bundler) : Prop :=
  exists d rest,
    result_lines s = d :: rest /\ Bytes.startswith "#line " d = true.

(** * Properties *)

(** ** Running the monad *)

Local Open Scope bundler_scope.

Lemma bind_returned {A B} (m : M A) (k : A -> M B) s b s' :
  bind m k s = (Returned b, s') ->
  exists a s1, m s = (Returned a, s1) /\ k a s1 = (Returned b, s').
Proof.
  unfold bind. destruct (m s) as [[a| e |] s1]; intros H; try discriminate.
  exists a, s1. split; [reflexivity | exact H].
Qed.

Lemma bind_run {A B} (m : M A) (k : A -> M B) s a s1 :
  m s = (Returned a, s1) -> bind m k s = k a s1.
Proof. intros H. unfold bind. rewrite H. reflexivity. Qed.

Lemma lift_sum_returned {A} (r : exn + A) s a s' :
  lift_sum r s = (Returned a, s') -> r = inr a /\ s' = s.
Proof.
  destruct r as [e | x]; cbn; intros H; inversion H; subst; auto.
Qed.

(** ** Frame properties: what a method leaves alone

    [R] relates the Bundler before a method to the Bundler after it; it is a
    preorder that the three kinds of update made while a file is processed
    respect. *)

Create HintDb frame.

Section Frame.
Context (w : World).
Context (R : Bundler -> Bundler -> Prop).
Hypothesis R_refl : forall s, R s s.
Hypothesis R_trans : forall s1 s2 s3, R s1 s2 -> R s2 s3 -> R s1 s3.
Hypothesis R_result_lines : forall f s, R s (set_result_lines f s).
Hypothesis R_pragma_once : forall p s, R s (set_pragma_once (fun x => {[p]} ∪ x) s).
Hypothesis R_pragma_once_system :
  forall n s, R s (set_pragma_once_system (fun x => {[n]} ∪ x) s).

Lemma preserves_ret {A} (a : A) : preserves R (ret a).
Proof. intros s r s' H. inversion H. apply R_refl. Qed.

Lemma preserves_raise {A} e : preserves R (@raise A e).
Proof. intros s r s' H. inversion H. apply R_refl. Qed.

Lemma preserves_get_self : preserves R get_self.
Proof. intros s r s' H. inversion H. apply R_refl. Qed.

Lemma preserves_lift_sum {A} (x : exn + A) : preserves R (lift_sum x).
Proof. destruct x; [apply preserves_raise | apply preserves_ret]. Qed.

Lemma preserves_bind {A B} (m : M A) (k : A -> M B) :
  preserves R m -> (forall a, preserves R (k a)) -> preserves R (bind m k).
Proof.
  intros Hm Hk s r s'. unfold bind.
  destruct (m s) as [[a| e |] s1] eqn:E; intros H.
  - eapply R_trans; [eapply Hm, E | eapply Hk, H].
  - inversion H; subst. eapply Hm, E.
  - inversion H; subst. eapply Hm, E.
Qed.

Lemma preserves_append_line l : preserves R (append_line l).
Proof. intros s r s' H. inversion H. apply R_result_lines. Qed.

Lemma preserves_line n p : preserves R (_line w n p).
Proof. intros s r s' H. inversion H. apply R_result_lines. Qed.

Lemma preserves_resolve p from : preserves R (_resolve w p from).
Proof.
  apply preserves_bind; [apply preserves_get_self | intros self].
  destruct (path_exists w _); [apply preserves_ret |].
  destruct (resolve_in w _ _); [apply preserves_ret | apply preserves_raise].
Qed.

#[local] Hint Resolve preserves_ret preserves_raise preserves_get_self
  preserves_lift_sum preserves_append_line preserves_line
  preserves_resolve : frame.

Ltac frame :=
  repeat first
    [ progress eauto with frame
    | apply preserves_bind; [| intros ?]
    | match goal with
      | |- preserves _ (modify (set_pragma_once _)) =>
          intros ? ? ? [= <- <-]; apply R_pragma_once
      | |- preserves _ (modify (set_pragma_once_system _)) =>
          intros ? ? ? [= <- <-]; apply R_pragma_once_system
      | |- preserves _ (match ?x with _ => _ end) => destruct x
      | |- preserves _ (if ?x then _ else _) => destruct x
      end ].

Section Loop.
Context (rec : Path -> M unit).
Hypothesis rec_preserves : forall p, preserves R (rec p).

Lemma preserves_otherwise line v : preserves R (otherwise line v).
Proof. unfold otherwise. frame. Qed.

Lemma preserves_user_include path i line u t v :
  preserves R (user_include w rec path i line u t v).
Proof.
  pose proof preserves_otherwise.
  unfold user_include. frame.
Qed.

Lemma preserves_system_include path i line u t v :
  preserves R (system_include w rec path i line u t v).
Proof.
  pose proof preserves_user_include.
  unfold system_include. frame.
Qed.

Lemma preserves_non_guard_line path i line u t v :
  preserves R (non_guard_line w rec path i line u t v).
Proof.
  pose proof preserves_system_include.
  unfold non_guard_line. frame.
Qed.

Lemma preserves_guard_endif path i line u t v :
  preserves R (guard_endif w rec path i line u t v).
Proof.
  pose proof preserves_non_guard_line.
  unfold guard_endif. frame.
Qed.

Lemma preserves_guard_define path i line u t v :
  preserves R (guard_define w rec path i line u t v).
Proof.
  pose proof preserves_guard_endif.
  unfold guard_define. frame.
Qed.

Lemma preserves_guard_ifndef path i line u t v :
  preserves R (guard_ifndef w rec path i line u t v).
Proof.
  pose proof preserves_guard_define.
  unfold guard_ifndef. frame.
Qed.

Lemma preserves_pragma_once_line path i line u t v :
  preserves R (pragma_once_line w rec path i line u t v).
Proof.
  pose proof preserves_guard_ifndef.
  unfold pragma_once_line. frame.
Qed.

Lemma preserves_process_line path i line u v :
  preserves R (process_line w rec path i line u v).
Proof.
  pose proof preserves_pragma_once_line.
  unfold process_line. frame.
Qed.

Lemma preserves_process_lines path views :
  forall i v, preserves R (process_lines w rec path i views v).
Proof.
  induction views as [| [line u] rest IH]; intros i v; cbn [process_lines].
  - apply preserves_ret.
  - apply preserves_bind; [apply preserves_process_line |].
    intros [v' |]; [apply IH | apply preserves_ret].
Qed.

Lemma preserves_end_of_file path n v : preserves R (end_of_file path n v).
Proof. unfold end_of_file. frame. Qed.

Lemma preserves_update_body path : preserves R (update_body w rec path).
Proof.
  pose proof preserves_process_lines. pose proof preserves_end_of_file.
  unfold update_body. frame.
Qed.

End Loop.
End Frame.

(** ** Re-entering a guarded file *)

(** C1.  For a canonical path [P] (one that [resolve] leaves as it is) that
    is already in [pragma_once], the set the specification calls
    seenGuarded, [update P] returns at once: it raises nothing and leaves
    the whole Bundler, output included, as it was. *)
Theorem update_guarded_noop (w : World) (fuel : nat) (P : Path) (self : Bundler) :
  path_resolve w P = P ->
  P ∈ pragma_once self ->
  update w (S fuel) P self = (Returned tt, self).
Proof.
  intros Hcanon Hseen. cbn [update]. unfold bind, get_self.
  rewrite Hcanon. rewrite bool_decide_eq_true_2 by exact Hseen. reflexivity.
Qed.

Lemma update_guarded_noop_witness :
  let self := set_pragma_once (fun s => {[ "/w/a.h" ]} ∪ s) (init [] "g++") in
  update (MemFS.world MemFS.pragma_header) 1 "/w/a.h" self = (Returned tt, self).
Proof.
  intros self. apply (update_guarded_noop (MemFS.world MemFS.pragma_header) 0 "/w/a.h" self).
  - reflexivity.
  - unfold self. cbn. set_solver.
Defined.

(** ** The path stack *)

Lemma update_same_path_stack (w : World) (fuel : nat) :
  forall path, preserves same_path_stack (update w fuel path).
Proof.
  induction fuel as [| fuel IH]; intros path s r s' H.
  - inversion H. reflexivity.
  - cbn [update] in H. unfold bind at 1, get_self in H.
    destruct (bool_decide (path_resolve w path ∈ pragma_once s)).
    { inversion H. reflexivity. }
    destruct (bool_decide (path ∈ path_stack s)) eqn:Hin.
    { inversion H. reflexivity. }
    apply bool_decide_eq_false in Hin.
    unfold bind, modify, try_finally in H.
    destruct (update_body w (update w fuel) path _) as [r2 s2] eqn:Hbody.
    assert (Hs2 : path_stack s2 = {[path]} ∪ path_stack s).
    { eapply (preserves_update_body w same_path_stack) in Hbody; try exact Hbody;
        unfold same_path_stack; try congruence; auto. }
    unfold path_stack_remove, bind, get_self, modify in H.
    rewrite bool_decide_eq_true_2 in H by (rewrite Hs2; set_solver).
    inversion H; subst. unfold same_path_stack. cbn. rewrite Hs2. set_solver.
Qed.

(** C6.  Whatever the outcome of [update path] (a normal return, an early
    return, a raised error), the path stack after the call is the one
    before it.  A call that passes the two tests at entry runs the body with
    [path] added to the stack, and hands on the outcome of the body with
    [path] removed again: the [finally] clause always finds it.  The path
    on the stack is the one [update] is given, as it is given. *)
Theorem update_restores_path_stack (w : World) (fuel : nat) (path : Path)
    (self : Bundler) :
  path_stack (snd (update w fuel path self)) = path_stack self
  /\ (path_resolve w path ∉ pragma_once self ->
      path ∉ path_stack self ->
      exists r s2,
        update_body w (update w fuel) path
          (set_path_stack (fun s => {[path]} ∪ s) self) = (r, s2)
        /\ path ∈ path_stack s2
        /\ update w (S fuel) path self
           = (r, set_path_stack (fun s => s ∖ {[path]}) s2)).
Proof.
  split.
  - destruct (update w fuel path self) as [r s'] eqn:H.
    exact (update_same_path_stack w fuel path _ _ _ H).
  - intros Hguard Hstack.
    destruct (update_body w (update w fuel) path
                (set_path_stack (fun s => {[path]} ∪ s) self)) as [r s2] eqn:Hbody.
    assert (Hs2 : path_stack s2 = {[path]} ∪ path_stack self).
    { eapply (preserves_update_body w same_path_stack) in Hbody; try exact Hbody;
        unfold same_path_stack; try congruence; auto.
      intros p. apply update_same_path_stack. }
    exists r, s2. split; [reflexivity |]. split; [rewrite Hs2; set_solver |].
    cbn [update]. unfold bind at 1, get_self.
    rewrite bool_decide_eq_false_2 by exact Hguard.
    rewrite bool_decide_eq_false_2 by exact Hstack.
    unfold bind, modify, try_finally. rewrite Hbody.
    unfold path_stack_remove, bind, get_self, modify.
    rewrite bool_decide_eq_true_2 by (rewrite Hs2; set_solver).
    destruct r; reflexivity.
Qed.

Lemma update_restores_path_stack_witness :
  let w := MemFS.world MemFS.nested in
  let self := init [] "g++" in
  path_stack (snd (update w 3 "main.cc" self)) = ∅
  /\ exists r s2,
       update_body w (update w 3) "main.cc"
         (set_path_stack (fun s => {[ "main.cc" ]} ∪ s) self) = (r, s2)
       /\ "main.cc" ∈ path_stack s2
       /\ update w 4 "main.cc" self
          = (r, set_path_stack (fun s => s ∖ {[ "main.cc" ]}) s2).
Proof.
  intros w self.
  destruct (update_restores_path_stack w 3 "main.cc" self) as [H1 H2].
  split; [exact H1 |]. apply H2; cbn; set_solver.
Defined.

(** C6, counterexample.  The specification has the canonical path of the
    file on the stack.  [update] puts there the path it is given.  In the
    directory [/w] the file [a.h], whose canonical path is [/w/a.h],
    includes itself on line 2.  Bundled as [a.h], the body runs with [a.h]
    on the stack and [/w/a.h] not on it: the include, which resolves to
    [/w/a.h], is not taken for a cycle, the file is entered a second time
    and its first line is written twice before the cycle is found.  Bundled
    as [/w/a.h], the file is entered once. *)
Lemma path_stack_holds_given_path :
  let w := MemFS.world MemFS.self_include in
  let self := init [] "g++" in
  let cycle := BundleErrorAt "/w/a.h" (-1) "cycle found in inclusion relations" in
  let before := "int before;" +:+ MemFS.nl in
  let body := update_body w (update w 3) "a.h"
                (set_path_stack (fun s => {[ "a.h" ]} ∪ s) self) in
  path_resolve w "a.h" = "/w/a.h"
  /\ ("a.h" ∈ path_stack (snd body))
  /\ (path_resolve w "a.h" ∉ path_stack (snd body))
  /\ update w 4 "a.h" self
     = (Raised cycle,
        mkBundler [] ∅ ∅
          [line_directive 1 "a.h"; before; line_directive 1 "a.h"; before]
          ∅ "g++")
  /\ update w 4 "/w/a.h" self
     = (Raised cycle,
        mkBundler [] ∅ ∅ [line_directive 1 "a.h"; before] ∅ "g++").
Proof.
  intros w self cycle before body. split; [reflexivity |]. split.
  { assert (H : bool_decide ("a.h" ∈ path_stack (snd body)) = true)
      by (vm_compute; reflexivity).
    exact (bool_decide_eq_true_1 _ H). }
  split.
  { assert (H : bool_decide (path_resolve w "a.h" ∈ path_stack (snd body)) = false)
      by (vm_compute; reflexivity).
    exact (bool_decide_eq_false_1 _ H). }
  split; vm_compute; reflexivity.
Qed.

(** ** The include resolver *)

(** C8.  [_resolve header from] returns the canonical form of the first
    existing path among [dirname(from) / header] and [dir / header] for the
    configured directories in the order supplied; when none exists it raises
    the error that carries [header], whose message begins with the header
    as the error prints it. *)
Theorem resolve_first_existing (w : World) (header from : Path) (self : Bundler) :
  _resolve w header from self
  = match first_existing w (resolve_candidates w (iquotes self) header from) with
    | Some c => (Returned (path_resolve w c), self)
    | None => (Raised (BundleErrorAt header (-1) "no such header"), self)
    end
  /\ exists shown,
       error_message w (BundleErrorAt header (-1) "no such header")
       = Some (shown +:+ ": line -1: no such header")
       /\ (shown = header \/ relative_to_cwd w (path_resolve w header) = Some shown).
Proof.
  split.
  - unfold _resolve, bind, get_self, first_existing, resolve_candidates.
    cbn [List.find].
    destruct (path_exists w (path_join w (path_parent w from) header)); [reflexivity |].
    induction (iquotes self) as [| d ds IH]; cbn; [reflexivity |].
    destruct (path_exists w (path_join w d header)); [reflexivity | exact IH].
  - cbn [error_message].
    destruct (relative_to_cwd w (path_resolve w header)) as [p |] eqn:E.
    + exists p. split; [reflexivity | right; reflexivity].
    + exists header. split; [reflexivity | left; reflexivity].
Qed.

(** ** The matchers of the three conditional directives exclude each other *)

Lemma strip_prefix_head a p s t :
  Bytes.strip_prefix (String a p) s = Some t -> exists s', s = String a s'.
Proof.
  destruct s as [| b s']; cbn; [discriminate |].
  destruct (Ascii.eqb_spec a b); [subst; eauto | discriminate].
Qed.

Lemma keyword_space_head a p r :
  Re.keyword_space (String a p) r = true -> exists r', r = String a r'.
Proof.
  unfold Re.keyword_space.
  destruct (Bytes.strip_prefix (String a p) r) eqn:E; [| discriminate].
  intros _. eapply strip_prefix_head, E.
Qed.

Lemma startswith_head a p r :
  Bytes.startswith (String a p) r = true -> exists r', r = String a r'.
Proof.
  unfold Bytes.startswith.
  destruct (Bytes.strip_prefix (String a p) r) eqn:E; [| discriminate].
  intros _. eapply strip_prefix_head, E.
Qed.

Lemma if_directive_head u :
  Re.if_directive u = true ->
  exists r, Re.directive u = Some (String "i"%char r).
Proof.
  unfold Re.if_directive. destruct (Re.directive u) as [r |]; [| discriminate].
  intros H. apply orb_true_iff in H as [H | H]; [apply orb_true_iff in H as [H | H] |];
    apply keyword_space_head in H as [r' ->]; eauto.
Qed.

Lemma if_not_else u : Re.if_directive u = true -> Re.else_directive u = false.
Proof.
  intros H. apply if_directive_head in H as [r H].
  unfold Re.else_directive. rewrite H. reflexivity.
Qed.

Lemma if_not_endif u : Re.if_directive u = true -> Re.endif_directive u = false.
Proof.
  intros H. apply if_directive_head in H as [r H].
  unfold Re.endif_directive. rewrite H. reflexivity.
Qed.

Lemma endif_not_else u : Re.endif_directive u = true -> Re.else_directive u = false.
Proof.
  unfold Re.endif_directive, Re.else_directive.
  destruct (Re.directive u) as [r |]; [| discriminate].
  intros H. pose proof H as H'. apply startswith_head in H' as [r' ->].
  destruct r' as [| c r'']; [reflexivity |].
  unfold Bytes.startswith, Re.keyword_space in *.
  cbn [Bytes.strip_prefix] in *.
  destruct (Ascii.eqb_spec "n" c); [subst; reflexivity | cbn in H; discriminate].
Qed.

Lemma endif_not_if u : Re.endif_directive u = true -> Re.if_directive u = false.
Proof.
  intros H. destruct (Re.if_directive u) eqn:E; [| reflexivity].
  apply if_not_endif in E. congruence.
Qed.

(** ** The depth counter along the loop *)

Lemma nest_step_delta path i u n n' :
  nest_step path i u n = inr n' -> n' = (n + nest_delta u)%Z.
Proof.
  unfold nest_step, nest_delta.
  destruct (Re.if_directive u) eqn:Eif.
  - rewrite (if_not_endif u Eif), (if_not_else u Eif). cbn. intros [= <-]. lia.
  - destruct (Re.else_directive u && (n =? 0)%Z); [discriminate |].
    destruct (Re.endif_directive u).
    + destruct (n - 1 <? 0)%Z; [discriminate |]. intros [= <-]. lia.
    + intros [= <-]. lia.
Qed.

Lemma nest_step_nonneg path i u n n' :
  nest_step path i u n = inr n' -> (0 <= n)%Z -> (0 <= n')%Z.
Proof.
  unfold nest_step.
  destruct (Re.else_directive u && _); [discriminate |].
  destruct (Re.endif_directive u).
  - destruct (Z.ltb_spec (((if Re.if_directive u then n + 1 else n) - 1)) 0)%Z;
      [discriminate |]. intros [= <-] _. lia.
  - intros [= <-] Hn. destruct (Re.if_directive u); lia.
Qed.

Lemma nest_step_path_irrelevant path i path' i' u n :
  match nest_step path i u n, nest_step path' i' u n with
  | inr a, inr b => a = b
  | inl _, inl _ => True
  | _, _ => False
  end.
Proof.
  unfold nest_step.
  destruct (Re.else_directive u && _); [exact I |].
  destruct (Re.endif_directive u); [| reflexivity].
  destruct (_ <? 0)%Z; [exact I | reflexivity].
Qed.

(** ** The variables after a turn are those of [locals_step] *)

Section Continues.
Context (P : Locals -> Prop).

Lemma continues_ret v : P v -> continues_with P (ret (Continue v)).
Proof. intros HP s v' s' [= <- _]. exact HP. Qed.

Lemma continues_return : continues_with P (ret Return).
Proof. intros s v' s' H. discriminate H. Qed.

Lemma continues_raise e : continues_with P (raise e).
Proof. intros s v' s' H. discriminate H. Qed.

Lemma continues_bind {A} (m : M A) (k : A -> M flow) :
  (forall a, continues_with P (k a)) -> continues_with P (bind m k).
Proof.
  intros Hk s v' s' H. apply bind_returned in H as (a & s1 & _ & H).
  eapply Hk, H.
Qed.

End Continues.

Ltac continues :=
  repeat first
    [ apply continues_return
    | apply continues_raise
    | apply continues_ret; reflexivity
    | apply continues_bind; intros ?
    | assumption
    | match goal with
      | |- continues_with _ (match ?x with _ => _ end) => destruct x eqn:?
      | |- continues_with _ (if ?x then _ else _) => destruct x eqn:?
      end ].

Section Locals.
Context (w : World) (rec : Path -> M unit).
Context (path : Path) (i : nat) (line u : bytes).

Lemma system_include_locals t v :
  continues_with (eq v) (system_include w rec path i line u t v).
Proof. unfold system_include, user_include, otherwise. continues. Qed.

Lemma non_guard_line_locals t v :
  continues_with (eq (after_non_guard_line u v)) (non_guard_line w rec path i line u t v).
Proof.
  unfold non_guard_line, after_non_guard_line.
  destruct (negb (Bytes.is_empty u)); [| apply system_include_locals].
  cbv zeta. destruct (include_guard_endif_found _); [apply continues_raise |].
  apply system_include_locals.
Qed.

Lemma guard_endif_locals t v :
  continues_with (eq (after_guard_endif u v)) (guard_endif w rec path i line u t v).
Proof.
  unfold guard_endif, after_guard_endif.
  destruct (_ && Re.endif_directive u); [continues | apply non_guard_line_locals].
Qed.

Lemma guard_define_locals t v :
  continues_with (eq (after_guard_define u v)) (guard_define w rec path i line u t v).
Proof.
  pose proof (guard_endif_locals t v).
  unfold guard_define, after_guard_define. continues.
Qed.

Lemma guard_ifndef_locals t v :
  continues_with (eq (after_guard_ifndef u v)) (guard_ifndef w rec path i line u t v).
Proof.
  pose proof (guard_define_locals t v).
  unfold guard_ifndef, after_guard_ifndef. continues.
Qed.

Lemma pragma_once_line_locals t v :
  continues_with (eq (after_pragma_once_line line u v))
    (pragma_once_line w rec path i line u t v).
Proof.
  pose proof (guard_ifndef_locals t v).
  unfold pragma_once_line, after_pragma_once_line. continues.
Qed.

Lemma process_line_locals v :
  continues_with (eq (locals_step line u v)) (process_line w rec path i line u v).
Proof.
  intros s v' s' H. unfold process_line in H.
  apply bind_returned in H as (nest & s1 & Hn & H).
  apply lift_sum_returned in Hn as [Hn ->].
  unfold locals_step.
  pose proof (nest_step_path_irrelevant path i EmptyString 0 u (preprocess_if_nest v)) as Hirr.
  rewrite Hn in Hirr.
  destruct (nest_step EmptyString 0 u (preprocess_if_nest v)) as [| nest0]; [contradiction |].
  subst nest0. eapply pragma_once_line_locals, H.
Qed.

End Locals.

Lemma after_pragma_once_line_nest line u v :
  preprocess_if_nest (after_pragma_once_line line u v) = preprocess_if_nest v.
Proof.
  unfold after_pragma_once_line, after_guard_ifndef, after_guard_define,
    after_guard_endif, after_non_guard_line.
  repeat match goal with
         | |- context [match ?x with _ => _ end] => destruct x
         end; reflexivity.
Qed.

Lemma process_line_nest w rec path i line u v s v' s' :
  process_line w rec path i line u v s = (Returned (Continue v'), s') ->
  nest_step path i u (preprocess_if_nest v) = inr (preprocess_if_nest v').
Proof.
  intros H. pose proof (process_line_locals _ _ _ _ _ _ _ _ _ _ H) as <-.
  unfold process_line in H.
  apply bind_returned in H as (nest & s1 & Hn & _).
  apply lift_sum_returned in Hn as [Hn _]. rewrite Hn. f_equal.
  unfold locals_step.
  pose proof (nest_step_path_irrelevant path i EmptyString 0 u (preprocess_if_nest v)) as Hirr.
  rewrite Hn in Hirr.
  destruct (nest_step EmptyString 0 u (preprocess_if_nest v)) as [| nest0]; [contradiction |].
  subst nest0. rewrite after_pragma_once_line_nest. reflexivity.
Qed.

Lemma process_lines_nest w rec path views :
  forall i v s v' s',
    process_lines w rec path i views v s = (Returned (Continue v'), s') ->
    (0 <= preprocess_if_nest v)%Z ->
    preprocess_if_nest v'
    = (preprocess_if_nest v + nest_balance (map snd views))%Z
    /\ (0 <= preprocess_if_nest v')%Z.
Proof.
  induction views as [| [line u] rest IH]; intros i v s v' s' H Hv.
  - cbn in H. inversion H; subst. cbn. split; lia.
  - cbn [process_lines] in H.
    apply bind_returned in H as (f & s1 & Hline & H).
    destruct f as [v1 |]; [| discriminate H].
    apply process_line_nest in Hline.
    pose proof (nest_step_delta _ _ _ _ _ Hline) as Hd.
    pose proof (nest_step_nonneg _ _ _ _ _ Hline Hv) as Hn.
    destruct (IH _ _ _ _ _ H Hn) as [IH1 IH2].
    split; [| exact IH2].
    change (nest_balance (map snd ((line, u) :: rest)))
      with (nest_delta u + nest_balance (map snd rest))%Z. lia.
Qed.

(** ** Conditional nesting *)

(** What does hold of the counter, with the patterns of the code.  On a
    comment-free line that the code takes for an [#if], [#ifdef] or
    [#ifndef] the counter goes up by one; a line taken for [#else] or
    [#elif] at depth 0 raises "unmatched #else / #elif"; a line taken for
    [#endif] takes one off and raises "unmatched #endif" when the result is
    negative.  When the loop runs to the end of the file, the counter is the
    number of lines taken for opening conditionals minus the number taken
    for [#endif]; and with a counter that is not zero the checks at the end
    of the file raise "unmatched #if / #ifdef / #ifndef". *)
Theorem conditional_nesting (w : World) (rec : Path -> M unit) (path : Path) :
  (forall i u n,
      Re.if_directive u = true -> nest_step path i u n = inr (n + 1)%Z)
  /\ (forall i u,
      Re.else_directive u = true ->
      nest_step path i u 0
      = inl (BundleErrorAt path (Z.of_nat i + 1) "unmatched #else / #elif"))
  /\ (forall i u n,
      Re.endif_directive u = true ->
      nest_step path i u n
      = if (n - 1 <? 0)%Z
        then inl (BundleErrorAt path (Z.of_nat i + 1) "unmatched #endif")
        else inr (n - 1)%Z)
  /\ (forall views s v s',
      process_lines w rec path 0 views initial_locals s = (Returned (Continue v), s') ->
      preprocess_if_nest v = nest_balance (map snd views)
      /\ (nest_balance (map snd views) = 0%Z -> preprocess_if_nest v = 0%Z))
  /\ (forall last v s,
      preprocess_if_nest v <> 0%Z ->
      end_of_file path last v s
      = (Raised (BundleErrorAt path (Z.of_nat last)
                   "unmatched #if / #ifdef / #ifndef"), s)).
Proof.
  repeat split.
  - intros i u n Hif. unfold nest_step.
    rewrite Hif, (if_not_else u Hif), (if_not_endif u Hif). reflexivity.
  - intros i u Helse. unfold nest_step.
    destruct (Re.if_directive u) eqn:Hif.
    + rewrite (if_not_else u Hif) in Helse. discriminate.
    + rewrite Helse. reflexivity.
  - intros i u n Hendif. unfold nest_step.
    rewrite (endif_not_if u Hendif), (endif_not_else u Hendif), Hendif.
    reflexivity.
  - apply process_lines_nest in H as [H _]; [| cbn; lia]. rewrite H. cbn. lia.
  - intros Hb. apply process_lines_nest in H as [H _]; [| cbn; lia].
    rewrite H, Hb. reflexivity.
  - intros last v s Hv. unfold end_of_file.
    destruct (Z.eqb_spec (preprocess_if_nest v) 0); [contradiction | reflexivity].
Qed.

Lemma conditional_nesting_witness :
  let w := MemFS.world MemFS.repeated_vector in
  let path := "main.cc" in
  nest_step path 0 ("#if X" +:+ MemFS.nl) 0 = inr 1%Z
  /\ nest_step path 1 ("#else" +:+ MemFS.nl) 0
     = inl (BundleErrorAt path 2 "unmatched #else / #elif")
  /\ nest_step path 2 ("#endif" +:+ MemFS.nl) 0
     = inl (BundleErrorAt path 3 "unmatched #endif")
  /\ end_of_file path 4 (set_preprocess_if_nest 1 initial_locals) (init [] "g++")
     = (Raised (BundleErrorAt path 4 "unmatched #if / #ifdef / #ifndef"),
        init [] "g++").
Proof.
  intros w path.
  destruct (conditional_nesting w (update w 1) path) as (H1 & H2 & H3 & _ & H5).
  split; [apply (H1 0%nat ("#if X" +:+ MemFS.nl) 0%Z); reflexivity |].
  split; [apply (H2 1%nat ("#else" +:+ MemFS.nl)); reflexivity |].
  split; [apply (H3 2%nat ("#endif" +:+ MemFS.nl) 0%Z); reflexivity |].
  apply (H5 4%nat (set_preprocess_if_nest 1 initial_locals) (init [] "g++")).
  cbn. lia.
Defined.

(** an error of the depth counter is the error of the turn: it is raised
    before the line is looked at in any other way, and nothing is written *)
Lemma process_line_nest_raises w rec path i line u v s e :
  nest_step path i u (preprocess_if_nest v) = inl e ->
  process_line w rec path i line u v s = (Raised e, s).
Proof.
  intros H. unfold process_line, bind, lift_sum. rewrite H. reflexivity.
Qed.

(** C7, at the failing input.  [main.cc] is [#if(X) / int x; / #endif].  Its
    conditionals are matched, and the pattern of the specification (the
    keyword, then a word boundary) reads line 1 as an opening conditional.
    The pattern of the code wants white space after the keyword: line 1 is
    not counted, the [#endif] on line 3 takes the counter from 0 to -1, and
    [update] raises "unmatched #endif" for a file whose [#endif] is matched.
    With a blank after the keyword, [#if (X)], the same file is bundled. *)
Theorem conditional_without_blank_unmatched :
  let w := MemFS.world MemFS.paren_conditional in
  let opening := "#if(X)" +:+ MemFS.nl in
  let code := "int x;" +:+ MemFS.nl in
  let closing := "#endif" +:+ MemFS.nl in
  line_views w [] "g++" "main.cc"
  = inr [(opening, opening); (code, code); (closing, closing)]
  /\ Documented.opens opening = true
  /\ Documented.matched [opening; code; closing] = true
  /\ Re.if_directive opening = false
  /\ nest_step "main.cc" 0 opening 0 = inr 0%Z
  /\ nest_step "main.cc" 2 closing 0
     = inl (BundleErrorAt "main.cc" 3 "unmatched #endif")
  /\ update w 1 "main.cc" (init [] "g++")
     = (Raised (BundleErrorAt "main.cc" 3 "unmatched #endif"),
        mkBundler [] ∅ ∅ [line_directive 1 "main.cc"; opening; code] ∅ "g++")
  /\ update (MemFS.world MemFS.spaced_conditional) 1 "main.cc" (init [] "g++")
     = (Returned tt,
        mkBundler [] ∅ ∅
          [line_directive 1 "main.cc"; "#if (X)" +:+ MemFS.nl; code; closing]
          ∅ "g++").
Proof. repeat split; vm_compute; reflexivity. Qed.

(** ** [#pragma once] *)

Lemma set_preprocess_if_nest_same v :
  set_preprocess_if_nest (preprocess_if_nest v) v = v.
Proof. destruct v; reflexivity. Qed.

Lemma transparent_line w rec path i line u v s :
  transparent (line, u) = true ->
  include_guard_macro v = None ->
  include_guard_define_found v = false ->
  process_line w rec path i line u v s
  = (Returned (Continue v), set_result_lines (fun lines => lines ++ [line]) s).
Proof.
  unfold transparent. cbn [fst snd]. intros Ht Hmacro Hdef.
  apply andb_true_iff in Ht as [Hu Hl]. apply negb_true_iff in Hl.
  destruct u; [| discriminate Hu].
  unfold process_line. cbn [nest_step Re.if_directive Re.else_directive
    Re.endif_directive Re.directive Bytes.skip_spaces andb lift_sum].
  unfold bind at 1, ret at 1. rewrite set_preprocess_if_nest_same.
  unfold pragma_once_line. rewrite Hl.
  unfold guard_ifndef. rewrite Hmacro.
  replace (Re.ifndef_macro EmptyString) with (@None string) by reflexivity.
  assert (Hd : guard_define w rec path i line EmptyString
                 (is_toplevel_of v) v s
               = (Returned (Continue v),
                  set_result_lines (fun lines => lines ++ [line]) s)).
  { unfold guard_define. rewrite Hmacro. unfold guard_endif. rewrite Hdef.
    cbn [andb]. reflexivity. }
  destruct (negb (pragma_once_found v) && negb (non_guard_line_found v));
    exact Hd.
Qed.

Lemma transparent_lines w rec path more views :
  forall i v iq po pos out ps cc,
    forallb transparent views = true ->
    include_guard_macro v = None ->
    include_guard_define_found v = false ->
    process_lines w rec path i (views ++ more) v (mkBundler iq po pos out ps cc)
    = process_lines w rec path (i + length views) more v
        (mkBundler iq po pos (out ++ map fst views) ps cc).
Proof.
  induction views as [| [line u] rest IH]; intros i v iq po pos out ps cc Ht Hm Hd.
  - cbn. rewrite Nat.add_0_r, app_nil_r. reflexivity.
  - cbn [forallb] in Ht. apply andb_true_iff in Ht as [Ht1 Ht2].
    cbn [app process_lines].
    rewrite (bind_run _ _ _ _ _ (transparent_line w rec path i line u v _ Ht1 Hm Hd)).
    unfold set_result_lines.
    cbn [iquotes pragma_once pragma_once_system result_lines path_stack compiler].
    rewrite (IH (S i) v iq po pos (out ++ [line]) ps cc Ht2 Hm Hd).
    cbn [length map fst]. rewrite <- app_assoc. cbn [app].
    replace (S i + length rest)%nat with (i + S (length rest))%nat by lia.
    reflexivity.
Qed.

(** the turn of the loop at a first [#pragma once] *)
Lemma pragma_once_first w rec path i line u v nest iq po pos out ps cc :
  Re.pragma_once_directive line = true ->
  nest_step path i u (preprocess_if_nest v) = inr nest ->
  non_guard_line_found v = false ->
  include_guard_macro v = None ->
  path_resolve w path ∉ po ->
  process_line w rec path i line u v (mkBundler iq po pos out ps cc)
  = (Returned (Continue (set_pragma_once_found true (set_preprocess_if_nest nest v))),
     mkBundler iq ({[path_resolve w path]} ∪ po) pos
       (pop_line_directives out ++ [line_directive (i + 2) (relative_path w path)])
       ps cc).
Proof.
  intros Hl Hn Hngl Hm Hpo. unfold process_line. rewrite Hn.
  cbn [lift_sum]. unfold bind at 1, ret at 1.
  unfold pragma_once_line. rewrite Hl.
  cbn [non_guard_line_found include_guard_macro set_preprocess_if_nest].
  rewrite Hngl, Hm. cbn [bool_decide]. 
  rewrite bool_decide_eq_false_2 by (intros H; apply H; reflexivity).
  unfold bind, get_self. cbn [pragma_once].
  rewrite bool_decide_eq_false_2 by exact Hpo.
  reflexivity.
Qed.

(** the turn of the loop at a later [#pragma once] *)
Lemma pragma_once_again w rec path i line u v nest self :
  Re.pragma_once_directive line = true ->
  nest_step path i u (preprocess_if_nest v) = inr nest ->
  non_guard_line_found v = false ->
  include_guard_macro v = None ->
  path_resolve w path ∈ pragma_once self ->
  process_line w rec path i line u v self = (Returned Return, self).
Proof.
  intros Hl Hn Hngl Hm Hpo. unfold process_line. rewrite Hn.
  cbn [lift_sum]. unfold bind at 1, ret at 1.
  unfold pragma_once_line. rewrite Hl.
  cbn [non_guard_line_found include_guard_macro set_preprocess_if_nest].
  rewrite Hngl, Hm.
  rewrite bool_decide_eq_false_2 by (intros H; apply H; reflexivity).
  unfold bind, get_self.
  rewrite bool_decide_eq_true_2 by exact Hpo.
  reflexivity.
Qed.

Lemma nest_step_no_close path i u n :
  Re.else_directive u = false ->
  Re.endif_directive u = false ->
  nest_step path i u n = inr (if Re.if_directive u then (n + 1)%Z else n).
Proof. intros He Hd. unfold nest_step. rewrite He, Hd. reflexivity. Qed.

Lemma path_stack_pop (path : string) (ps : gset string) :
  path ∉ ps -> ({[path]} ∪ ps) ∖ {[path]} = ps.
Proof. intros H. set_solver. Qed.

(** C10.  A file in which a second [#pragma once] line follows an earlier
    one, with nothing between them (and before the first) but lines whose
    comment-free view is empty: [update] returns at the second line and
    raises nothing.  The output is what was emitted up to that line; it does
    not depend on the lines after it, none of which is emitted. *)
Theorem second_pragma_once_returns (w : World) (fuel : nat) (path : Path)
    (pre mid rest : list (bytes * bytes)) (l0 u0 l1 u1 : bytes)
    (iq : list Path) (po pos : gset string) (out : list bytes)
    (ps : gset string) (cc : string) :
  line_views w iq cc path = inr (pre ++ (l0, u0) :: mid ++ (l1, u1) :: rest) ->
  forallb transparent pre = true ->
  forallb transparent mid = true ->
  Re.pragma_once_directive l0 = true ->
  Re.pragma_once_directive l1 = true ->
  Re.else_directive u0 = false -> Re.endif_directive u0 = false ->
  Re.else_directive u1 = false -> Re.endif_directive u1 = false ->
  path_resolve w path ∉ po ->
  path ∉ ps ->
  update w (S fuel) path (mkBundler iq po pos out ps cc)
  = (Returned tt,
     mkBundler iq ({[path_resolve w path]} ∪ po) pos
       ((pop_line_directives
           ((pop_line_directives out ++ [line_directive 1 (relative_path w path)])
            ++ map fst pre)
         ++ [line_directive (length pre + 2) (relative_path w path)])
        ++ map fst mid)
       ps cc).
Proof.
  intros Hviews Hpre Hmid Hl0 Hl1 He0 Hd0 He1 Hd1 Hpo Hps.
  cbn [update]. unfold bind at 1, get_self. cbn [pragma_once path_stack].
  rewrite bool_decide_eq_false_2 by exact Hpo.
  rewrite bool_decide_eq_false_2 by exact Hps.
  unfold bind at 1, modify at 1, try_finally, set_path_stack.
  cbn [iquotes pragma_once pragma_once_system result_lines path_stack compiler].
  unfold update_body. unfold bind at 1, get_self.
  cbn [iquotes compiler]. rewrite Hviews. cbn [lift_sum].
  unfold bind at 1, ret at 1. unfold bind at 1, _line at 1, modify, set_result_lines.
  cbn [iquotes pragma_once pragma_once_system result_lines path_stack compiler].
  unfold bind at 1.
  rewrite (transparent_lines w (update w fuel) path _ pre) by (auto; reflexivity).
  cbn [process_lines]. unfold bind at 1.
  rewrite (pragma_once_first w (update w fuel) path _ l0 u0 initial_locals _
             _ _ _ _ _ _ Hl0 (nest_step_no_close _ _ _ _ He0 Hd0)
             eq_refl eq_refl Hpo).
  rewrite (transparent_lines w (update w fuel) path _ mid) by (auto; reflexivity).
  cbn [process_lines]. unfold bind at 1.
  erewrite pragma_once_again;
    [| exact Hl1 | apply nest_step_no_close; assumption | reflexivity
     | reflexivity | cbn [pragma_once]; set_solver].
  unfold ret, path_stack_remove, bind, get_self, modify, set_path_stack.
  cbn [iquotes pragma_once pragma_once_system result_lines path_stack compiler].
  rewrite bool_decide_eq_true_2 by set_solver.
  cbn [iquotes pragma_once pragma_once_system result_lines path_stack compiler].
  rewrite (path_stack_pop path ps Hps). reflexivity.
Qed.

Lemma second_pragma_once_returns_witness :
  update (MemFS.world MemFS.pragma_twice) 1 "a.h" (init [] "g++")
  = (Returned tt,
     mkBundler [] ({[ "/w/a.h" ]} ∪ ∅) ∅
       [line_directive 2 "a.h"] ∅ "g++").
Proof.
  apply (second_pragma_once_returns (MemFS.world MemFS.pragma_twice) 0 "a.h"
           [] [] [("int x;" +:+ MemFS.nl, "int x;" +:+ MemFS.nl)]
           ("#pragma once" +:+ MemFS.nl) MemFS.nl
           ("#pragma once" +:+ MemFS.nl) MemFS.nl
           [] ∅ ∅ [] ∅ "g++");
    try reflexivity; cbn; set_solver.
Defined.

(** C5 (as the code has it).  At a line recognised as [#pragma once], in a
    file not yet registered, with no content and no guard candidate before
    it: the file is marked as pragma-once, its canonical path is registered
    in [pragma_once], and the line is replaced in the output by the
    directive [#line (i+2)], which takes the place of the [#line] lines at
    the tail of the output.  No blank line is emitted. *)
Theorem pragma_once_recognised (w : World) (rec : Path -> M unit) (path : Path)
    (i : nat) (line u : bytes) (v : Locals) (nest : Z) (self : Bundler) :
  Re.pragma_once_directive line = true ->
  nest_step path i u (preprocess_if_nest v) = inr nest ->
  non_guard_line_found v = false ->
  include_guard_macro v = None ->
  path_resolve w path ∉ pragma_once self ->
  exists v' self',
    process_line w rec path i line u v self = (Returned (Continue v'), self')
    /\ pragma_once_found v' = true
    /\ pragma_once self' = {[path_resolve w path]} ∪ pragma_once self
    /\ result_lines self'
       = pop_line_directives (result_lines self)
         ++ [line_directive (i + 2) (relative_path w path)]
    /\ line_directive (i + 2) (relative_path w path) <> Bytes.newline
    /\ pragma_once_system self' = pragma_once_system self
    /\ path_stack self' = path_stack self.
Proof.
  intros Hl Hn Hngl Hm Hpo. destruct self as [iq po pos out ps cc].
  eexists _, _. split.
  - apply pragma_once_first; eassumption.
  - cbn. repeat split. discriminate.
Qed.

Lemma pragma_once_recognised_witness :
  let w := MemFS.world MemFS.pragma_header in
  let self := mkBundler [] ∅ ∅ [line_directive 1 "a.h"] {[ "a.h" ]} "g++" in
  exists v' self',
    process_line w (fun _ => ret tt) "a.h" 0
      ("#pragma once" +:+ MemFS.nl) MemFS.nl initial_locals self
    = (Returned (Continue v'), self')
    /\ pragma_once_found v' = true
    /\ pragma_once self' = {[path_resolve w "a.h"]} ∪ pragma_once self
    /\ result_lines self'
       = pop_line_directives (result_lines self)
         ++ [line_directive (0 + 2) (relative_path w "a.h")]
    /\ line_directive (0 + 2) (relative_path w "a.h") <> Bytes.newline
    /\ pragma_once_system self' = pragma_once_system self
    /\ path_stack self' = path_stack self.
Proof.
  intros w self.
  apply (pragma_once_recognised w (fun _ => ret tt)
           "a.h" 0 ("#pragma once" +:+ MemFS.nl) MemFS.nl initial_locals 0%Z self);
    try reflexivity.
  cbn. set_solver.
Defined.

(** C5, counterexample.  The specification has a blank placeholder line
    emitted at [#pragma once].  For
    the header [#pragma once / int x;] the turn of the loop at its first
    line is in the situation described, and the whole output of
    [update] holds no blank line. *)
Lemma pragma_once_emits_no_blank_line :
  let w := MemFS.world MemFS.pragma_header in
  let self := snd (update w 1 "a.h" (init [] "g++")) in
  line_views w [] "g++" "a.h"
  = inr [("#pragma once" +:+ MemFS.nl, MemFS.nl);
         ("int x;" +:+ MemFS.nl, "int x;" +:+ MemFS.nl)]
  /\ fst (update w 1 "a.h" (init [] "g++")) = Returned tt
  /\ elements (pragma_once self) = ["/w/a.h"]
  /\ result_lines self = [line_directive 2 "a.h"; "int x;" +:+ MemFS.nl]
  /\ ~ In Bytes.newline (result_lines self).
Proof.
  repeat split; try (vm_compute; reflexivity).
  vm_compute. intros [H | [H | []]]; discriminate H.
Qed.

(** ** The two views of a file *)

Lemma length_pad_uncommented (lines uncommented_lines : list bytes) :
  length (pad_uncommented lines uncommented_lines)
  = Nat.max (length lines) (length uncommented_lines).
Proof. unfold pad_uncommented. rewrite length_app, repeat_length. lia. Qed.

Lemma map_fst_combine {A B} (l : list A) (l' : list B) :
  length l = length l' -> map fst (combine l l') = l.
Proof.
  revert l'. induction l as [| a l IH]; intros [| b l'] H; try discriminate H.
  - reflexivity.
  - cbn. f_equal. apply IH. cbn in H. lia.
Qed.

Lemma map_snd_combine {A B} (l : list A) (l' : list B) :
  length l = length l' -> map snd (combine l l') = l'.
Proof.
  revert l'. induction l as [| a l IH]; intros [| b l'] H; try discriminate H.
  - reflexivity.
  - cbn. f_equal. apply IH. cbn in H. lia.
Qed.

(** What does hold of the two views.  A linemarker for line [n] pads the
    comment-free view with blank lines up to [n - 1] lines, never shortens
    it, and is dropped.  After the padding with empty lines at the end, the
    comment-free view has as many lines as the longer of the two views.  So
    the views are paired and the [assert] holds exactly when the
    preprocessor's output, once its linemarkers are processed, has no more
    lines than the file; when it has more, [update] raises
    [AssertionError]. *)
Theorem views_same_length (w : World) :
  (forall lines line n,
      Re.linemarker (Bytes.rstrip line) = Some n ->
      uncomment_step lines line
      = lines ++ repeat Bytes.newline (n - 1 - length lines)
      /\ length (uncomment_step lines line) = Nat.max (length lines) (n - 1))
  /\ (forall lines uncommented_lines : list bytes,
      length (pad_uncommented lines uncommented_lines)
      = Nat.max (length lines) (length uncommented_lines))
  /\ (forall iq cc path code printed,
      read_file w path = Some code ->
      get_uncommented_code w path iq cc = inr printed ->
      (length (Bytes.splitlines printed) <= length (raw_lines code) ->
       exists views,
         line_views w iq cc path = inr views
         /\ map fst views = raw_lines code
         /\ length (map snd views) = length (raw_lines code))
      /\ (length (raw_lines code) < length (Bytes.splitlines printed) ->
          line_views w iq cc path = inl AssertionError
          /\ forall fuel self,
               iquotes self = iq -> compiler self = cc ->
               path_resolve w path ∉ pragma_once self ->
               path ∉ path_stack self ->
               fst (update w (S fuel) path self) = Raised AssertionError)).
Proof.
  split; [| split].
  - intros lines line n Hn. unfold uncomment_step. rewrite Hn.
    replace (n - (length lines + 1)) with (n - 1 - length lines) by lia.
    split; [reflexivity |]. rewrite length_app, repeat_length. lia.
  - apply length_pad_uncommented.
  - intros iq cc path code printed Hread Hprinted.
    assert (Hviews : line_views w iq cc path
                     = if (length (raw_lines code)
                           =? length (pad_uncommented (raw_lines code)
                                        (Bytes.splitlines printed)))%nat
                       then inr (combine (raw_lines code)
                                   (pad_uncommented (raw_lines code)
                                      (Bytes.splitlines printed)))
                       else inl AssertionError).
    { unfold line_views. rewrite Hread, Hprinted. reflexivity. }
    pose proof (length_pad_uncommented (raw_lines code) (Bytes.splitlines printed)) as Hlen.
    split.
    + intros Hle. rewrite Hviews.
      assert (Heq : length (raw_lines code)
                    = length (pad_uncommented (raw_lines code) (Bytes.splitlines printed)))
        by lia.
      rewrite (proj2 (Nat.eqb_eq _ _) Heq).
      eexists. split; [reflexivity |]. split.
      * apply map_fst_combine. exact Heq.
      * rewrite map_snd_combine by exact Heq. lia.
    + intros Hlt.
      assert (Hne : (length (raw_lines code)
                     =? length (pad_uncommented (raw_lines code)
                                  (Bytes.splitlines printed)))%nat = false)
        by (apply Nat.eqb_neq; lia).
      rewrite Hne in Hviews. split; [exact Hviews |].
      intros fuel self <- <- Hpo Hps.
      cbn [update]. unfold bind at 1, get_self.
      rewrite bool_decide_eq_false_2 by exact Hpo.
      rewrite bool_decide_eq_false_2 by exact Hps.
      unfold bind at 1, modify at 1, try_finally.
      unfold update_body. unfold bind at 1, get_self.
      cbn [set_path_stack iquotes compiler]. rewrite Hviews.
      cbn [lift_sum]. unfold path_stack_remove, bind, raise, get_self, modify.
      cbn [set_path_stack path_stack].
      rewrite bool_decide_eq_true_2 by set_solver.
      reflexivity.
Qed.

Lemma views_same_length_witness :
  let w := MemFS.world MemFS.pragma_header in
  (uncomment_step [] ("# 3 " +:+ MemFS.quoted "a.h" +:+ MemFS.nl)
   = [] ++ repeat Bytes.newline (3 - 1 - 0)
   /\ length (uncomment_step [] ("# 3 " +:+ MemFS.quoted "a.h" +:+ MemFS.nl))
      = Nat.max 0 (3 - 1))
  /\ exists views,
       line_views w [] "g++" "a.h" = inr views
       /\ map fst views = raw_lines (MemFS.text ["#pragma once"; "int x;"])
       /\ length (map snd views) = length (raw_lines (MemFS.text ["#pragma once"; "int x;"])).
Proof.
  intros w. destruct (views_same_length w) as (H1 & _ & H3).
  split.
  - apply (H1 [] ("# 3 " +:+ MemFS.quoted "a.h" +:+ MemFS.nl) 3). reflexivity.
  - destruct (H3 [] "g++" "a.h" (MemFS.text ["#pragma once"; "int x;"])
                (MemFS.text [EmptyString; "int x;"])) as [H _];
      [reflexivity | reflexivity |].
    apply H. vm_compute. lia.
Defined.

(** C9, at the failing input.  The [assert] of [update] on the lengths of
    the two views fails.  A generated file of two lines whose first line is
    a linemarker of its own, [# 100 "gen.y"]: the preprocessor passes the
    line on, [get_uncommented_code] takes it for one of the preprocessor's
    linemarkers and pads the comment-free view to 99 lines, the view has 100
    lines against 2, and [update] raises [AssertionError]. *)
Theorem views_length_assertion_fails :
  let w := MemFS.world MemFS.generated in
  length (raw_lines (MemFS.text ["# 100 " +:+ MemFS.quoted "gen.y"; "int x;"])) = 2
  /\ (exists printed,
        get_uncommented_code w "gen.cc" [] "g++" = inr printed
        /\ length (Bytes.splitlines printed) = 100)
  /\ update w 1 "gen.cc" (init [] "g++") = (Raised AssertionError, init [] "g++").
Proof.
  split; [vm_compute; reflexivity |]. split.
  - eexists. split; [reflexivity |]. vm_compute. reflexivity.
  - vm_compute. reflexivity.
Qed.

(** ** The top-level flag *)

(** C2, at the failing input.  [main.cc] is
    [#ifndef FOO / #include "a.h" / #endif]: the [#ifndef] is taken as a
    guard candidate and no [#define FOO] follows.  At the [#include] line
    the depth is 1 and the guard has not been accepted, yet the flag
    [is_toplevel] is true: [update] does not raise, it expands [a.h] inside
    the conditional, and the output keeps the [#endif] of a conditional
    whose [#ifndef] it has replaced by a blank line. *)
Theorem include_under_guard_candidate :
  let w := MemFS.world MemFS.conditional_include in
  let ifndef := "#ifndef FOO" +:+ MemFS.nl in
  let include := "#include " +:+ MemFS.quoted "a.h" +:+ MemFS.nl in
  let v := locals_step ifndef ifndef initial_locals in
  line_views w [] "g++" "main.cc"
  = inr [(ifndef, ifndef); (include, include);
         ("#endif" +:+ MemFS.nl, "#endif" +:+ MemFS.nl)]
  /\ preprocess_if_nest v = 1%Z
  /\ include_guard_macro v = Some "FOO"
  /\ include_guard_define_found v = false
  /\ toplevel_at include v = true
  /\ include_guard_macro (locals_step include include v) = None
  /\ update w 2 "main.cc" (init [] "g++")
     = (Returned tt,
        mkBundler [] ∅ ∅
          [ line_directive 1 "main.cc"; Bytes.newline;
            line_directive 1 "a.h"; "int x;" +:+ MemFS.nl;
            line_directive 3 "main.cc"; "#endif" +:+ MemFS.nl ]
          ∅ "g++").
Proof. repeat split; vm_compute; reflexivity. Qed.

(** What does hold of the flag: at an [#include "..."] line where it is
    false, the turn raises the policy error and [update] is not called. *)
Lemma user_include_not_toplevel w rec path i line u v self g included :
  Re.include_user u = Some g ->
  Bytes.decode g = Some included ->
  user_include w rec path i line u false v self
  = (Raised (BundleErrorAt path (Z.of_nat i + 1)
       "unable to process #include in #if / #ifdef / #ifndef other than include guards"),
     self).
Proof. intros Hu Hg. unfold user_include. rewrite Hu, Hg. reflexivity. Qed.

(** ** Lines of code and [#include "..."] lines *)

Lemma strip_prefix_app p : forall s t,
  Bytes.strip_prefix p s = Some t -> s = p +:+ t.
Proof.
  induction p as [| a p IH]; intros s t H; cbn in H.
  - inversion H. reflexivity.
  - destruct s as [| b s]; [discriminate |].
    destruct (Ascii.eqb_spec a b); [| discriminate]. subst.
    change (String b s = String b (p +:+ t)). f_equal. apply IH, H.
Qed.

Lemma include_between_directive o c u g :
  Re.include_between o c u = Some g ->
  exists r' g',
    Re.directive u = Some ("include" +:+ r')
    /\ Bytes.skip_spaces r' = String o g'.
Proof.
  unfold Re.include_between.
  destruct (Re.directive u) as [r |]; [| discriminate].
  destruct (Bytes.strip_prefix "include" r) as [r' |] eqn:E; [| discriminate].
  apply strip_prefix_app in E. subst r.
  destruct (Bytes.skip_spaces r') as [| x g'] eqn:E'; [discriminate |].
  destruct (Ascii.eqb_spec x o); [| discriminate]. subst. eauto.
Qed.

(** what the other matchers say of a line recognised as an include *)
Lemma include_excludes o c u g :
  Re.include_between o c u = Some g ->
  Re.if_directive u = false /\ Re.else_directive u = false
  /\ Re.endif_directive u = false /\ Re.ifndef_macro u = None
  /\ Re.define_macro u = None /\ Bytes.is_empty u = false.
Proof.
  intros H. apply include_between_directive in H as (r' & g' & Hd & _).
  unfold Re.if_directive, Re.else_directive, Re.endif_directive,
    Re.ifndef_macro, Re.define_macro. rewrite Hd.
  repeat split; try reflexivity.
  destruct u; [discriminate Hd | reflexivity].
Qed.

Lemma include_user_not_system u g :
  Re.include_user u = Some g -> Re.include_system u = None.
Proof.
  intros H. apply include_between_directive in H as (r' & g' & Hd & Hs).
  unfold Re.include_system, Re.include_between. rewrite Hd.
  replace (Bytes.strip_prefix "include" ("include" +:+ r')) with (Some r')
    by reflexivity.
  rewrite Hs. reflexivity.
Qed.

Lemma no_directive u :
  Re.directive u = None ->
  Re.if_directive u = false /\ Re.else_directive u = false
  /\ Re.endif_directive u = false /\ Re.ifndef_macro u = None
  /\ Re.define_macro u = None /\ Re.pragma_once_directive u = false
  /\ Re.include_system u = None /\ Re.include_user u = None.
Proof.
  intros H.
  unfold Re.if_directive, Re.else_directive, Re.endif_directive,
    Re.ifndef_macro, Re.define_macro, Re.pragma_once_directive,
    Re.include_system, Re.include_user, Re.include_between.
  rewrite H. repeat split.
Qed.

Lemma no_directive_not_line_directive l :
  Re.directive l = None -> Bytes.startswith "#line " l = false.
Proof.
  intros H. destruct l as [| c l]; [reflexivity |].
  unfold Bytes.startswith. cbn [Bytes.strip_prefix].
  destruct (Ascii.eqb_spec "#" c); [| reflexivity]. subst.
  discriminate H.
Qed.

Lemma pop_line_directives_keep lines l :
  Bytes.startswith "#line " l = false ->
  pop_line_directives (lines ++ [l]) = lines ++ [l].
Proof.
  intros H. induction lines as [| x lines IH]; cbn.
  - rewrite H. reflexivity.
  - rewrite IH. destruct lines; reflexivity.
Qed.

Lemma pop_line_directives_drop lines n p :
  pop_line_directives (lines ++ [line_directive n p]) = pop_line_directives lines.
Proof.
  induction lines as [| x lines IH]; cbn [app pop_line_directives].
  - reflexivity.
  - rewrite IH. reflexivity.
Qed.

Section Code.
Context (w : World) (rec : Path -> M unit) (path : Path).

(** a line of plain code is emitted as it is *)
Lemma plain_code_line i line u v s :
  plain_code (line, u) = true ->
  include_guard_macro v = None ->
  include_guard_define_found v = false ->
  include_guard_endif_found v = false ->
  process_line w rec path i line u v s
  = (Returned (Continue (set_non_guard_line_found true v)),
     set_result_lines (fun lines => lines ++ [line]) s).
Proof.
  unfold plain_code. cbn [fst snd]. intros Hp Hm Hdef Hend.
  destruct (Re.directive line) eqn:Hl; [discriminate |].
  destruct (Re.directive u) eqn:Hu; [discriminate |].
  apply negb_true_iff in Hp.
  destruct (no_directive u Hu) as (Hif & Helse & Hendif & Hifndef & Hdefine & _ & Hsys & Husr).
  destruct (no_directive line Hl) as (_ & _ & _ & _ & _ & Hpragma & _).
  unfold process_line, nest_step. rewrite Hif, Helse, Hendif. cbn [andb lift_sum].
  unfold bind at 1, ret at 1. rewrite set_preprocess_if_nest_same.
  unfold pragma_once_line. rewrite Hpragma.
  unfold guard_ifndef. rewrite Hm, Hifndef.
  assert (Hd : guard_define w rec path i line u (is_toplevel_of v) v s
               = (Returned (Continue (set_non_guard_line_found true v)),
                  set_result_lines (fun lines => lines ++ [line]) s)).
  { unfold guard_define. rewrite Hm. unfold guard_endif. rewrite Hdef.
    cbn [andb]. unfold non_guard_line. rewrite Hp. cbn [negb].
    cbn [include_guard_macro set_non_guard_line_found].
    rewrite Hm. rewrite bool_decide_eq_false_2 by (intros H; apply H; reflexivity).
    cbn [andb].
    change (include_guard_endif_found (set_non_guard_line_found true v))
      with (include_guard_endif_found v). rewrite Hend.
    unfold system_include. rewrite Hsys. unfold user_include. rewrite Husr.
    reflexivity. }
  destruct (negb (pragma_once_found v) && negb (non_guard_line_found v));
    exact Hd.
Qed.

Lemma plain_code_lines views :
  forall i v iq po pos out ps cc,
    forallb plain_code views = true ->
    include_guard_macro v = None ->
    include_guard_define_found v = false ->
    include_guard_endif_found v = false ->
    process_lines w rec path i views v (mkBundler iq po pos out ps cc)
    = (Returned (Continue match views with
                          | [] => v
                          | _ :: _ => set_non_guard_line_found true v
                          end),
       mkBundler iq po pos (out ++ map fst views) ps cc).
Proof.
  induction views as [| [line u] rest IH]; intros i v iq po pos out ps cc Hp Hm Hd He.
  - cbn. rewrite app_nil_r. reflexivity.
  - cbn [forallb] in Hp. apply andb_true_iff in Hp as [Hp1 Hp2].
    cbn [process_lines].
    rewrite (bind_run _ _ _ _ _ (plain_code_line i line u v _ Hp1 Hm Hd He)).
    unfold set_result_lines.
    cbn [iquotes pragma_once pragma_once_system result_lines path_stack compiler].
    rewrite (IH (S i) _ iq po pos (out ++ [line]) ps cc Hp2) by (destruct v; assumption).
    cbn [map fst]. rewrite <- app_assoc. cbn [app].
    destruct rest; destruct v; reflexivity.
Qed.

(** the turn of the loop at a top-level [#include "name"] *)
Lemma include_line i line u name v s :
  includes_header (line, u) name = true ->
  preprocess_if_nest v = 0%Z ->
  include_guard_macro v = None ->
  include_guard_define_found v = false ->
  include_guard_endif_found v = false ->
  process_line w rec path i line u v s
  = (target <- _resolve w (path_of_str w name) path ;;
     rec target ;;
     _line w (i + 2) path ;;
     ret (Continue (set_non_guard_line_found true v)))%bundler s.
Proof.
  unfold includes_header. cbn [fst snd]. intros Hinc Hnest Hm Hdef Hend.
  apply andb_true_iff in Hinc as [Hpragma Hinc]. apply negb_true_iff in Hpragma.
  destruct (Re.include_user u) as [g |] eqn:Husr; [| discriminate].
  destruct (Bytes.decode g) as [n |] eqn:Hdec; [| discriminate].
  apply String.eqb_eq in Hinc. subst n.
  destruct (include_excludes _ _ u g Husr) as (Hif & Helse & Hendif & Hifndef & Hdefine & Hne).
  pose proof (include_user_not_system u g Husr) as Hsys.
  unfold process_line, nest_step. rewrite Hif, Helse, Hendif. cbn [andb lift_sum].
  unfold bind at 1, ret at 1. rewrite set_preprocess_if_nest_same.
  unfold pragma_once_line. rewrite Hpragma.
  unfold guard_ifndef. rewrite Hm, Hifndef.
  assert (Htop : is_toplevel_of v = true).
  { unfold is_toplevel_of. rewrite Hnest. reflexivity. }
  rewrite Htop.
  assert (Hd : guard_define w rec path i line u true v s
               = (target <- _resolve w (path_of_str w name) path ;;
                  rec target ;;
                  _line w (i + 2) path ;;
                  ret (Continue (set_non_guard_line_found true v)))%bundler s).
  { unfold guard_define. rewrite Hm. unfold guard_endif. rewrite Hdef.
    cbn [andb]. unfold non_guard_line. rewrite Hne. cbn [negb].
    cbn [include_guard_macro set_non_guard_line_found].
    rewrite Hm. rewrite bool_decide_eq_false_2 by (intros H; apply H; reflexivity).
    cbn [andb].
    change (include_guard_endif_found (set_non_guard_line_found true v))
      with (include_guard_endif_found v). rewrite Hend.
    unfold system_include. rewrite Hsys. unfold user_include. rewrite Husr, Hdec.
    reflexivity. }
  destruct (negb (pragma_once_found v) && negb (non_guard_line_found v));
    exact Hd.
Qed.

End Code.

Lemma pop_line_directives_plain out views :
  forallb plain_code views = true ->
  views <> [] ->
  pop_line_directives (out ++ map fst views) = out ++ map fst views.
Proof.
  intros Hp Hne.
  destruct (exists_last Hne) as (front & [l u] & ->).
  rewrite forallb_app in Hp. apply andb_true_iff in Hp as [_ Hp].
  cbn [forallb] in Hp. rewrite andb_true_r in Hp.
  rewrite map_app. cbn [map fst]. rewrite app_assoc.
  apply pop_line_directives_keep, no_directive_not_line_directive.
  unfold plain_code in Hp. cbn [fst snd] in Hp.
  destruct (Re.directive l); [discriminate | reflexivity].
Qed.

(** the raw view of a file is never empty: the [for] loop runs at least
    once and [i] is bound after it *)
Lemma splitlines_cons c r : Bytes.splitlines (String c r) <> [].
Proof.
  cbn [Bytes.splitlines]. destruct (Ascii.eqb c Bytes.LF); [discriminate |].
  destruct (Ascii.eqb c Bytes.CR).
  - destruct r as [| c' r']; [discriminate |].
    destruct (Ascii.eqb c' Bytes.LF); discriminate.
  - destruct (Bytes.splitlines r); discriminate.
Qed.

Lemma raw_lines_nonempty code : raw_lines code <> [].
Proof.
  unfold raw_lines. destruct (Bytes.ends_with_newline code) eqn:E.
  - destruct code; [discriminate E | apply splitlines_cons].
  - destruct code; apply splitlines_cons.
Qed.

Lemma line_views_nonempty w iq cc path views :
  line_views w iq cc path = inr views -> views <> [].
Proof.
  unfold line_views. destruct (read_file w path) as [code |]; [| discriminate].
  destruct (get_uncommented_code w path iq cc) as [| printed]; [discriminate |].
  destruct (_ =? _)%nat eqn:E; [| discriminate].
  apply Nat.eqb_eq in E. intros [= <-] Hnil.
  apply (f_equal (@length _)) in Hnil. rewrite length_combine in Hnil.
  rewrite <- E, Nat.min_id in Hnil. pose proof (raw_lines_nonempty code) as Hne.
  destruct (raw_lines code); [congruence | discriminate Hnil].
Qed.

Lemma pop_line_directive_only n p :
  pop_line_directives [line_directive n p] = [].
Proof. exact (pop_line_directives_drop [] n p). Qed.

Section Files.
Context (w : World).

(** entering a file that is neither registered nor being processed *)
Lemma update_enter fuel path views iq po pos out ps cc :
  line_views w iq cc path = inr views ->
  path_resolve w path ∉ po ->
  path ∉ ps ->
  update w (S fuel) path (mkBundler iq po pos out ps cc)
  = try_finally
      (f <- process_lines w (update w fuel) path 0 views initial_locals ;;
       match f with
       | Return => ret tt
       | Continue v => end_of_file path (length views) v
       end)%bundler
      (path_stack_remove path)
      (mkBundler iq po pos
         (pop_line_directives out ++ [line_directive 1 (relative_path w path)])
         ({[path]} ∪ ps) cc).
Proof.
  intros Hviews Hpo Hps.
  cbn [update]. unfold bind at 1, get_self. cbn [pragma_once path_stack].
  rewrite bool_decide_eq_false_2 by exact Hpo.
  rewrite bool_decide_eq_false_2 by exact Hps.
  unfold bind at 1, modify at 1, try_finally, set_path_stack.
  cbn [iquotes pragma_once pragma_once_system result_lines path_stack compiler].
  unfold update_body. unfold bind at 1, get_self.
  cbn [iquotes compiler]. rewrite Hviews. cbn [lift_sum].
  unfold bind at 1, ret at 1. unfold bind at 1, _line at 1, modify, set_result_lines.
  cbn [iquotes pragma_once pragma_once_system result_lines path_stack compiler].
  reflexivity.
Qed.

Lemma leave_file path iq po pos out ps cc :
  path ∉ ps ->
  path_stack_remove path (mkBundler iq po pos out ({[path]} ∪ ps) cc)
  = (Returned tt, mkBundler iq po pos out ps cc).
Proof.
  intros Hps. unfold path_stack_remove, bind, get_self, modify, set_path_stack.
  cbn [iquotes pragma_once pragma_once_system result_lines path_stack compiler].
  rewrite bool_decide_eq_true_2 by set_solver.
  cbn [iquotes pragma_once pragma_once_system result_lines path_stack compiler].
  rewrite (path_stack_pop path ps Hps). reflexivity.
Qed.

(** a file of plain code *)
Lemma update_code_file fuel path views iq po pos out ps cc :
  line_views w iq cc path = inr views ->
  forallb plain_code views = true ->
  path_resolve w path ∉ po ->
  path ∉ ps ->
  update w (S fuel) path (mkBundler iq po pos out ps cc)
  = (Returned tt,
     mkBundler iq po pos
       ((pop_line_directives out ++ [line_directive 1 (relative_path w path)])
        ++ map fst views)
       ps cc).
Proof.
  intros Hviews Hplain Hpo Hps.
  rewrite (update_enter fuel path views) by assumption.
  unfold try_finally, bind at 1.
  rewrite plain_code_lines by (auto; reflexivity).
  assert (He : forall v0, include_guard_macro v0 = None ->
               preprocess_if_nest v0 = 0%Z ->
               forall s, end_of_file path (length views) v0 s = (Returned tt, s)).
  { intros v0 H1 H2 s. unfold end_of_file. rewrite H1, H2. reflexivity. }
  rewrite He by (destruct views; reflexivity).
  rewrite leave_file by exact Hps. reflexivity.
Qed.

(** a file whose first line includes a header and whose other lines are
    plain code, when the header is bundled without error *)
Lemma update_including_file fuel path name target inc rest iq po pos out out' ps cc :
  line_views w iq cc path = inr (inc :: rest) ->
  includes_header inc name = true ->
  forallb plain_code rest = true ->
  path_exists w (path_join w (path_parent w path) (path_of_str w name)) = true ->
  target = path_resolve w (path_join w (path_parent w path) (path_of_str w name)) ->
  path_resolve w path ∉ po ->
  path ∉ ps ->
  update w fuel target
    (mkBundler iq po pos
       (pop_line_directives out ++ [line_directive 1 (relative_path w path)])
       ({[path]} ∪ ps) cc)
  = (Returned tt, mkBundler iq po pos out' ({[path]} ∪ ps) cc) ->
  update w (S fuel) path (mkBundler iq po pos out ps cc)
  = (Returned tt,
     mkBundler iq po pos
       ((pop_line_directives out' ++ [line_directive 2 (relative_path w path)])
        ++ map fst rest)
       ps cc).
Proof.
  intros Hviews Hinc Hplain Hex -> Hpo Hps Hrec.
  rewrite (update_enter fuel path (inc :: rest)) by assumption.
  unfold try_finally, bind at 1. destruct inc as [l u].
  cbn [process_lines]. unfold bind at 1.
  rewrite (include_line w (update w fuel) path 0 l u name initial_locals _ Hinc)
    by reflexivity.
  unfold bind at 1, _resolve at 1, bind at 1, get_self at 1.
  rewrite Hex. unfold ret at 1. unfold bind at 1. rewrite Hrec.
  unfold bind at 1, _line at 1, modify, set_result_lines, ret at 1.
  cbn [iquotes pragma_once pragma_once_system result_lines path_stack compiler].
  rewrite plain_code_lines by (auto; reflexivity).
  assert (He : forall v0, include_guard_macro v0 = None ->
               preprocess_if_nest v0 = 0%Z ->
               forall s, end_of_file path (length ((l, u) :: rest)) v0 s = (Returned tt, s)).
  { intros v0 H1 H2 s. unfold end_of_file. rewrite H1, H2. reflexivity. }
  rewrite He by (destruct rest; reflexivity).
  rewrite leave_file by exact Hps. reflexivity.
Qed.

End Files.

(** ** Nested includes *)

(** C4 (as the code has it).  [main] includes [a] on its first line and
    [a] includes [b] on its first line; the other lines of [a] and the
    lines of [b] are plain code.  From a fresh Bundler the output is
    [#line 1 "b"], the lines of [b], [#line 2 "a"], the other lines of [a],
    [#line 2 "main"] and the other lines of [main].  The directives
    [#line 1 "main"] and [#line 1 "a"] written at the entry of the two files
    are each popped by the next [#line] and are not in the output. *)
Theorem nested_include_output (w : World) (fuel : nat) (main a b : Path)
    (name_a name_b : string) (inc_a inc_b : bytes * bytes)
    (rest_main rest_a content_b : list (bytes * bytes))
    (iq : list Path) (cc : string) :
  line_views w iq cc main = inr (inc_a :: rest_main) ->
  line_views w iq cc a = inr (inc_b :: rest_a) ->
  line_views w iq cc b = inr content_b ->
  includes_header inc_a name_a = true ->
  includes_header inc_b name_b = true ->
  forallb plain_code rest_main = true ->
  forallb plain_code rest_a = true ->
  forallb plain_code content_b = true ->
  rest_a <> [] ->
  path_exists w (path_join w (path_parent w main) (path_of_str w name_a)) = true ->
  a = path_resolve w (path_join w (path_parent w main) (path_of_str w name_a)) ->
  path_exists w (path_join w (path_parent w a) (path_of_str w name_b)) = true ->
  b = path_resolve w (path_join w (path_parent w a) (path_of_str w name_b)) ->
  a <> main -> b <> main -> b <> a ->
  update w (S (S (S fuel))) main (init iq cc)
  = (Returned tt,
     mkBundler iq ∅ ∅
       ([line_directive 1 (relative_path w b)] ++ map fst content_b
        ++ [line_directive 2 (relative_path w a)] ++ map fst rest_a
        ++ [line_directive 2 (relative_path w main)] ++ map fst rest_main)
       ∅ cc).
Proof.
  intros Hmain Ha Hb Hinc_a Hinc_b Hpm Hpa Hpb Hne_a Hex_a Heq_a Hex_b Heq_b
    Ham Hbm Hba.
  pose proof (line_views_nonempty _ _ _ _ _ Hb) as Hne_b.
  set (Lm := line_directive 1 (relative_path w main)).
  set (La := line_directive 1 (relative_path w a)).
  pose proof (update_code_file w fuel b content_b iq ∅ ∅
                (pop_line_directives [Lm] ++ [La]) ({[a]} ∪ ({[main]} ∪ ∅)) cc
                Hb Hpb ltac:(set_solver) ltac:(set_solver)) as Hb_run.
  pose proof (update_including_file w (S fuel) a name_b b inc_b rest_a
                iq ∅ ∅ [Lm] _ ({[main]} ∪ ∅) cc
                Ha Hinc_b Hpa Hex_b Heq_b ltac:(set_solver) ltac:(set_solver)
                Hb_run) as Ha_run.
  pose proof (update_including_file w (S (S fuel)) main name_a a inc_a rest_main
                iq ∅ ∅ [] _ ∅ cc
                Hmain Hinc_a Hpm Hex_a Heq_a ltac:(set_solver) ltac:(set_solver)
                Ha_run) as Hmain_run.
  unfold init. rewrite Hmain_run. f_equal. f_equal.
  rewrite (pop_line_directives_plain _ rest_a Hpa Hne_a).
  rewrite (pop_line_directives_plain _ content_b Hpb Hne_b).
  unfold Lm, La.
  rewrite !pop_line_directive_only.
  cbn [pop_line_directives app]. repeat rewrite <- app_assoc. reflexivity.
Qed.

Lemma nested_include_output_witness :
  let w := MemFS.world MemFS.nested in
  let code (s : string) := (s +:+ MemFS.nl, s +:+ MemFS.nl) in
  update w 3 "main.cc" (init [] "g++")
  = (Returned tt,
     mkBundler [] ∅ ∅
       ([line_directive 1 (relative_path w "/w/b.h")] ++ map fst [code "int b;"]
        ++ [line_directive 2 (relative_path w "/w/a.h")] ++ map fst [code "int a;"]
        ++ [line_directive 2 (relative_path w "main.cc")]
        ++ map fst (@nil (bytes * bytes)))
       ∅ "g++").
Proof.
  intros w code.
  apply (nested_include_output w 0 "main.cc" "/w/a.h" "/w/b.h" "a.h" "b.h"
           (code ("#include " +:+ MemFS.quoted "a.h"))
           (code ("#include " +:+ MemFS.quoted "b.h"))
           (@nil (bytes * bytes)) [code "int a;"] [code "int b;"] [] "g++");
    try reflexivity; discriminate.
Defined.

(** C4, counterexample.  The specification lists [#line 1 "main.cc"] and
    [#line 1 "a.h"] before
    [#line 1 "b.h"].  On the files of the scenario ([main.cc] is
    [#include "a.h"], [a.h] is [#include "b.h" / int a;], [b.h] is [int b;])
    the bundle succeeds and its output is not that list: it
    starts at [#line 1 "b.h"]. *)
Lemma nested_include_coalesced :
  let w := MemFS.world MemFS.nested in
  let r := update w 3 "main.cc" (init [] "g++") in
  fst r = Returned tt
  /\ result_lines (snd r)
     <> [ line_directive 1 "main.cc"; line_directive 1 "a.h";
          line_directive 1 "b.h"; "int b;" +:+ MemFS.nl;
          line_directive 2 "a.h"; "int a;" +:+ MemFS.nl;
          line_directive 2 "main.cc" ]
  /\ result_lines (snd r)
     = [ line_directive 1 "b.h"; "int b;" +:+ MemFS.nl;
         line_directive 2 "a.h"; "int a;" +:+ MemFS.nl;
         line_directive 2 "main.cc" ].
Proof.
  split; [vm_compute; reflexivity |]. split.
  - vm_compute. discriminate.
  - vm_compute. reflexivity.
Qed.

(** ** System includes *)

Section Keeps.
Context (I : Bundler -> Prop).

Lemma keeps_ret {A} (a : A) : keeps I (ret a).
Proof. intros s a' s' Hs [= _ <-]. exact Hs. Qed.

Lemma keeps_raise {A} e : keeps I (@raise A e).
Proof. intros s a s' _ H. discriminate H. Qed.

Lemma keeps_get_self : keeps I get_self.
Proof. intros s a s' Hs [= _ <-]. exact Hs. Qed.

Lemma keeps_lift_sum {A} (x : exn + A) : keeps I (lift_sum x).
Proof. destruct x; [apply keeps_raise | apply keeps_ret]. Qed.

Lemma keeps_bind {A B} (m : M A) (k : A -> M B) :
  keeps I m -> (forall a, keeps I (k a)) -> keeps I (bind m k).
Proof.
  intros Hm Hk s b s' Hs H. apply bind_returned in H as (a & s1 & H1 & H2).
  eapply Hk; [eapply Hm; eassumption | exact H2].
Qed.

Lemma keeps_modify f : (forall s, I s -> I (f s)) -> keeps I (modify f).
Proof. intros Hf s a s' Hs [= _ <-]. apply Hf, Hs. Qed.

End Keeps.

Lemma standard_include_line_directive l :
  Bytes.startswith "#line " l = true -> standard_include l = None.
Proof.
  unfold Bytes.startswith. intros H.
  destruct (Bytes.strip_prefix "#line " l) as [t |] eqn:E; [| discriminate].
  apply strip_prefix_app in E. subst l. reflexivity.
Qed.

Lemma standard_includes_snoc out l :
  standard_includes (out ++ [l])
  = standard_includes out
    ++ match standard_include l with Some n => [n] | None => [] end.
Proof.
  unfold standard_includes. rewrite omap_app. cbn.
  destruct (standard_include l); reflexivity.
Qed.

Lemma standard_includes_pop out :
  standard_includes (pop_line_directives out) = standard_includes out.
Proof.
  induction out as [| x rest IH]; [reflexivity |].
  cbn [pop_line_directives].
  change (standard_includes (x :: rest))
    with (match standard_include x with
          | Some n => n :: standard_includes rest
          | None => standard_includes rest
          end).
  destruct (pop_line_directives rest) as [| y rest'] eqn:E.
  - rewrite <- IH.
    destruct (Bytes.startswith "#line " x) eqn:Hx.
    + rewrite (standard_include_line_directive x Hx). reflexivity.
    + cbn. destruct (standard_include x); reflexivity.
  - rewrite <- IH.
    change (standard_includes (x :: y :: rest'))
      with (match standard_include x with
            | Some n => n :: standard_includes (y :: rest')
            | None => standard_includes (y :: rest')
            end).
    reflexivity.
Qed.

Lemma umbrella_last_snoc names n :
  bits_stdcxx_h ∉ names -> umbrella_last (names ++ [n]).
Proof.
  intros Hbits before after Heq.
  destruct after as [| x after] using rev_ind; [reflexivity |].
  exfalso. apply Hbits.
  rewrite app_comm_cons, app_assoc in Heq.
  apply app_inj_tail in Heq as [-> _]. set_solver.
Qed.

Section Ledger.
Context (w : World) (iq : list Path) (cc : string).
Lemma ledger_result_lines f s :
  standard_includes (f (result_lines s)) = standard_includes (result_lines s) ->
  (ledger iq cc) s -> (ledger iq cc) (set_result_lines f s).
Proof.
  intros Hf [H1 H2 H3 H4 H5].
  split; unfold set_result_lines;
    cbn [iquotes compiler result_lines pragma_once_system];
    rewrite ?Hf; assumption.
Qed.

Lemma ledger_pragma_once f s : (ledger iq cc) s -> (ledger iq cc) (set_pragma_once f s).
Proof. intros [H1 H2 H3 H4 H5]. split; assumption. Qed.

Lemma ledger_path_stack f s : (ledger iq cc) s -> (ledger iq cc) (set_path_stack f s).
Proof. intros [H1 H2 H3 H4 H5]. split; assumption. Qed.

Lemma keeps_line n p : keeps (ledger iq cc) (_line w n p).
Proof.
  apply keeps_modify. intros s. apply ledger_result_lines.
  rewrite standard_includes_snoc, standard_includes_pop.
  rewrite standard_include_line_directive by reflexivity.
  apply app_nil_r.
Qed.

Lemma keeps_append_line l :
  standard_include l = None -> keeps (ledger iq cc) (append_line l).
Proof.
  intros Hl. apply keeps_modify. intros s. apply ledger_result_lines.
  rewrite standard_includes_snoc, Hl. apply app_nil_r.
Qed.

Lemma keeps_resolve p from : keeps (ledger iq cc) (_resolve w p from).
Proof.
  apply keeps_bind; [apply keeps_get_self | intros self].
  destruct (path_exists w _); [apply keeps_ret |].
  destruct (resolve_in w _ _); [apply keeps_ret | apply keeps_raise].
Qed.

(** the recorded emission of a standard header at top level *)
Lemma ledger_record line included s :
  (standard_include line = None \/ standard_include line = Some included) ->
  included ∉ pragma_once_system s ->
  bits_stdcxx_h ∉ pragma_once_system s ->
  (ledger iq cc) s ->
  (ledger iq cc) (set_result_lines (fun lines => lines ++ [line])
       (set_pragma_once_system (fun x => {[included]} ∪ x) s)).
Proof.
  intros Hline Hnew Hbits [H1 H2 H3 H4 H5].
  split; unfold set_result_lines, set_pragma_once_system;
    cbn [iquotes compiler result_lines pragma_once_system];
    try assumption; rewrite standard_includes_snoc.
  - destruct Hline as [-> | ->]; [rewrite app_nil_r; exact H3 |].
    apply NoDup_app. split; [exact H3 |]. split; [| apply NoDup_singleton].
    intros x Hx Hx'. apply list_elem_of_singleton in Hx'. subst x.
    apply Hnew, H4, Hx.
  - intros n Hn. apply elem_of_app in Hn as [Hn | Hn].
    + apply elem_of_union_r, H4, Hn.
    + destruct Hline as [Hl | Hl]; rewrite Hl in Hn.
      * apply elem_of_nil in Hn. contradiction.
      * apply list_elem_of_singleton in Hn. subst n. set_solver.
  - destruct Hline as [-> | ->]; [rewrite app_nil_r; exact H5 |].
    apply umbrella_last_snoc. intros Hin. apply Hbits, H4, Hin.
Qed.

Section Turn.
Context (rec : Path -> M unit).
Hypothesis rec_keeps : forall p, keeps (ledger iq cc) (rec p).
Context (path : Path) (i : nat) (line u : bytes).
Hypothesis visible : include_visible (line, u) = true.

Lemma hidden_line : standard_include u = None -> standard_include line = None.
Proof.
  intros Hu. unfold include_visible in visible. cbn [fst snd] in visible.
  rewrite Hu in visible. destruct (standard_include line); [discriminate | reflexivity].
Qed.

Lemma keeps_user_include t v :
  Re.include_system u = None ->
  keeps (ledger iq cc) (user_include w rec path i line u t v).
Proof.
  intros Hsys. unfold user_include.
  destruct (Re.include_user u) as [g |].
  - destruct (Bytes.decode g); [| apply keeps_raise].
    destruct (negb t); [apply keeps_raise |].
    apply keeps_bind; [apply keeps_resolve | intros target].
    apply keeps_bind; [apply rec_keeps | intros _].
    apply keeps_bind; [apply keeps_line | intros _]. apply keeps_ret.
  - unfold otherwise.
    apply keeps_bind; [| intros _; apply keeps_ret].
    apply keeps_append_line, hidden_line.
    unfold standard_include. rewrite Hsys. reflexivity.
Qed.

Lemma keeps_system_include t v :
  (forall n, standard_include u = Some n -> t = true) ->
  keeps (ledger iq cc) (system_include w rec path i line u t v).
Proof.
  intros Htop. unfold system_include.
  destruct (Re.include_system u) as [g |] eqn:Hsys;
    [| apply keeps_user_include; exact Hsys].
  destruct (Bytes.decode g) as [included |] eqn:Hdec; [| apply keeps_raise].
  intros s a s' Hs H. unfold bind at 1, get_self in H.
  apply bind_returned in H as ([] & s1 & H & [= _ <-]).
  destruct (bool_decide (included ∈ pragma_once_system s)) eqn:Hseen.
  { cbn [orb] in H. eapply keeps_line; eassumption. }
  destruct (bool_decide (bits_stdcxx_h ∈ pragma_once_system s)) eqn:Hbits.
  { cbn [orb] in H. eapply keeps_line; eassumption. }
  cbn [orb] in H.
  apply bool_decide_eq_false in Hseen. apply bool_decide_eq_false in Hbits.
  destruct (is_standard_library included) eqn:Hstd.
  - assert (Hu : standard_include u = Some included).
    { unfold standard_include. rewrite Hsys, Hdec, Hstd. reflexivity. }
    rewrite (Htop included Hu) in H. cbn [andb] in H.
    unfold bind, modify, append_line in H. inversion H; subst s1.
    apply ledger_record; try assumption.
    unfold include_visible in visible. cbn [fst snd] in visible.
    rewrite Hu in visible.
    destruct (standard_include line) as [n |]; [| left; reflexivity].
    apply String.eqb_eq in visible. subst n. right; reflexivity.
  - rewrite andb_false_r in H.
    eapply (keeps_append_line line); [| exact Hs | exact H].
    apply hidden_line. unfold standard_include. rewrite Hsys, Hdec, Hstd.
    reflexivity.
Qed.

Lemma keeps_pragma_once_line t v :
  (forall n, standard_include u = Some n -> t = true) ->
  keeps (ledger iq cc) (pragma_once_line w rec path i line u t v).
Proof.
  intros Htop.
  assert (Hblank : keeps (ledger iq cc) (append_line Bytes.newline))
    by (apply keeps_append_line; reflexivity).
  assert (Hpo : forall p, keeps (ledger iq cc) (modify (set_pragma_once (fun x => {[p]} ∪ x))))
    by (intros p; apply keeps_modify; intros s; apply ledger_pragma_once).
  assert (Hng : forall v0, keeps (ledger iq cc) (non_guard_line w rec path i line u t v0)).
  { intros v0. unfold non_guard_line.
    destruct (negb (Bytes.is_empty u)); [| apply keeps_system_include, Htop].
    cbv zeta. destruct (include_guard_endif_found _); [apply keeps_raise |].
    apply keeps_system_include, Htop. }
  assert (Hge : forall v0, keeps (ledger iq cc) (guard_endif w rec path i line u t v0)).
  { intros v0. unfold guard_endif. destruct (_ && Re.endif_directive u); [| apply Hng].
    apply keeps_bind; [exact Hblank | intros _; apply keeps_ret]. }
  assert (Hgd : forall v0, keeps (ledger iq cc) (guard_define w rec path i line u t v0)).
  { intros v0. unfold guard_define.
    destruct (include_guard_macro v0); [| apply Hge].
    destruct (include_guard_define_found v0); [apply Hge |].
    destruct (Re.define_macro u) as [g |]; [| apply Hge].
    destruct (Bytes.decode g) as [name |]; [| apply keeps_raise].
    destruct (String.eqb name s); [| apply Hge].
    apply keeps_bind; [apply Hpo | intros _].
    apply keeps_bind; [exact Hblank | intros _; apply keeps_ret]. }
  assert (Hgi : forall v0, keeps (ledger iq cc) (guard_ifndef w rec path i line u t v0)).
  { intros v0. unfold guard_ifndef.
    destruct (negb (pragma_once_found v0) && negb (non_guard_line_found v0));
      [| apply Hgd].
    destruct (include_guard_macro v0); [apply Hgd |].
    destruct (Re.ifndef_macro u) as [g |]; [| apply Hgd].
    destruct (Bytes.decode g); [| apply keeps_raise].
    apply keeps_bind; [exact Hblank | intros _; apply keeps_ret]. }
  unfold pragma_once_line.
  destruct (Re.pragma_once_directive line); [| apply Hgi].
  destruct (non_guard_line_found v); [apply keeps_raise |].
  destruct (bool_decide (include_guard_macro v ≠ None)); [apply keeps_raise |].
  apply keeps_bind; [apply keeps_get_self | intros self].
  destruct (bool_decide _); [apply keeps_ret |].
  apply keeps_bind; [apply Hpo | intros _].
  apply keeps_bind; [apply keeps_line | intros _; apply keeps_ret].
Qed.

Lemma keeps_process_line v :
  (forall n, standard_include u = Some n -> toplevel_at u v = true) ->
  keeps (ledger iq cc) (process_line w rec path i line u v).
Proof.
  intros Htop s a s' Hs H. unfold process_line in H.
  apply bind_returned in H as (nest & s1 & Hn & H).
  apply lift_sum_returned in Hn as [Hn ->].
  eapply keeps_pragma_once_line; [| exact Hs | exact H].
  intros n Hu. specialize (Htop n Hu). unfold toplevel_at in Htop.
  pose proof (nest_step_path_irrelevant path i EmptyString 0 u (preprocess_if_nest v)) as Hirr.
  rewrite Hn in Hirr.
  destruct (nest_step EmptyString 0 u (preprocess_if_nest v)) as [| nest0];
    [contradiction |].
  subst nest0. exact Htop.
Qed.

End Turn.

Lemma keeps_process_lines rec path views :
  (forall p, keeps (ledger iq cc) (rec p)) ->
  forall i v,
    includes_at_toplevel v views = true ->
    forallb include_visible views = true ->
    keeps (ledger iq cc) (process_lines w rec path i views v).
Proof.
  intros Hrec. induction views as [| [line u] rest IH]; intros i v Htop Hvis.
  - apply keeps_ret.
  - cbn [includes_at_toplevel] in Htop. cbn [forallb] in Hvis.
    apply andb_true_iff in Htop as [Htop1 Htop2].
    apply andb_true_iff in Hvis as [Hvis1 Hvis2].
    cbn [process_lines]. intros s a s' Hs H.
    apply bind_returned in H as (f & s1 & Hline & H).
    assert (Hs1 : (ledger iq cc) s1).
    { eapply keeps_process_line; [exact Hrec | exact Hvis1 | | exact Hs | exact Hline].
      intros n Hn. rewrite Hn in Htop1. exact Htop1. }
    destruct f as [v1 |].
    + pose proof (process_line_locals _ _ _ _ _ _ _ _ _ _ Hline) as <-.
      eapply IH; eassumption.
    + inversion H; subst. exact Hs1.
Qed.

Hypothesis well_placed :
  forall p views, line_views w iq cc p = inr views -> includes_well_placed views = true.

Lemma keeps_update fuel : forall path, keeps (ledger iq cc) (update w fuel path).
Proof.
  induction fuel as [| fuel IH]; intros path s a s' Hs H; [discriminate H |].
  cbn [update] in H. unfold bind at 1, get_self in H.
  destruct (bool_decide (path_resolve w path ∈ pragma_once s)).
  { inversion H; subst. exact Hs. }
  destruct (bool_decide (path ∈ path_stack s)); [discriminate H |].
  unfold bind at 1, modify at 1, try_finally in H.
  destruct (update_body w (update w fuel) path _) as [r s2] eqn:Hbody.
  assert (Hs2 : r = Returned a -> (ledger iq cc) s2).
  { intros ->. revert Hbody. unfold update_body.
    pose proof (ledger_path_stack (fun x => {[path]} ∪ x) s Hs) as Hs0.
    generalize dependent (set_path_stack (fun x => {[path]} ∪ x) s).
    intros s0 Hs0 Hbody. unfold bind at 1, get_self in Hbody.
    destruct Hs0 as [Hiq Hcc ? ? ?]. 
    assert (Hs0 : (ledger iq cc) s0) by (split; assumption).
    rewrite Hiq, Hcc in Hbody.
    destruct (line_views w iq cc path) as [e | views] eqn:Hviews;
      [discriminate Hbody |].
    specialize (well_placed path views Hviews).
    apply andb_true_iff in well_placed as [Htop Hvis].
    cbn [lift_sum] in Hbody. unfold bind at 1, ret at 1 in Hbody.
    apply bind_returned in Hbody as ([] & s3 & Hline & Hbody).
    apply bind_returned in Hbody as (f & s4 & Hloop & Hend).
    assert (Hs4 : (ledger iq cc) s4).
    { eapply keeps_process_lines; [exact IH | exact Htop | exact Hvis | | exact Hloop].
      eapply keeps_line; eassumption. }
    destruct f as [v |].
    - unfold end_of_file in Hend.
      destruct (negb _); [discriminate Hend |].
      destruct (_ && _); [discriminate Hend |].
      inversion Hend; subst. exact Hs4.
    - inversion Hend; subst. exact Hs4. }
  unfold path_stack_remove, bind, get_self, modify in H.
  destruct (bool_decide (path ∈ path_stack s2)); [| discriminate H].
  inversion H; subst. apply ledger_path_stack, Hs2. reflexivity.
Qed.

End Ledger.

Lemma ledger_init iq cc : ledger iq cc (init iq cc).
Proof.
  split; cbn; try reflexivity.
  - apply NoDup_nil_2.
  - intros n Hn. apply elem_of_nil in Hn. contradiction.
  - intros before after H. destruct before; discriminate H.
Qed.

(** C3 (as the code has it).  Take sources in which every line recognised
    as a standard-library [#include <H>] sits at top level (depth 0, or
    depth 1 under a guard candidate), and in which a raw line that reads as
    such an include is recognised as the same include on the comment-free
    view.  Then in every successful bundle the standard-library
    [#include <H>] lines of the output name distinct headers, each of them
    is recorded in [pragma_once_system], and no such line follows the one
    for [bits/stdc++.h]. *)
Theorem standard_includes_deduplicated (w : World) (fuel : nat) (root : Path)
    (iq : list Path) (cc : string) (self' : Bundler) :
  (forall p views,
      line_views w iq cc p = inr views -> includes_well_placed views = true) ->
  update w fuel root (init iq cc) = (Returned tt, self') ->
  NoDup (standard_includes (result_lines self'))
  /\ umbrella_last (standard_includes (result_lines self'))
  /\ (forall n, n ∈ standard_includes (result_lines self') ->
                n ∈ pragma_once_system self').
Proof.
  intros Hplaced Hrun.
  destruct (keeps_update w iq cc Hplaced fuel root _ _ _ (ledger_init iq cc) Hrun)
    as [_ _ H3 H4 H5].
  auto.
Qed.

Lemma toplevel_headers_well_placed p views :
  line_views (MemFS.world MemFS.toplevel_headers) [] "g++" p = inr views ->
  includes_well_placed views = true.
Proof.
  intros H. unfold line_views, get_uncommented_code in H.
  cbn [read_file preprocess path_resolve MemFS.world] in H.
  unfold MemFS.toplevel_headers in H. cbn [MemFS.lookup_file MemFS.plain] in H.
  replace (MemFS.absolute (MemFS.absolute p)) with (MemFS.absolute p) in H.
  - destruct (String.eqb "/w/main.cc" (MemFS.absolute p)); [| discriminate H].
    vm_compute in H. injection H as <-. vm_compute. reflexivity.
  - unfold MemFS.absolute.
    destruct (Bytes.startswith "/" p) eqn:E; [rewrite E; reflexivity |].
    reflexivity.
Qed.

Lemma standard_includes_deduplicated_witness :
  let w := MemFS.world MemFS.toplevel_headers in
  let self' := snd (update w 1 "main.cc" (init [] "g++")) in
  NoDup (standard_includes (result_lines self'))
  /\ umbrella_last (standard_includes (result_lines self'))
  /\ (forall n, n ∈ standard_includes (result_lines self') ->
                n ∈ pragma_once_system self').
Proof.
  intros w self'.
  apply (standard_includes_deduplicated w 1 "main.cc" [] "g++" self').
  - exact toplevel_headers_well_placed.
  - vm_compute. reflexivity.
Defined.

(** C3, counterexample.  The specification has no standard-library name
    twice in the output of any
    successful bundle.  [main.cc] is
    [#if X / #include <vector> / #endif / #include <vector>]: the include
    inside [#if] is emitted without being recorded, the one at top level is
    emitted and recorded, and the output names [vector] twice. *)
Lemma standard_include_repeated :
  let w := MemFS.world MemFS.repeated_vector in
  let r := update w 1 "main.cc" (init [] "g++") in
  fst r = Returned tt
  /\ result_lines (snd r)
     = [ line_directive 1 "main.cc"; "#if X" +:+ MemFS.nl;
         "#include <vector>" +:+ MemFS.nl; "#endif" +:+ MemFS.nl;
         "#include <vector>" +:+ MemFS.nl ]
  /\ standard_includes (result_lines (snd r)) = ["vector"; "vector"]
  /\ ~ NoDup (standard_includes (result_lines (snd r))).
Proof.
  repeat split; try (vm_compute; reflexivity).
  replace (standard_includes _) with ["vector"; "vector"] by (vm_compute; reflexivity).
  intros H. apply NoDup_cons in H as [H _]. apply H. set_solver.
Qed.

(** ** What [update] never changes *)

Section FrameUpdate.
Context (w : World).
Context (R : Bundler -> Bundler -> Prop).
Hypothesis R_refl : forall s, R s s.
Hypothesis R_trans : forall s1 s2 s3, R s1 s2 -> R s2 s3 -> R s1 s3.
Hypothesis R_result_lines : forall f s, R s (set_result_lines f s).
Hypothesis R_pragma_once : forall p s, R s (set_pragma_once (fun x => {[p]} ∪ x) s).
Hypothesis R_pragma_once_system :
  forall n s, R s (set_pragma_once_system (fun x => {[n]} ∪ x) s).
Hypothesis R_path_stack : forall f s, R s (set_path_stack f s).

Lemma preserves_update fuel : forall path, preserves R (update w fuel path).
Proof.
  induction fuel as [| fuel IH]; intros path s r s' H.
  - inversion H. apply R_refl.
  - cbn [update] in H. unfold bind at 1, get_self in H.
    destruct (bool_decide (path_resolve w path ∈ pragma_once s)).
    { inversion H. apply R_refl. }
    destruct (bool_decide (path ∈ path_stack s)).
    { inversion H. apply R_refl. }
    unfold bind, modify, try_finally in H.
    destruct (update_body w (update w fuel) path _) as [r2 s2] eqn:Hbody.
    apply (preserves_update_body w R R_refl R_trans R_result_lines R_pragma_once
             R_pragma_once_system (update w fuel) IH) in Hbody.
    assert (Hs2 : R s s2) by (eapply R_trans; [apply R_path_stack | exact Hbody]).
    unfold path_stack_remove, bind, get_self, modify in H.
    destruct (bool_decide (path ∈ path_stack s2)).
    + assert (s' = set_path_stack (fun x => x ∖ {[path]}) s2)
        by (destruct r2; inversion H; reflexivity).
      subst s'. eapply R_trans; [exact Hs2 | apply R_path_stack].
    + assert (s' = s2) by (destruct r2; inversion H; reflexivity).
      subst s'. exact Hs2.
Qed.

End FrameUpdate.

(** X1.  Whatever its outcome, a call of [update] leaves the search
    directories and the compiler of the Bundler as they were, and forgets
    nothing: every path registered in [pragma_once] and every header
    recorded in [pragma_once_system] before the call is still there after
    it. *)
Theorem update_grows (w : World) (fuel : nat) (path : Path) (self : Bundler) :
  grows self (snd (update w fuel path self)).
Proof.
  destruct (update w fuel path self) as [r s'] eqn:H.
  revert H. apply preserves_update; unfold grows.
  - intros s. repeat split; reflexivity.
  - intros s1 s2 s3 (H1 & H2 & H3 & H4) (H1' & H2' & H3' & H4').
    repeat split; [congruence | congruence | set_solver | set_solver].
  - intros f s. repeat split; reflexivity.
  - intros p s. repeat split; cbn; set_solver.
  - intros n s. repeat split; cbn; set_solver.
  - intros f s. repeat split; reflexivity.
Qed.

(** ** [#line] directives at the tail of the output *)

Lemma pop_line_directives_idem out :
  pop_line_directives (pop_line_directives out) = pop_line_directives out.
Proof.
  induction out as [| x rest IH]; [reflexivity |].
  cbn [pop_line_directives].
  destruct (pop_line_directives rest) as [| y rest'] eqn:E.
  - destruct (Bytes.startswith "#line " x) eqn:Hx; [reflexivity |].
    cbn. rewrite Hx. reflexivity.
  - cbn [pop_line_directives] in IH |- *. rewrite IH. reflexivity.
Qed.

Lemma pop_line_directives_split out :
  exists dropped,
    out = pop_line_directives out ++ dropped
    /\ Forall (fun l => Bytes.startswith "#line " l = true) dropped.
Proof.
  induction out as [| x rest (dropped & Heq & Hall)].
  - exists []. split; [reflexivity | constructor].
  - cbn [pop_line_directives].
    destruct (pop_line_directives rest) as [| y rest'] eqn:E.
    + destruct (Bytes.startswith "#line " x) eqn:Hx.
      * exists (x :: dropped). cbn in Heq. subst rest.
        split; [reflexivity | constructor; assumption].
      * exists dropped. cbn in Heq |- *. subst rest. split; [reflexivity | assumption].
    + exists dropped. rewrite Heq at 1. split; [reflexivity | assumption].
Qed.

Lemma pop_line_directives_last out l :
  last (pop_line_directives out) = Some l -> Bytes.startswith "#line " l = false.
Proof.
  revert l. induction out as [| x rest IH]; intros l; [discriminate |].
  cbn [pop_line_directives].
  destruct (pop_line_directives rest) as [| y rest'] eqn:E.
  - destruct (Bytes.startswith "#line " x) eqn:Hx; [discriminate |].
    cbn. intros [= <-]. exact Hx.
  - intros H. apply IH. rewrite <- H. reflexivity.
Qed.

(** X2.  Of [#line] directives written one after the other only the last
    one stays: [_line] twice is [_line] once.  After [_line] the output is
    the old output without the lines at its tail that start with [#line ],
    followed by the new directive, and the line before the directive, when
    there is one, does not start with [#line ]. *)
Theorem line_coalesces (w : World) (n m : nat) (p q : Path) (self : Bundler) :
  (_line w n p ;; _line w m q)%bundler self = _line w m q self
  /\ exists kept dropped,
       result_lines (snd (_line w n p self))
       = kept ++ [line_directive n (relative_path w p)]
       /\ result_lines self = kept ++ dropped
       /\ Forall (fun l => Bytes.startswith "#line " l = true) dropped
       /\ forall l, last kept = Some l -> Bytes.startswith "#line " l = false.
Proof.
  split.
  - unfold bind, _line, modify, set_result_lines. cbn. do 2 f_equal.
    rewrite pop_line_directives_drop, pop_line_directives_idem. reflexivity.
  - destruct (pop_line_directives_split (result_lines self)) as (dropped & Heq & Hall).
    exists (pop_line_directives (result_lines self)), dropped.
    split; [reflexivity |]. split; [exact Heq |]. split; [exact Hall |].
    apply pop_line_directives_last.
Qed.

(** ** The comment-free text *)

Lemma splitlines_step c r :
  Bytes.splitlines (String c r)
  = if Ascii.eqb c Bytes.LF then String c EmptyString :: Bytes.splitlines r
    else if Ascii.eqb c Bytes.CR then
      match r with
      | String c' r' =>
          if Ascii.eqb c' Bytes.LF
          then String c (String c' EmptyString) :: Bytes.splitlines r'
          else String c EmptyString :: Bytes.splitlines r
      | EmptyString => [String c EmptyString]
      end
    else
      match Bytes.splitlines r with
      | [] => [String c EmptyString]
      | l :: ls => String c l :: ls
      end.
Proof. reflexivity. Qed.

Lemma join_cons l ls : Bytes.join (l :: ls) = l +:+ Bytes.join ls.
Proof. reflexivity. Qed.

Lemma join_splitlines_both s :
  Bytes.join (Bytes.splitlines s) = s
  /\ forall c, Bytes.join (Bytes.splitlines (String c s)) = String c s.
Proof.
  induction s as [| c' r [IH1 IH2]].
  - split; [reflexivity |]. intros c. rewrite splitlines_step.
    destruct (Ascii.eqb c Bytes.LF); [reflexivity |].
    destruct (Ascii.eqb c Bytes.CR); reflexivity.
  - split; [apply IH2 |]. intros c.
    rewrite splitlines_step.
    destruct (Ascii.eqb c Bytes.LF).
    { rewrite join_cons, IH2. reflexivity. }
    destruct (Ascii.eqb c Bytes.CR).
    { destruct (Ascii.eqb c' Bytes.LF).
      - rewrite join_cons, IH1. reflexivity.
      - rewrite join_cons, IH2. reflexivity. }
    specialize (IH2 c').
    destruct (Bytes.splitlines (String c' r)) as [| l ls].
    + discriminate IH2.
    + rewrite join_cons in *.
      change (String c (l +:+ Bytes.join ls) = String c (String c' r)).
      rewrite IH2. reflexivity.
Qed.

Lemma join_splitlines s : Bytes.join (Bytes.splitlines s) = s.
Proof. apply join_splitlines_both. Qed.

Lemma uncomment_plain lines ls :
  Forall (fun l => Re.linemarker (Bytes.rstrip l) = None) ls ->
  fold_left uncomment_step ls lines = lines ++ ls.
Proof.
  intros H. revert lines. induction H as [| l ls Hl _ IH]; intros lines; cbn.
  - rewrite app_nil_r. reflexivity.
  - rewrite IH. unfold uncomment_step. rewrite Hl. rewrite <- app_assoc. reflexivity.
Qed.

(** X3.  When the preprocessor prints a linemarker for line 1 (or 0) and
    after it no other linemarker, [get_uncommented_code] returns what was
    printed without its first line.  When it prints no linemarker at all,
    [get_uncommented_code] returns what was printed. *)
Theorem uncommented_code_verbatim (w : World) (path : Path) (iq : list Path)
    (cc : string) (printed : bytes) :
  preprocess w (path_resolve w path)
    (flat_map (fun d => ["-I"; path_resolve w d]) iq) cc = inr printed ->
  (Forall (fun l => Re.linemarker (Bytes.rstrip l) = None)
     (Bytes.splitlines printed) ->
   get_uncommented_code w path iq cc = inr printed)
  /\ (forall marker rest n,
        Bytes.splitlines printed = marker :: rest ->
        Re.linemarker (Bytes.rstrip marker) = Some n -> n <= 1 ->
        Forall (fun l => Re.linemarker (Bytes.rstrip l) = None) rest ->
        printed = marker +:+ Bytes.join rest
        /\ get_uncommented_code w path iq cc = inr (Bytes.join rest)).
Proof.
  intros Hprinted. unfold get_uncommented_code. rewrite Hprinted. split.
  - intros Hplain. rewrite (uncomment_plain [] _ Hplain). cbn [app].
    rewrite join_splitlines. reflexivity.
  - intros marker rest n Hsplit Hmarker Hn Hplain. split.
    + rewrite <- (join_splitlines printed) at 1. rewrite Hsplit. reflexivity.
    + rewrite Hsplit. cbn [fold_left]. unfold uncomment_step at 2.
      rewrite Hmarker. cbn [length app].
      replace (n - (0 + 1)) with 0 by lia. cbn [repeat].
      rewrite (uncomment_plain [] _ Hplain). reflexivity.
Qed.

Lemma uncommented_code_verbatim_witness :
  let w := MemFS.world MemFS.nested in
  let printed := MemFS.cpp_plain "/w/b.h" (MemFS.text ["int b;"]) in
  printed = ("# 1 " +:+ MemFS.quoted "/w/b.h" +:+ MemFS.nl)
            +:+ Bytes.join ["int b;" +:+ MemFS.nl]
  /\ get_uncommented_code w "b.h" [] "g++" = inr (Bytes.join ["int b;" +:+ MemFS.nl]).
Proof.
  intros w printed.
  destruct (uncommented_code_verbatim w "b.h" [] "g++" printed eq_refl) as [_ H].
  apply (H ("# 1 " +:+ MemFS.quoted "/w/b.h" +:+ MemFS.nl)
           ["int b;" +:+ MemFS.nl] 1).
  - reflexivity.
  - reflexivity.
  - lia.
  - repeat constructor.
Defined.

(** X4.  A linemarker [# n "file"] met while the comment-free text has
    fewer than [n] lines puts the line printed after it on line [n]: blank
    lines fill the gap, and the linemarker itself is not kept. *)
Theorem linemarker_aligns (lines : list bytes) (marker l : bytes) (n : nat) :
  Re.linemarker (Bytes.rstrip marker) = Some n ->
  Re.linemarker (Bytes.rstrip l) = None ->
  length lines < n ->
  fold_left uncomment_step [marker; l] lines
  = lines ++ repeat Bytes.newline (n - 1 - length lines) ++ [l]
  /\ fold_left uncomment_step [marker; l] lines !! (n - 1) = Some l.
Proof.
  intros Hm Hl Hlen.
  assert (Heq : fold_left uncomment_step [marker; l] lines
                = lines ++ repeat Bytes.newline (n - 1 - length lines) ++ [l]).
  { cbn [fold_left]. unfold uncomment_step. rewrite Hm, Hl.
    replace (n - (length lines + 1)) with (n - 1 - length lines) by lia.
    rewrite <- app_assoc. reflexivity. }
  split; [exact Heq |]. rewrite Heq.
  rewrite app_assoc. rewrite lookup_app_r; rewrite length_app, repeat_length.
  - replace (n - 1 - (length lines + (n - 1 - length lines))) with 0 by lia.
    reflexivity.
  - lia.
Qed.

Lemma linemarker_aligns_witness :
  let marker := "# 3 " +:+ MemFS.quoted "a.h" +:+ MemFS.nl in
  let l := "int x;" +:+ MemFS.nl in
  fold_left uncomment_step [marker; l] ["// first" +:+ MemFS.nl]
  = ["// first" +:+ MemFS.nl] ++ repeat Bytes.newline (3 - 1 - 1) ++ [l]
  /\ fold_left uncomment_step [marker; l] ["// first" +:+ MemFS.nl] !! (3 - 1) = Some l.
Proof.
  intros marker l.
  apply (linemarker_aligns ["// first" +:+ MemFS.nl] marker l 3).
  - reflexivity.
  - reflexivity.
  - cbn. lia.
Defined.

(** X5.  The loop of [get_uncommented_code] drops the linemarkers and
    nothing else: the lines it keeps are, in their order, the printed lines
    that are not linemarkers, with blank lines between them; the text never
    gets shorter along the way. *)
Theorem uncomment_keeps_lines (printed_lines lines : list bytes) :
  sublist (lines ++ filter (fun l => Re.linemarker (Bytes.rstrip l) = None) printed_lines)
          (fold_left uncomment_step printed_lines lines)
  /\ length lines <= length (fold_left uncomment_step printed_lines lines)
  /\ Forall (fun l => l ∈ lines \/ l = Bytes.newline
                      \/ (l ∈ printed_lines /\ Re.linemarker (Bytes.rstrip l) = None))
            (fold_left uncomment_step printed_lines lines).
Proof.
  revert lines. induction printed_lines as [| l ls IH]; intros lines.
  - cbn. rewrite app_nil_r. split; [reflexivity |]. split; [lia |].
    apply Forall_forall. intros x Hx. left. exact Hx.
  - cbn [fold_left]. destruct (IH (uncomment_step lines l)) as (IH1 & IH2 & IH3).
    unfold uncomment_step in *.
    destruct (Re.linemarker (Bytes.rstrip l)) as [n |] eqn:Hl.
    + rewrite filter_cons_False by congruence. split; [| split].
      * etransitivity; [| exact IH1]. rewrite <- app_assoc.
        apply sublist_app; [reflexivity |]. apply sublist_inserts_l. reflexivity.
      * rewrite length_app in IH2. lia.
      * eapply Forall_impl; [exact IH3 |]. cbn. intros x [Hx | [Hx | [Hx1 Hx2]]].
        -- apply elem_of_app in Hx as [Hx | Hx]; [left; exact Hx |].
           right; left. apply list_elem_of_In, repeat_spec in Hx. exact Hx.
        -- right; left; exact Hx.
        -- right; right. split; [right; exact Hx1 | exact Hx2].
    + rewrite filter_cons_True by exact Hl. split; [| split].
      * etransitivity; [| exact IH1]. rewrite <- app_assoc. reflexivity.
      * rewrite length_app in IH2. lia.
      * eapply Forall_impl; [exact IH3 |]. cbn. intros x [Hx | [Hx | [Hx1 Hx2]]].
        -- apply elem_of_app in Hx as [Hx | Hx]; [left; exact Hx |].
           apply list_elem_of_singleton in Hx. subst x.
           right; right. split; [left | exact Hl].
        -- right; left; exact Hx.
        -- right; right. split; [right; exact Hx1 | exact Hx2].
Qed.

(** ** A file without directives *)

Lemma line_views_raw w iq cc path code views :
  read_file w path = Some code ->
  line_views w iq cc path = inr views ->
  map fst views = raw_lines code.
Proof.
  intros Hread. unfold line_views. rewrite Hread.
  destruct (get_uncommented_code w path iq cc) as [| printed]; [discriminate |].
  destruct (_ =? _)%nat eqn:E; [| discriminate].
  apply Nat.eqb_eq in E. intros [= <-]. apply map_fst_combine, E.
Qed.

(** X6.  A file in which no line is a preprocessor directive is bundled as
    it is: from a fresh Bundler, [update] returns normally and [get] gives
    the directive [#line 1] for the file followed by the bytes of the file,
    with a final newline added when the file lacks one. *)
Theorem code_file_verbatim (w : World) (fuel : nat) (path : Path) (code : bytes)
    (views : list (bytes * bytes)) (iq : list Path) (cc : string) :
  read_file w path = Some code ->
  line_views w iq cc path = inr views ->
  forallb plain_code views = true ->
  fst (update w (S fuel) path (init iq cc)) = Returned tt
  /\ get (snd (update w (S fuel) path (init iq cc)))
     = line_directive 1 (relative_path w path)
       +:+ (if Bytes.ends_with_newline code then code else code +:+ Bytes.newline).
Proof.
  intros Hread Hviews Hplain. unfold init.
  rewrite (update_code_file w fuel path views iq ∅ ∅ [] ∅ cc Hviews Hplain)
    by set_solver.
  split; [reflexivity |]. unfold get. cbn [snd result_lines pop_line_directives app].
  rewrite (line_views_raw w iq cc path code views Hread Hviews).
  rewrite join_cons. unfold raw_lines. rewrite join_splitlines. reflexivity.
Qed.

Lemma code_file_verbatim_witness :
  let w := MemFS.world MemFS.nested in
  fst (update w 1 "b.h" (init [] "g++")) = Returned tt
  /\ get (snd (update w 1 "b.h" (init [] "g++")))
     = line_directive 1 (relative_path w "b.h")
       +:+ (if Bytes.ends_with_newline (MemFS.text ["int b;"])
            then MemFS.text ["int b;"]
            else MemFS.text ["int b;"] +:+ Bytes.newline).
Proof.
  intros w.
  apply (code_file_verbatim w 0 "b.h" (MemFS.text ["int b;"])
           [("int b;" +:+ MemFS.nl, "int b;" +:+ MemFS.nl)] [] "g++");
    reflexivity.
Defined.

(** ** The guard state at the end of a file *)

Lemma spaces_word_space r g :
  Re.spaces_word r = Some g -> exists c r', r = String c r' /\ Bytes.is_space c = true.
Proof.
  unfold Re.spaces_word. destruct r as [| c r']; [discriminate |].
  destruct (Bytes.is_space c) eqn:E; [| discriminate]. eauto.
Qed.

Lemma ifndef_macro_if u g : Re.ifndef_macro u = Some g -> Re.if_directive u = true.
Proof.
  unfold Re.ifndef_macro, Re.if_directive.
  destruct (Re.directive u) as [r |]; [| discriminate].
  destruct (Bytes.strip_prefix "ifndef" r) as [r' |] eqn:E; [| discriminate].
  intros H. apply spaces_word_space in H as (c & r'' & -> & Hc).
  apply strip_prefix_app in E. subst r.
  unfold Re.keyword_space.
  replace (Bytes.strip_prefix "ifndef" ("ifndef" +:+ String c r''))
    with (Some (String c r'')) by reflexivity.
  rewrite Hc. apply orb_true_r.
Qed.

Lemma define_macro_not_endif u g :
  Re.define_macro u = Some g -> Re.endif_directive u = false.
Proof.
  unfold Re.define_macro, Re.endif_directive.
  destruct (Re.directive u) as [r |]; [| discriminate].
  destruct (Bytes.strip_prefix "define" r) as [r' |] eqn:E; [| discriminate].
  apply strip_prefix_app in E. subst r. reflexivity.
Qed.

Section GuardState.
Context (w : World) (rec : Path -> M unit) (path : Path) (i : nat).
Context (line u : bytes).

Lemma non_guard_line_guard t v :
  guard_entered u v ->
  (include_guard_define_found v && (preprocess_if_nest v =? 0)%Z
   && negb (include_guard_endif_found v) && Re.endif_directive u) = false ->
  continues_with guard_open_inside (non_guard_line w rec path i line u t v).
Proof.
  intros (Hnest & Hopen & _) Hnot s v' s' H.
  apply non_guard_line_locals in H. subst v'.
  unfold after_non_guard_line, guard_open_inside.
  destruct (Bytes.is_empty u) eqn:Hu; cbn [negb].
  - destruct u; [| discriminate Hu]. split; [exact Hnest |].
    intros Hm He. destruct (Hopen Hm He) as [H | H]; [exact H | discriminate H].
  - cbv zeta.
    destruct (bool_decide (include_guard_macro (set_non_guard_line_found true v) ≠ None)
              && negb (include_guard_define_found (set_non_guard_line_found true v)))
      eqn:Hretract.
    + split; [exact Hnest |]. intros Hm. contradiction Hm. reflexivity.
    + change ((0 <= preprocess_if_nest v)%Z
              /\ (include_guard_macro v <> None ->
                  include_guard_endif_found v = false ->
                  (1 <= preprocess_if_nest v)%Z)).
      change (bool_decide (include_guard_macro v ≠ None)
              && negb (include_guard_define_found v) = false) in Hretract.
      split; [exact Hnest |]. intros Hm He.
      rewrite bool_decide_eq_true_2 in Hretract by exact Hm.
      cbn [andb] in Hretract. apply negb_false_iff in Hretract.
      rewrite Hretract, He in Hnot. cbn [andb negb] in Hnot.
      destruct (Hopen Hm He) as [H | H]; [exact H |].
      rewrite H in Hnot.
      destruct (Z.eqb_spec (preprocess_if_nest v) 0) as [Hz | Hz]; [| lia].
      discriminate Hnot.
Qed.

Lemma pragma_once_line_guard t v :
  guard_entered u v ->
  continues_with guard_open_inside (pragma_once_line w rec path i line u t v).
Proof.
  intros Hv. pose proof Hv as (Hnest & Hopen & Hif).
  unfold pragma_once_line.
  destruct (Re.pragma_once_directive line).
  { destruct (non_guard_line_found v); [apply continues_raise |].
    destruct (bool_decide (include_guard_macro v ≠ None)) eqn:Hm;
      [apply continues_raise |].
    apply bool_decide_eq_false in Hm.
    apply continues_bind. intros self.
    destruct (bool_decide _); [apply continues_return |].
    apply continues_bind. intros _. apply continues_bind. intros _.
    apply continues_ret. split; [exact Hnest |].
    intros Hm'. contradiction. }
  assert (Hge : continues_with guard_open_inside (guard_endif w rec path i line u t v)).
  { unfold guard_endif.
    destruct (include_guard_define_found v && (preprocess_if_nest v =? 0)%Z
              && negb (include_guard_endif_found v) && Re.endif_directive u) eqn:Hc.
    - apply continues_bind. intros _. apply continues_ret.
      split; [exact Hnest |]. intros _ He. discriminate He.
    - apply non_guard_line_guard; assumption. }
  assert (Hgd : continues_with guard_open_inside (guard_define w rec path i line u t v)).
  { unfold guard_define.
    destruct (include_guard_macro v) as [macro |] eqn:Hm; [| exact Hge].
    destruct (include_guard_define_found v); [exact Hge |].
    destruct (Re.define_macro u) as [g |] eqn:Hd; [| exact Hge].
    destruct (Bytes.decode g) as [name |]; [| apply continues_raise].
    destruct (String.eqb name macro); [| exact Hge].
    apply continues_bind. intros _. apply continues_bind. intros _.
    apply continues_ret. split; [exact Hnest |].
    change (include_guard_macro v <> None -> include_guard_endif_found v = false ->
            (1 <= preprocess_if_nest v)%Z).
    intros Hm' He.
    destruct (Hopen ltac:(discriminate) He) as [H | H]; [exact H |].
    rewrite (define_macro_not_endif u g Hd) in H. discriminate H. }
  unfold guard_ifndef.
  destruct (negb (pragma_once_found v) && negb (non_guard_line_found v)); [| exact Hgd].
  destruct (include_guard_macro v); [exact Hgd |].
  destruct (Re.ifndef_macro u) as [g |] eqn:Hg; [| exact Hgd].
  destruct (Bytes.decode g); [| apply continues_raise].
  apply continues_bind. intros _. apply continues_ret.
  split; [exact Hnest |]. intros _ _. apply Hif, (ifndef_macro_if u g Hg).
Qed.

Lemma process_line_guard v :
  guard_open_inside v ->
  continues_with guard_open_inside (process_line w rec path i line u v).
Proof.
  intros (Hnest & Hopen) s v' s' H. unfold process_line in H.
  apply bind_returned in H as (nest & s1 & Hn & H).
  apply lift_sum_returned in Hn as [Hn ->].
  eapply pragma_once_line_guard; [| exact H].
  pose proof (nest_step_nonneg _ _ _ _ _ Hn Hnest) as Hnest'.
  pose proof (nest_step_delta _ _ _ _ _ Hn) as Hdelta.
  unfold nest_delta in Hdelta.
  split; [exact Hnest' |]. split.
  - change (include_guard_macro v <> None -> include_guard_endif_found v = false ->
            (1 <= nest)%Z \/ Re.endif_directive u = true).
    intros Hm He. specialize (Hopen Hm He).
    destruct (Re.endif_directive u); [right; reflexivity | left].
    destruct (Re.if_directive u); lia.
  - change (Re.if_directive u = true -> (1 <= nest)%Z).
    intros Hif. rewrite Hif, (if_not_endif u Hif) in Hdelta. lia.
Qed.

End GuardState.

Lemma process_lines_guard w rec path views :
  forall i v,
    guard_open_inside v ->
    continues_with guard_open_inside (process_lines w rec path i views v).
Proof.
  induction views as [| [line u] rest IH]; intros i v Hv s v' s' H.
  - cbn in H. inversion H; subst. exact Hv.
  - cbn [process_lines] in H.
    apply bind_returned in H as (f & s1 & Hline & H).
    destruct f as [v1 |]; [| discriminate H].
    eapply IH; [| exact H].
    eapply process_line_guard; [exact Hv | exact Hline].
Qed.

(** X7.  When the loop over a file runs to its end, the checks after it
    depend on the depth counter alone: they pass when it is zero and raise
    "unmatched #if / #ifdef / #ifndef" otherwise.  The second check, for an
    [#ifndef] guard left open, never fires: a guard candidate that is still
    open keeps the counter above zero. *)
Theorem end_of_file_by_depth (w : World) (rec : Path -> M unit) (path : Path)
    (views : list (bytes * bytes)) (last : nat) (s s' : Bundler) (v : Locals) :
  process_lines w rec path 0 views initial_locals s = (Returned (Continue v), s') ->
  (0 <= preprocess_if_nest v)%Z
  /\ end_of_file path last v s'
     = if (preprocess_if_nest v =? 0)%Z then (Returned tt, s')
       else (Raised (BundleErrorAt path (Z.of_nat last)
                       "unmatched #if / #ifdef / #ifndef"), s').
Proof.
  intros H.
  assert (Hinit : guard_open_inside initial_locals).
  { split; [cbn; lia |]. intros Hm. contradiction Hm. reflexivity. }
  destruct (process_lines_guard w rec path views 0 initial_locals Hinit _ _ _ H)
    as [Hnest Hopen].
  split; [exact Hnest |]. unfold end_of_file.
  destruct (Z.eqb_spec (preprocess_if_nest v) 0) as [Hz | Hz]; [| reflexivity].
  cbn [negb].
  destruct (bool_decide (include_guard_macro v ≠ None)) eqn:Hm; [| reflexivity].
  apply bool_decide_eq_true in Hm.
  destruct (include_guard_endif_found v) eqn:He; [reflexivity |].
  specialize (Hopen Hm eq_refl). lia.
Qed.

Lemma end_of_file_by_depth_witness :
  let w := MemFS.world MemFS.repeated_vector in
  let views := [("#if X" +:+ MemFS.nl, "#if X" +:+ MemFS.nl);
                ("int x;" +:+ MemFS.nl, "int x;" +:+ MemFS.nl)] in
  let r := process_lines w (update w 0) "main.cc" 0 views initial_locals (init [] "g++") in
  exists v s',
    r = (Returned (Continue v), s')
    /\ (0 <= preprocess_if_nest v)%Z
    /\ end_of_file "main.cc" 2 v s'
       = if (preprocess_if_nest v =? 0)%Z then (Returned tt, s')
         else (Raised (BundleErrorAt "main.cc" (Z.of_nat 2)
                         "unmatched #if / #ifdef / #ifndef"), s').
Proof.
  intros w views r.
  assert (H : r = (Returned (Continue (mkLocals true false None false false 1)),
                   mkBundler [] ∅ ∅ ["#if X" +:+ MemFS.nl; "int x;" +:+ MemFS.nl] ∅ "g++"))
    by (vm_compute; reflexivity).
  eexists _, _. split; [exact H |].
  exact (end_of_file_by_depth w (update w 0) "main.cc" views 2 _ _ _ H).
Defined.

(** ** Include guards *)

Lemma directive_prefix_excludes k r u :
  Re.directive u = Some (k +:+ r) ->
  k = "define" \/ k = "endif" ->
  Re.if_directive u = false /\ Re.else_directive u = false
  /\ Re.ifndef_macro u = None
  /\ Re.include_system u = None /\ Re.include_user u = None
  /\ Bytes.is_empty u = false.
Proof.
  intros Hd Hk.
  unfold Re.if_directive, Re.else_directive, Re.ifndef_macro,
    Re.include_system, Re.include_user, Re.include_between. rewrite Hd.
  assert (Bytes.is_empty u = false) by (destruct u; [discriminate Hd | reflexivity]).
  destruct Hk as [-> | ->]; repeat split; try reflexivity; assumption.
Qed.

Lemma define_macro_directive u g :
  Re.define_macro u = Some g -> exists r, Re.directive u = Some ("define" +:+ r).
Proof.
  unfold Re.define_macro. destruct (Re.directive u) as [r |]; [| discriminate].
  destruct (Bytes.strip_prefix "define" r) as [r' |] eqn:E; [| discriminate].
  apply strip_prefix_app in E. subst r. eauto.
Qed.

Lemma endif_directive_directive u :
  Re.endif_directive u = true -> exists r, Re.directive u = Some ("endif" +:+ r).
Proof.
  unfold Re.endif_directive, Bytes.startswith.
  destruct (Re.directive u) as [r |]; [| discriminate].
  destruct (Bytes.strip_prefix "endif" r) as [r' |] eqn:E; [| discriminate].
  apply strip_prefix_app in E. subst r. eauto.
Qed.

Lemma endif_not_define u : Re.endif_directive u = true -> Re.define_macro u = None.
Proof.
  intros H. apply endif_directive_directive in H as [r H].
  unfold Re.define_macro. rewrite H. reflexivity.
Qed.

Section Guard.
Context (w : World) (rec : Path -> M unit) (path : Path).

(** the turn at the [#ifndef] of a guard *)
Lemma guard_ifndef_line i line u g macro iq po pos out ps cc :
  Re.pragma_once_directive line = false ->
  Re.ifndef_macro u = Some g ->
  Bytes.decode g = Some macro ->
  process_line w rec path i line u initial_locals (mkBundler iq po pos out ps cc)
  = (Returned (Continue (mkLocals false false (Some macro) false false 1)),
     mkBundler iq po pos (out ++ [Bytes.newline]) ps cc).
Proof.
  intros Hp Hg Hdec. pose proof (ifndef_macro_if u g Hg) as Hif.
  unfold process_line, nest_step.
  rewrite Hif, (if_not_else u Hif), (if_not_endif u Hif).
  cbn [andb lift_sum preprocess_if_nest initial_locals].
  unfold bind at 1, ret at 1. unfold pragma_once_line. rewrite Hp.
  unfold guard_ifndef. cbn. rewrite Hg, Hdec. reflexivity.
Qed.

(** the turn at the [#define] of a guard *)
Lemma guard_define_line i line u g macro iq po pos out ps cc :
  Re.pragma_once_directive line = false ->
  Re.define_macro u = Some g ->
  Bytes.decode g = Some macro ->
  process_line w rec path i line u (mkLocals false false (Some macro) false false 1)
    (mkBundler iq po pos out ps cc)
  = (Returned (Continue (mkLocals false false (Some macro) true false 1)),
     mkBundler iq ({[path_resolve w path]} ∪ po) pos (out ++ [Bytes.newline]) ps cc).
Proof.
  intros Hp Hg Hdec.
  destruct (define_macro_directive u g Hg) as [r Hd].
  destruct (directive_prefix_excludes "define" r u Hd ltac:(left; reflexivity))
    as (Hif & Helse & Hifndef & _).
  unfold process_line, nest_step.
  rewrite Hif, Helse, (define_macro_not_endif u g Hg).
  cbn [andb lift_sum preprocess_if_nest].
  unfold bind at 1, ret at 1. unfold pragma_once_line. rewrite Hp.
  unfold guard_ifndef, guard_define. cbn. rewrite Hg, Hdec, String.eqb_refl.
  reflexivity.
Qed.

(** a line of plain code inside an accepted guard *)
Lemma guarded_code_line i line u v s :
  plain_code (line, u) = true ->
  include_guard_define_found v = true ->
  include_guard_endif_found v = false ->
  process_line w rec path i line u v s
  = (Returned (Continue (set_non_guard_line_found true v)),
     set_result_lines (fun lines => lines ++ [line]) s).
Proof.
  unfold plain_code. cbn [fst snd]. intros Hp Hdef Hend.
  destruct (Re.directive line) eqn:Hl; [discriminate |].
  destruct (Re.directive u) eqn:Hu; [discriminate |].
  apply negb_true_iff in Hp.
  destruct (no_directive u Hu) as (Hif & Helse & Hendif & Hifndef & Hdefine & _ & Hsys & Husr).
  destruct (no_directive line Hl) as (_ & _ & _ & _ & _ & Hpragma & _).
  unfold process_line, nest_step. rewrite Hif, Helse, Hendif. cbn [andb lift_sum].
  unfold bind at 1, ret at 1. rewrite set_preprocess_if_nest_same.
  unfold pragma_once_line. rewrite Hpragma.
  unfold guard_ifndef. rewrite Hifndef.
  assert (Hd : guard_define w rec path i line u (is_toplevel_of v) v s
               = (Returned (Continue (set_non_guard_line_found true v)),
                  set_result_lines (fun lines => lines ++ [line]) s)).
  { unfold guard_define. rewrite Hdef. unfold guard_endif. rewrite Hendif.
    rewrite andb_false_r. unfold non_guard_line. rewrite Hp. cbn [negb].
    change (include_guard_define_found (set_non_guard_line_found true v))
      with (include_guard_define_found v).
    rewrite Hdef, andb_false_r.
    change (include_guard_endif_found (set_non_guard_line_found true v))
      with (include_guard_endif_found v). rewrite Hend.
    unfold system_include. rewrite Hsys. unfold user_include. rewrite Husr.
    destruct (include_guard_macro v); reflexivity. }
  destruct (negb (pragma_once_found v) && negb (non_guard_line_found v));
    destruct (include_guard_macro v); exact Hd.
Qed.

Lemma guarded_code_lines more views :
  forall i v iq po pos out ps cc,
    forallb plain_code views = true ->
    include_guard_define_found v = true ->
    include_guard_endif_found v = false ->
    process_lines w rec path i (views ++ more) v (mkBundler iq po pos out ps cc)
    = process_lines w rec path (i + length views) more
        match views with
        | [] => v
        | _ :: _ => set_non_guard_line_found true v
        end
        (mkBundler iq po pos (out ++ map fst views) ps cc).
Proof.
  induction views as [| [line u] rest IH]; intros i v iq po pos out ps cc Hp Hd He.
  - cbn. rewrite Nat.add_0_r, app_nil_r. reflexivity.
  - cbn [forallb] in Hp. apply andb_true_iff in Hp as [Hp1 Hp2].
    cbn [app process_lines].
    rewrite (bind_run _ _ _ _ _ (guarded_code_line i line u v _ Hp1 Hd He)).
    unfold set_result_lines.
    cbn [iquotes pragma_once pragma_once_system result_lines path_stack compiler].
    rewrite (IH (S i) _ iq po pos (out ++ [line]) ps cc Hp2) by (destruct v; assumption).
    cbn [map fst length]. rewrite <- app_assoc. cbn [app].
    replace (S i + length rest) with (i + S (length rest)) by lia.
    destruct rest; destruct v; reflexivity.
Qed.

(** the turn at the [#endif] that closes the guard *)
Lemma guard_endif_line i line u v s :
  Re.pragma_once_directive line = false ->
  Re.endif_directive u = true ->
  include_guard_macro v <> None ->
  include_guard_define_found v = true ->
  include_guard_endif_found v = false ->
  preprocess_if_nest v = 1%Z ->
  process_line w rec path i line u v s
  = (Returned (Continue (set_include_guard_endif_found true (set_preprocess_if_nest 0 v))),
     set_result_lines (fun lines => lines ++ [Bytes.newline]) s).
Proof.
  intros Hp Hendif Hm Hdef Hend Hnest.
  unfold process_line, nest_step.
  rewrite (endif_not_if u Hendif), (endif_not_else u Hendif), Hendif, Hnest.
  cbn [andb]. change ((1 - 1)%Z) with 0%Z. change ((0 <? 0)%Z) with false.
  cbn [lift_sum].
  unfold bind at 1, ret at 1. unfold pragma_once_line. rewrite Hp.
  unfold guard_ifndef, guard_define, guard_endif.
  change (include_guard_macro (set_preprocess_if_nest 0 v)) with (include_guard_macro v).
  change (include_guard_define_found (set_preprocess_if_nest 0 v))
    with (include_guard_define_found v).
  change (include_guard_endif_found (set_preprocess_if_nest 0 v))
    with (include_guard_endif_found v).
  change (preprocess_if_nest (set_preprocess_if_nest 0 v)) with 0%Z.
  rewrite Hdef, Hend, Hendif. cbn [andb negb Z.eqb].
  destruct (include_guard_macro v); [| contradiction Hm; reflexivity].
  destruct (negb (pragma_once_found (set_preprocess_if_nest 0 v))
            && negb (non_guard_line_found (set_preprocess_if_nest 0 v)));
    reflexivity.
Qed.

End Guard.

(** X8.  A header of the form [#ifndef M / #define M / code / #endif]
    (with the same [M], and plain code between) is bundled without error:
    its canonical path is registered in [pragma_once], and the output
    receives the directive [#line 1], a blank line for each of the two
    opening lines, the code as it is, and a blank line for the [#endif]. *)
Theorem guarded_header_output (w : World) (fuel : nat) (path : Path)
    (l_ifndef u_ifndef l_define u_define l_endif u_endif g g' : bytes)
    (macro : string) (body : list (bytes * bytes))
    (iq : list Path) (po pos : gset string) (out : list bytes)
    (ps : gset string) (cc : string) :
  line_views w iq cc path
  = inr ((l_ifndef, u_ifndef) :: (l_define, u_define) :: body ++ [(l_endif, u_endif)]) ->
  Re.pragma_once_directive l_ifndef = false ->
  Re.pragma_once_directive l_define = false ->
  Re.pragma_once_directive l_endif = false ->
  Re.ifndef_macro u_ifndef = Some g -> Bytes.decode g = Some macro ->
  Re.define_macro u_define = Some g' -> Bytes.decode g' = Some macro ->
  forallb plain_code body = true ->
  Re.endif_directive u_endif = true ->
  path_resolve w path ∉ po ->
  path ∉ ps ->
  update w (S fuel) path (mkBundler iq po pos out ps cc)
  = (Returned tt,
     mkBundler iq ({[path_resolve w path]} ∪ po) pos
       ((pop_line_directives out ++ [line_directive 1 (relative_path w path)])
        ++ [Bytes.newline; Bytes.newline] ++ map fst body ++ [Bytes.newline])
       ps cc).
Proof.
  intros Hviews Hp1 Hp2 Hp3 Hg Hdec Hg' Hdec' Hbody Hendif Hpo Hps.
  rewrite (update_enter w fuel path _ iq po pos out ps cc Hviews Hpo Hps).
  unfold try_finally, bind at 1.
  cbn [process_lines]. unfold bind at 1.
  rewrite (guard_ifndef_line w _ path 0 l_ifndef u_ifndef g macro _ _ _ _ _ _ Hp1 Hg Hdec).
  unfold bind at 1.
  rewrite (guard_define_line w _ path 1 l_define u_define g' macro _ _ _ _ _ _ Hp2 Hg' Hdec').
  rewrite (guarded_code_lines w _ path [(l_endif, u_endif)] body) by (auto; reflexivity).
  cbn [process_lines]. unfold bind at 1.
  rewrite guard_endif_line;
    [| exact Hp3 | exact Hendif | destruct body; discriminate
     | destruct body; reflexivity | destruct body; reflexivity
     | destruct body; reflexivity].
  unfold ret at 1.
  assert (He : forall v0 n s, preprocess_if_nest v0 = 0%Z ->
                              include_guard_endif_found v0 = true ->
                              end_of_file path n v0 s = (Returned tt, s)).
  { intros v0 n s H1 H2. unfold end_of_file. rewrite H1, H2.
    cbn [negb Z.eqb]. rewrite andb_false_r. reflexivity. }
  rewrite He by reflexivity.
  unfold set_result_lines.
  cbn [iquotes pragma_once pragma_once_system result_lines path_stack compiler].
  rewrite leave_file by exact Hps.
  do 2 f_equal. repeat rewrite <- app_assoc. reflexivity.
Qed.

Lemma guarded_header_output_witness :
  let w := MemFS.world MemFS.guarded_header in
  let same (s : string) := (s +:+ MemFS.nl, s +:+ MemFS.nl) in
  update w 1 "/w/a.h" (mkBundler [] ∅ ∅ [line_directive 1 "main.cc"] {[ "main.cc" ]} "g++")
  = (Returned tt,
     mkBundler [] ({[path_resolve w "/w/a.h"]} ∪ ∅) ∅
       ((pop_line_directives [line_directive 1 "main.cc"]
         ++ [line_directive 1 (relative_path w "/w/a.h")])
        ++ [Bytes.newline; Bytes.newline] ++ map fst [same "int y;"]
        ++ [Bytes.newline])
       {[ "main.cc" ]} "g++").
Proof.
  intros w same.
  apply (guarded_header_output w 0 "/w/a.h"
           ("#ifndef A_H" +:+ MemFS.nl) ("#ifndef A_H" +:+ MemFS.nl)
           ("#define A_H" +:+ MemFS.nl) ("#define A_H" +:+ MemFS.nl)
           ("#endif" +:+ MemFS.nl) ("#endif" +:+ MemFS.nl)
           "A_H" "A_H" "A_H" [same "int y;"]);
    try reflexivity; cbn; set_solver.
Defined.

(** ** Includes, once and in error *)

Lemma update_skips_registered w fuel path s :
  path_resolve w path ∈ pragma_once s ->
  update w (S fuel) path s = (Returned tt, s).
Proof.
  intros H. cbn [update]. unfold bind, get_self.
  rewrite bool_decide_eq_true_2 by exact H. reflexivity.
Qed.

Lemma if_directive_prefix u :
  Re.if_directive u = true -> exists r, Re.directive u = Some ("if" +:+ r).
Proof.
  unfold Re.if_directive, Re.keyword_space.
  destruct (Re.directive u) as [r |]; [| discriminate].
  intros H.
  destruct (Bytes.strip_prefix "if" r) as [t |] eqn:E1.
  { apply strip_prefix_app in E1. subst r. eauto. }
  destruct (Bytes.strip_prefix "ifdef" r) as [t |] eqn:E2.
  { apply strip_prefix_app in E2. subst r. exists ("def" +:+ t). reflexivity. }
  destruct (Bytes.strip_prefix "ifndef" r) as [t |] eqn:E3.
  { apply strip_prefix_app in E3. subst r. exists ("ndef" +:+ t). reflexivity. }
  discriminate H.
Qed.

Section Turns.
Context (w : World) (rec : Path -> M unit) (path : Path).

Lemma plain_code_lines_app more views :
  forall i v iq po pos out ps cc,
    forallb plain_code views = true ->
    include_guard_macro v = None ->
    include_guard_define_found v = false ->
    include_guard_endif_found v = false ->
    process_lines w rec path i (views ++ more) v (mkBundler iq po pos out ps cc)
    = process_lines w rec path (i + length views) more
        match views with
        | [] => v
        | _ :: _ => set_non_guard_line_found true v
        end
        (mkBundler iq po pos (out ++ map fst views) ps cc).
Proof.
  induction views as [| [line u] rest IH]; intros i v iq po pos out ps cc Hp Hm Hd He.
  - cbn. rewrite Nat.add_0_r, app_nil_r. reflexivity.
  - cbn [forallb] in Hp. apply andb_true_iff in Hp as [Hp1 Hp2].
    cbn [app process_lines].
    rewrite (bind_run _ _ _ _ _ (plain_code_line w rec path i line u v _ Hp1 Hm Hd He)).
    unfold set_result_lines.
    cbn [iquotes pragma_once pragma_once_system result_lines path_stack compiler].
    rewrite (IH (S i) _ iq po pos (out ++ [line]) ps cc Hp2) by (destruct v; assumption).
    cbn [map fst length]. rewrite <- app_assoc. cbn [app].
    replace (S i + length rest) with (i + S (length rest)) by lia.
    destruct rest; destruct v; reflexivity.
Qed.

(** the turn at an opening conditional that is not a guard candidate *)
Lemma conditional_line i line u v s :
  Re.pragma_once_directive line = false ->
  Re.if_directive u = true ->
  Re.ifndef_macro u = None ->
  include_guard_macro v = None ->
  include_guard_define_found v = false ->
  include_guard_endif_found v = false ->
  process_line w rec path i line u v s
  = (Returned (Continue (set_non_guard_line_found true
                           (set_preprocess_if_nest (preprocess_if_nest v + 1) v))),
     set_result_lines (fun lines => lines ++ [line]) s).
Proof.
  intros Hp Hif Hifndef Hm Hdef Hend.
  destruct (if_directive_prefix u Hif) as [r Hd].
  unfold process_line, nest_step.
  rewrite Hif, (if_not_else u Hif), (if_not_endif u Hif). cbn [andb lift_sum].
  unfold bind at 1, ret at 1. unfold pragma_once_line. rewrite Hp.
  unfold guard_ifndef. rewrite Hifndef.
  change (include_guard_macro (set_preprocess_if_nest (preprocess_if_nest v + 1) v))
    with (include_guard_macro v). rewrite Hm.
  set (v1 := set_preprocess_if_nest (preprocess_if_nest v + 1) v).
  assert (Hg : guard_define w rec path i line u (is_toplevel_of v1) v1 s
               = (Returned (Continue (set_non_guard_line_found true v1)),
                  set_result_lines (fun lines => lines ++ [line]) s)).
  { unfold guard_define.
    change (include_guard_macro v1) with (include_guard_macro v). rewrite Hm.
    unfold guard_endif.
    change (include_guard_define_found v1) with (include_guard_define_found v).
    rewrite Hdef. cbn [andb]. unfold non_guard_line.
    assert (Hne : Bytes.is_empty u = false) by (destruct u; [discriminate Hd | reflexivity]).
    rewrite Hne. cbn [negb].
    change (include_guard_macro (set_non_guard_line_found true v1))
      with (include_guard_macro v). rewrite Hm.
    rewrite bool_decide_eq_false_2 by (intros H; apply H; reflexivity).
    cbn [andb].
    change (include_guard_endif_found (set_non_guard_line_found true v1))
      with (include_guard_endif_found v). rewrite Hend.
    unfold system_include, user_include, Re.include_system, Re.include_user,
      Re.include_between. rewrite Hd. reflexivity. }
  destruct (negb (pragma_once_found v1) && negb (non_guard_line_found v1)); exact Hg.
Qed.

(** the turn at an [#include "name"] that is not at top level *)
Lemma include_line_refused i line u name v s :
  includes_header (line, u) name = true ->
  is_toplevel_of v = false ->
  include_guard_macro v = None ->
  include_guard_define_found v = false ->
  include_guard_endif_found v = false ->
  process_line w rec path i line u v s
  = (Raised (BundleErrorAt path (Z.of_nat i + 1)
       "unable to process #include in #if / #ifdef / #ifndef other than include guards"),
     s).
Proof.
  unfold includes_header. cbn [fst snd]. intros Hinc Htop Hm Hdef Hend.
  apply andb_true_iff in Hinc as [Hpragma Hinc]. apply negb_true_iff in Hpragma.
  destruct (Re.include_user u) as [g |] eqn:Husr; [| discriminate].
  destruct (Bytes.decode g) as [n |] eqn:Hdec; [| discriminate].
  destruct (include_excludes _ _ u g Husr) as (Hif & Helse & Hendif & Hifndef & Hdefine & Hne).
  pose proof (include_user_not_system u g Husr) as Hsys.
  unfold process_line, nest_step. rewrite Hif, Helse, Hendif. cbn [andb lift_sum].
  unfold bind at 1, ret at 1. rewrite set_preprocess_if_nest_same.
  unfold pragma_once_line. rewrite Hpragma.
  unfold guard_ifndef. rewrite Hm, Hifndef, Htop.
  assert (Hd : guard_define w rec path i line u false v s
               = (Raised (BundleErrorAt path (Z.of_nat i + 1)
                    "unable to process #include in #if / #ifdef / #ifndef other than include guards"),
                  s)).
  { unfold guard_define. rewrite Hm. unfold guard_endif. rewrite Hdef.
    cbn [andb]. unfold non_guard_line. rewrite Hne. cbn [negb].
    change (include_guard_macro (set_non_guard_line_found true v))
      with (include_guard_macro v). rewrite Hm.
    rewrite bool_decide_eq_false_2 by (intros H; apply H; reflexivity).
    cbn [andb].
    change (include_guard_endif_found (set_non_guard_line_found true v))
      with (include_guard_endif_found v). rewrite Hend.
    unfold system_include. rewrite Hsys. unfold user_include. rewrite Husr, Hdec.
    reflexivity. }
  destruct (negb (pragma_once_found v) && negb (non_guard_line_found v)); exact Hd.
Qed.

(** the turn at a [#pragma once] that comes after content *)
Lemma pragma_once_late i line u v s :
  Re.pragma_once_directive line = true ->
  Re.else_directive u = false -> Re.endif_directive u = false ->
  non_guard_line_found v = true ->
  process_line w rec path i line u v s
  = (Raised (BundleErrorAt path (Z.of_nat i + 1)
               "#pragma once found in a non-first line"), s).
Proof.
  intros Hl He Hd Hngl. unfold process_line.
  rewrite (nest_step_no_close path i u _ He Hd). cbn [lift_sum].
  unfold bind at 1, ret at 1. unfold pragma_once_line. rewrite Hl.
  change (non_guard_line_found (set_preprocess_if_nest _ v))
    with (non_guard_line_found v). rewrite Hngl. reflexivity.
Qed.

(** the turn at a line of code that follows the closed guard *)
Lemma code_after_endif i line u v s :
  plain_code (line, u) = true ->
  include_guard_define_found v = true ->
  include_guard_endif_found v = true ->
  process_line w rec path i line u v s
  = (Raised (BundleErrorAt path (Z.of_nat i + 1) "found codes out of include guard"), s).
Proof.
  unfold plain_code. cbn [fst snd]. intros Hp Hdef Hend.
  destruct (Re.directive line) eqn:Hl; [discriminate |].
  destruct (Re.directive u) eqn:Hu; [discriminate |].
  apply negb_true_iff in Hp.
  destruct (no_directive u Hu) as (Hif & Helse & Hendif & Hifndef & Hdefine & _ & Hsys & Husr).
  destruct (no_directive line Hl) as (_ & _ & _ & _ & _ & Hpragma & _).
  unfold process_line, nest_step. rewrite Hif, Helse, Hendif. cbn [andb lift_sum].
  unfold bind at 1, ret at 1. rewrite set_preprocess_if_nest_same.
  unfold pragma_once_line. rewrite Hpragma.
  unfold guard_ifndef. rewrite Hifndef.
  assert (Hd : guard_define w rec path i line u (is_toplevel_of v) v s
               = (Raised (BundleErrorAt path (Z.of_nat i + 1)
                            "found codes out of include guard"), s)).
  { unfold guard_define. rewrite Hdef. unfold guard_endif. rewrite Hendif.
    rewrite andb_false_r. unfold non_guard_line. rewrite Hp. cbn [negb].
    change (include_guard_define_found (set_non_guard_line_found true v))
      with (include_guard_define_found v).
    rewrite Hdef, andb_false_r.
    change (include_guard_endif_found (set_non_guard_line_found true v))
      with (include_guard_endif_found v). rewrite Hend.
    destruct (include_guard_macro v); reflexivity. }
  destruct (negb (pragma_once_found v) && negb (non_guard_line_found v));
    destruct (include_guard_macro v); exact Hd.
Qed.

End Turns.

Lemma end_of_file_open path n v s :
  include_guard_macro v = None ->
  preprocess_if_nest v = 0%Z ->
  end_of_file path n v s = (Returned tt, s).
Proof. intros H1 H2. unfold end_of_file. rewrite H1, H2. reflexivity. Qed.

Lemma leave_file_raised {A} (r : outcome A) path iq po pos out ps cc :
  path ∉ ps ->
  try_finally (fun s => (r, s)) (path_stack_remove path)
    (mkBundler iq po pos out ({[path]} ∪ ps) cc)
  = (r, mkBundler iq po pos out ps cc).
Proof.
  intros Hps. unfold try_finally. rewrite leave_file by exact Hps.
  destruct r; reflexivity.
Qed.

(** X9.  A header that registers itself (by its guard or by
    [#pragma once]) is expanded once.  When a file includes it on its first
    two lines, the second include adds nothing: the output is the output of
    the first expansion followed by [#line 3] for the including file and
    the rest of that file. *)
Theorem include_twice_expands_once (w : World) (fuel : nat) (main target : Path)
    (name : string) (inc1 inc2 : bytes * bytes) (rest : list (bytes * bytes))
    (iq : list Path) (po po' pos pos' : gset string) (out out' : list bytes)
    (ps : gset string) (cc : string) :
  line_views w iq cc main = inr (inc1 :: inc2 :: rest) ->
  includes_header inc1 name = true ->
  includes_header inc2 name = true ->
  forallb plain_code rest = true ->
  path_exists w (path_join w (path_parent w main) (path_of_str w name)) = true ->
  target = path_resolve w (path_join w (path_parent w main) (path_of_str w name)) ->
  path_resolve w main ∉ po ->
  main ∉ ps ->
  update w fuel target
    (mkBundler iq po pos
       (pop_line_directives out ++ [line_directive 1 (relative_path w main)])
       ({[main]} ∪ ps) cc)
  = (Returned tt, mkBundler iq po' pos' out' ({[main]} ∪ ps) cc) ->
  path_resolve w target ∈ po' ->
  update w (S fuel) main (mkBundler iq po pos out ps cc)
  = (Returned tt,
     mkBundler iq po' pos'
       ((pop_line_directives out' ++ [line_directive 3 (relative_path w main)])
        ++ map fst rest)
       ps cc).
Proof.
  intros Hviews Hinc1 Hinc2 Hplain Hex -> Hpo Hps Hrec Hreg.
  destruct fuel as [| fuel]; [discriminate Hrec |].
  rewrite (update_enter w (S fuel) main _ iq po pos out ps cc Hviews Hpo Hps).
  destruct inc1 as [l1 u1], inc2 as [l2 u2].
  unfold try_finally, bind at 1. cbn [process_lines]. unfold bind at 1.
  rewrite (include_line w _ main 0 l1 u1 name initial_locals _ Hinc1) by reflexivity.
  unfold bind at 1, _resolve at 1, bind at 1, get_self at 1.
  rewrite Hex. unfold ret at 1. unfold bind at 1. rewrite Hrec.
  unfold bind at 1, _line at 1, modify, set_result_lines, ret at 1.
  cbn [iquotes pragma_once pragma_once_system result_lines path_stack compiler].
  unfold bind at 1.
  rewrite (include_line w _ main 1 l2 u2 name _ _ Hinc2) by reflexivity.
  unfold bind at 1, _resolve at 1, bind at 1, get_self at 1.
  rewrite Hex. unfold ret at 1. unfold bind at 1.
  rewrite update_skips_registered by exact Hreg.
  unfold bind at 1, _line at 1, modify, set_result_lines, ret at 1.
  cbn [iquotes pragma_once pragma_once_system result_lines path_stack compiler].
  rewrite plain_code_lines by (auto; reflexivity).
  rewrite end_of_file_open by (destruct rest; reflexivity).
  rewrite leave_file by exact Hps.
  rewrite pop_line_directives_drop, pop_line_directives_idem. reflexivity.
Qed.

Lemma include_twice_expands_once_witness :
  let w := MemFS.world MemFS.guarded_header in
  let inc := ("#include " +:+ MemFS.quoted "a.h" +:+ MemFS.nl,
              "#include " +:+ MemFS.quoted "a.h" +:+ MemFS.nl) in
  let rest := [("int main() { return y; }" +:+ MemFS.nl,
                "int main() { return y; }" +:+ MemFS.nl)] in
  update w 2 "main.cc" (mkBundler [] ∅ ∅ [] ∅ "g++")
  = (Returned tt,
     mkBundler [] ({[ "/w/a.h" ]} ∪ ∅) ∅
       ((pop_line_directives
           [ line_directive 1 "a.h"; Bytes.newline; Bytes.newline;
             "int y;" +:+ MemFS.nl; Bytes.newline ]
         ++ [line_directive 3 (relative_path w "main.cc")])
        ++ map fst rest)
       ∅ "g++").
Proof.
  intros w inc rest.
  apply (include_twice_expands_once w 1 "main.cc" "/w/a.h" "a.h" inc inc rest
           [] ∅ ({[ "/w/a.h" ]} ∪ ∅) ∅ ∅ []);
    try reflexivity; try (cbn; set_solver).
Defined.

(** X10.  An [#include "name"] directly under an opening conditional that
    is not a guard candidate is refused: with plain code before the
    conditional, [update] raises the policy error at the line of the
    include, does not open the header, and leaves in the output the lines
    before the include. *)
Theorem include_in_conditional_refused (w : World) (fuel : nat) (path : Path)
    (name : string) (pre rest : list (bytes * bytes)) (l0 u0 : bytes)
    (inc : bytes * bytes)
    (iq : list Path) (po pos : gset string) (out : list bytes)
    (ps : gset string) (cc : string) :
  line_views w iq cc path = inr (pre ++ (l0, u0) :: inc :: rest) ->
  forallb plain_code pre = true ->
  Re.pragma_once_directive l0 = false ->
  Re.if_directive u0 = true ->
  Re.ifndef_macro u0 = None ->
  includes_header inc name = true ->
  path_resolve w path ∉ po ->
  path ∉ ps ->
  update w (S fuel) path (mkBundler iq po pos out ps cc)
  = (Raised (BundleErrorAt path (Z.of_nat (length pre) + 2)
       "unable to process #include in #if / #ifdef / #ifndef other than include guards"),
     mkBundler iq po pos
       (((pop_line_directives out ++ [line_directive 1 (relative_path w path)])
         ++ map fst pre) ++ [l0])
       ps cc).
Proof.
  intros Hviews Hpre Hp0 Hif Hifndef Hinc Hpo Hps.
  rewrite (update_enter w fuel path _ iq po pos out ps cc Hviews Hpo Hps).
  destruct inc as [l1 u1].
  unfold try_finally, bind at 1.
  rewrite (plain_code_lines_app w _ path _ pre) by (auto; reflexivity).
  cbn [process_lines]. unfold bind at 1.
  rewrite (conditional_line w _ path _ l0 u0 _ _ Hp0 Hif Hifndef)
    by (destruct pre; reflexivity).
  unfold bind at 1.
  rewrite (include_line_refused w _ path _ l1 u1 name _ _ Hinc)
    by (destruct pre; reflexivity).
  unfold set_result_lines.
  cbn [iquotes pragma_once pragma_once_system result_lines path_stack compiler].
  rewrite leave_file by exact Hps.
  do 3 f_equal. lia.
Qed.

Lemma include_in_conditional_refused_witness :
  let w := MemFS.world MemFS.include_in_if in
  update w 1 "main.cc" (mkBundler [] ∅ ∅ [] ∅ "g++")
  = (Raised (BundleErrorAt "main.cc" (Z.of_nat (length (@nil (bytes * bytes))) + 2)
       "unable to process #include in #if / #ifdef / #ifndef other than include guards"),
     mkBundler [] ∅ ∅
       (((pop_line_directives [] ++ [line_directive 1 (relative_path w "main.cc")])
         ++ map fst (@nil (bytes * bytes))) ++ ["#if FOO" +:+ MemFS.nl])
       ∅ "g++").
Proof.
  intros w.
  apply (include_in_conditional_refused w 0 "main.cc" "a.h" []
           [("#endif" +:+ MemFS.nl, "#endif" +:+ MemFS.nl)]
           ("#if FOO" +:+ MemFS.nl) ("#if FOO" +:+ MemFS.nl)
           ("#include " +:+ MemFS.quoted "a.h" +:+ MemFS.nl,
            "#include " +:+ MemFS.quoted "a.h" +:+ MemFS.nl));
    try reflexivity; cbn; set_solver.
Defined.

(** X11.  A [#pragma once] that comes after a line of code is refused:
    [update] raises "#pragma once found in a non-first line" at that line;
    the lines before it stay in the output and the file is not
    registered. *)
Theorem pragma_once_after_code_refused (w : World) (fuel : nat) (path : Path)
    (pre rest : list (bytes * bytes)) (l u : bytes)
    (iq : list Path) (po pos : gset string) (out : list bytes)
    (ps : gset string) (cc : string) :
  line_views w iq cc path = inr (pre ++ (l, u) :: rest) ->
  forallb plain_code pre = true ->
  pre <> [] ->
  Re.pragma_once_directive l = true ->
  Re.else_directive u = false -> Re.endif_directive u = false ->
  path_resolve w path ∉ po ->
  path ∉ ps ->
  update w (S fuel) path (mkBundler iq po pos out ps cc)
  = (Raised (BundleErrorAt path (Z.of_nat (length pre) + 1)
               "#pragma once found in a non-first line"),
     mkBundler iq po pos
       ((pop_line_directives out ++ [line_directive 1 (relative_path w path)])
        ++ map fst pre)
       ps cc).
Proof.
  intros Hviews Hpre Hne Hl He Hd Hpo Hps.
  rewrite (update_enter w fuel path _ iq po pos out ps cc Hviews Hpo Hps).
  unfold try_finally, bind at 1.
  rewrite (plain_code_lines_app w _ path _ pre) by (auto; reflexivity).
  cbn [process_lines]. unfold bind at 1.
  rewrite (pragma_once_late w _ path _ l u _ _ Hl He Hd)
    by (destruct pre; [contradiction | reflexivity]).
  rewrite leave_file by exact Hps. reflexivity.
Qed.

Lemma pragma_once_after_code_refused_witness :
  let w := MemFS.world MemFS.late_pragma in
  let pre := [("int x;" +:+ MemFS.nl, "int x;" +:+ MemFS.nl)] in
  update w 1 "a.h" (mkBundler [] ∅ ∅ [] ∅ "g++")
  = (Raised (BundleErrorAt "a.h" (Z.of_nat (length pre) + 1)
               "#pragma once found in a non-first line"),
     mkBundler [] ∅ ∅
       ((pop_line_directives [] ++ [line_directive 1 (relative_path w "a.h")])
        ++ map fst pre)
       ∅ "g++").
Proof.
  intros w pre.
  apply (pragma_once_after_code_refused w 0 "a.h" pre []
           ("#pragma once" +:+ MemFS.nl) MemFS.nl);
    try reflexivity; try discriminate; cbn; set_solver.
Defined.

(** X12.  Code after the [#endif] that closes the include guard is
    refused: [update] raises "found codes out of include guard" at the
    first such line.  The header has been registered by then, and its
    guarded part is in the output. *)
Theorem code_after_guard_refused (w : World) (fuel : nat) (path : Path)
    (l_ifndef u_ifndef l_define u_define l_endif u_endif g g' : bytes)
    (macro : string) (body rest : list (bytes * bytes)) (extra : bytes * bytes)
    (iq : list Path) (po pos : gset string) (out : list bytes)
    (ps : gset string) (cc : string) :
  line_views w iq cc path
  = inr ((l_ifndef, u_ifndef) :: (l_define, u_define)
         :: body ++ (l_endif, u_endif) :: extra :: rest) ->
  Re.pragma_once_directive l_ifndef = false ->
  Re.pragma_once_directive l_define = false ->
  Re.pragma_once_directive l_endif = false ->
  Re.ifndef_macro u_ifndef = Some g -> Bytes.decode g = Some macro ->
  Re.define_macro u_define = Some g' -> Bytes.decode g' = Some macro ->
  forallb plain_code body = true ->
  Re.endif_directive u_endif = true ->
  plain_code extra = true ->
  path_resolve w path ∉ po ->
  path ∉ ps ->
  update w (S fuel) path (mkBundler iq po pos out ps cc)
  = (Raised (BundleErrorAt path (Z.of_nat (length body) + 4)
               "found codes out of include guard"),
     mkBundler iq ({[path_resolve w path]} ∪ po) pos
       ((pop_line_directives out ++ [line_directive 1 (relative_path w path)])
        ++ [Bytes.newline; Bytes.newline] ++ map fst body ++ [Bytes.newline])
       ps cc).
Proof.
  intros Hviews Hp1 Hp2 Hp3 Hg Hdec Hg' Hdec' Hbody Hendif Hextra Hpo Hps.
  rewrite (update_enter w fuel path _ iq po pos out ps cc Hviews Hpo Hps).
  destruct extra as [l u].
  unfold try_finally, bind at 1.
  cbn [process_lines]. unfold bind at 1.
  rewrite (guard_ifndef_line w _ path 0 l_ifndef u_ifndef g macro _ _ _ _ _ _ Hp1 Hg Hdec).
  unfold bind at 1.
  rewrite (guard_define_line w _ path 1 l_define u_define g' macro _ _ _ _ _ _ Hp2 Hg' Hdec').
  rewrite (guarded_code_lines w _ path ((l_endif, u_endif) :: (l, u) :: rest) body)
    by (auto; reflexivity).
  cbn [process_lines]. unfold bind at 1.
  rewrite guard_endif_line;
    [| exact Hp3 | exact Hendif | destruct body; discriminate
     | destruct body; reflexivity | destruct body; reflexivity
     | destruct body; reflexivity].
  unfold bind at 1.
  rewrite (code_after_endif w _ path _ l u _ _ Hextra)
    by (destruct body; reflexivity).
  unfold set_result_lines.
  cbn [iquotes pragma_once pragma_once_system result_lines path_stack compiler].
  rewrite leave_file by exact Hps.
  f_equal; [do 2 f_equal; lia |].
  f_equal. repeat rewrite <- app_assoc. reflexivity.
Qed.

Lemma code_after_guard_refused_witness :
  let w := MemFS.world MemFS.code_after_guard in
  let same (s : string) := (s +:+ MemFS.nl, s +:+ MemFS.nl) in
  update w 1 "a.h" (mkBundler [] ∅ ∅ [] ∅ "g++")
  = (Raised (BundleErrorAt "a.h" (Z.of_nat (length [same "int y;"]) + 4)
               "found codes out of include guard"),
     mkBundler [] ({[path_resolve w "a.h"]} ∪ ∅) ∅
       ((pop_line_directives [] ++ [line_directive 1 (relative_path w "a.h")])
        ++ [Bytes.newline; Bytes.newline] ++ map fst [same "int y;"]
        ++ [Bytes.newline])
       ∅ "g++").
Proof.
  intros w same.
  apply (code_after_guard_refused w 0 "a.h"
           ("#ifndef A_H" +:+ MemFS.nl) ("#ifndef A_H" +:+ MemFS.nl)
           ("#define A_H" +:+ MemFS.nl) ("#define A_H" +:+ MemFS.nl)
           ("#endif" +:+ MemFS.nl) ("#endif" +:+ MemFS.nl)
           "A_H" "A_H" "A_H" [same "int y;"] [] (same "int z;"));
    try reflexivity; cbn; set_solver.
Defined.

Lemma include_raises (w : World) (fuel : nat) (path target : Path)
    (name : string) (pre rest : list (bytes * bytes)) (inc : bytes * bytes)
    (e : exn) (failed : Bundler)
    (iq : list Path) (po pos : gset string) (out : list bytes)
    (ps : gset string) (cc : string) :
  line_views w iq cc path = inr (pre ++ inc :: rest) ->
  forallb plain_code pre = true ->
  includes_header inc name = true ->
  path_exists w (path_join w (path_parent w path) (path_of_str w name)) = true ->
  target = path_resolve w (path_join w (path_parent w path) (path_of_str w name)) ->
  path_resolve w path ∉ po ->
  path ∉ ps ->
  update w fuel target
    (mkBundler iq po pos
       ((pop_line_directives out ++ [line_directive 1 (relative_path w path)])
        ++ map fst pre)
       ({[path]} ∪ ps) cc)
  = (Raised e, failed) ->
  update w (S fuel) path (mkBundler iq po pos out ps cc)
  = (Raised e, set_path_stack (fun _ => ps) failed).
Proof.
  intros Hviews Hpre Hinc Hex -> Hpo Hps Hrec.
  pose proof (update_same_path_stack w fuel _ _ _ _ Hrec) as Hstack.
  unfold same_path_stack in Hstack. cbn [path_stack] in Hstack.
  rewrite (update_enter w fuel path _ iq po pos out ps cc Hviews Hpo Hps).
  destruct inc as [l u].
  unfold try_finally, bind at 1.
  rewrite (plain_code_lines_app w _ path _ pre) by (auto; reflexivity).
  cbn [process_lines]. unfold bind at 1.
  rewrite (include_line w _ path _ l u name _ _ Hinc) by (destruct pre; reflexivity).
  unfold bind at 1, _resolve at 1, bind at 1, get_self at 1.
  rewrite Hex. unfold ret at 1. unfold bind at 1. rewrite Hrec.
  unfold path_stack_remove, bind, get_self, modify.
  rewrite bool_decide_eq_true_2 by (rewrite Hstack; set_solver).
  f_equal. destruct failed as [iq' po' pos' out' ps' cc'].
  unfold set_path_stack. cbn in Hstack |- *. subst ps'.
  rewrite (path_stack_pop path ps Hps). reflexivity.
Qed.

(** X13.  An error raised while an included file is bundled aborts the
    including file with the same error: after plain code and an
    [#include "name"] at top level whose header fails with [e], [update]
    raises [e]; nothing is added to the output after the failure and only
    the path stack is unwound. *)
Theorem include_error_propagates (w : World) (fuel : nat) (path target : Path)
    (name : string) (pre rest : list (bytes * bytes)) (inc : bytes * bytes)
    (e : exn) (failed : Bundler)
    (iq : list Path) (po pos : gset string) (out : list bytes)
    (ps : gset string) (cc : string) :
  line_views w iq cc path = inr (pre ++ inc :: rest) ->
  forallb plain_code pre = true ->
  includes_header inc name = true ->
  path_exists w (path_join w (path_parent w path) (path_of_str w name)) = true ->
  target = path_resolve w (path_join w (path_parent w path) (path_of_str w name)) ->
  path_resolve w path ∉ po ->
  path ∉ ps ->
  update w fuel target
    (mkBundler iq po pos
       ((pop_line_directives out ++ [line_directive 1 (relative_path w path)])
        ++ map fst pre)
       ({[path]} ∪ ps) cc)
  = (Raised e, failed) ->
  update w (S fuel) path (mkBundler iq po pos out ps cc)
  = (Raised e, set_path_stack (fun _ => ps) failed).
Proof.
  intros Hviews Hpre Hinc Hex Htarget Hpo Hps Hrec.
  exact (include_raises w fuel path target name pre rest inc e failed
           iq po pos out ps cc Hviews Hpre Hinc Hex Htarget Hpo Hps Hrec).
Qed.

Lemma include_error_propagates_witness :
  let w := MemFS.world MemFS.failing_include in
  let same (s : string) := (s +:+ MemFS.nl, s +:+ MemFS.nl) in
  update w 2 "top.cc" (mkBundler [] ∅ ∅ [] ∅ "g++")
  = (Raised (BundleErrorAt "/w/main.cc" 2
       "unable to process #include in #if / #ifdef / #ifndef other than include guards"),
     set_path_stack (fun _ => ∅)
       (mkBundler [] ∅ ∅
          [ line_directive 1 "top.cc"; "int t;" +:+ MemFS.nl;
            line_directive 1 "main.cc"; "#if FOO" +:+ MemFS.nl ]
          ({[ "top.cc" ]} ∪ ∅) "g++")).
Proof.
  intros w same.
  apply (include_error_propagates w 1 "top.cc" "/w/main.cc" "main.cc"
           [same "int t;"] [] (same ("#include " +:+ MemFS.quoted "main.cc")));
    try reflexivity; try (cbn; set_solver).
Defined.

(** X14.  Cyclic inclusion is rejected.  When a file, after plain code,
    includes at top level a header that resolves to a file being processed
    (the file itself, or one further up the chain of includes) and that is
    not registered, [update] raises "cycle found in inclusion relations"
    for that header. *)
Theorem cyclic_include_rejected (w : World) (fuel : nat) (path target : Path)
    (name : string) (pre rest : list (bytes * bytes)) (inc : bytes * bytes)
    (iq : list Path) (po pos : gset string) (out : list bytes)
    (ps : gset string) (cc : string) :
  line_views w iq cc path = inr (pre ++ inc :: rest) ->
  forallb plain_code pre = true ->
  includes_header inc name = true ->
  path_exists w (path_join w (path_parent w path) (path_of_str w name)) = true ->
  target = path_resolve w (path_join w (path_parent w path) (path_of_str w name)) ->
  path_resolve w path ∉ po ->
  path ∉ ps ->
  path_resolve w target ∉ po ->
  target ∈ ({[path]} ∪ ps : gset string) ->
  update w (S (S fuel)) path (mkBundler iq po pos out ps cc)
  = (Raised (BundleErrorAt target (-1) "cycle found in inclusion relations"),
     mkBundler iq po pos
       ((pop_line_directives out ++ [line_directive 1 (relative_path w path)])
        ++ map fst pre)
       ps cc).
Proof.
  intros Hviews Hpre Hinc Hex Htarget Hpo Hps Hpo' Hcycle.
  rewrite (include_raises w (S fuel) path target name pre rest inc
             (BundleErrorAt target (-1) "cycle found in inclusion relations")
             (mkBundler iq po pos
                ((pop_line_directives out ++ [line_directive 1 (relative_path w path)])
                 ++ map fst pre)
                ({[path]} ∪ ps) cc)
             iq po pos out ps cc Hviews Hpre Hinc Hex Htarget Hpo Hps);
    [reflexivity |].
  cbn [update]. unfold bind, get_self. cbn [pragma_once path_stack].
  rewrite bool_decide_eq_false_2 by exact Hpo'.
  rewrite bool_decide_eq_true_2 by exact Hcycle.
  reflexivity.
Qed.

Lemma cyclic_include_rejected_witness :
  let w := MemFS.world MemFS.self_include in
  let same (s : string) := (s +:+ MemFS.nl, s +:+ MemFS.nl) in
  update w 2 "/w/a.h" (mkBundler [] ∅ ∅ [] ∅ "g++")
  = (Raised (BundleErrorAt "/w/a.h" (-1) "cycle found in inclusion relations"),
     mkBundler [] ∅ ∅
       ((pop_line_directives [] ++ [line_directive 1 (relative_path w "/w/a.h")])
        ++ map fst [same "int before;"])
       ∅ "g++").
Proof.
  intros w same.
  apply (cyclic_include_rejected w 0 "/w/a.h" "/w/a.h" "a.h"
           [same "int before;"] [same "int after;"]
           (same ("#include " +:+ MemFS.quoted "a.h")));
    try reflexivity; cbn; set_solver.
Defined.

(** ** A system header that is already recorded *)

(** X15.  A line recognised as [#include <H>] is dropped from the output
    when [H] is already recorded in [pragma_once_system], and also when the
    umbrella header [bits/stdc++.h] is: whether or not [H] is a
    standard-library name, and at any conditional depth.  The line is
    replaced by the directive [#line (i+2)], and nothing is recorded. *)
Theorem recorded_system_include_dropped (w : World) (rec : Path -> M unit)
    (path : Path) (i : nat) (line u g : bytes) (included : string)
    (v : Locals) (self : Bundler) :
  Re.pragma_once_directive line = false ->
  Re.include_system u = Some g ->
  Bytes.decode g = Some included ->
  include_guard_endif_found v = false ->
  included ∈ pragma_once_system self \/ bits_stdcxx_h ∈ pragma_once_system self ->
  process_line w rec path i line u v self
  = (Returned (Continue (after_non_guard_line u v)),
     set_result_lines
       (fun lines => pop_line_directives lines
                     ++ [line_directive (i + 2) (relative_path w path)])
       self).
Proof.
  intros Hp Hsys Hdec Hend Hseen.
  destruct (include_excludes _ _ u g Hsys) as (Hif & Helse & Hendif & Hifndef & Hdefine & Hne).
  unfold process_line, nest_step. rewrite Hif, Helse, Hendif. cbn [andb lift_sum].
  unfold bind at 1, ret at 1. rewrite set_preprocess_if_nest_same.
  unfold pragma_once_line. rewrite Hp.
  assert (Hs : forall v0, include_guard_endif_found v0 = false ->
               system_include w rec path i line u (is_toplevel_of v) v0 self
               = (Returned (Continue v0),
                  set_result_lines
                    (fun lines => pop_line_directives lines
                                  ++ [line_directive (i + 2) (relative_path w path)])
                    self)).
  { intros v0 _. unfold system_include. rewrite Hsys, Hdec.
    unfold bind at 1, get_self at 1.
    assert (Hb : bool_decide (included ∈ pragma_once_system self)
                 || bool_decide (bits_stdcxx_h ∈ pragma_once_system self) = true).
    { destruct Hseen as [H | H];
        rewrite (bool_decide_eq_true_2 _ H); [reflexivity | apply orb_true_r]. }
    rewrite Hb. reflexivity. }
  assert (Hn : non_guard_line w rec path i line u (is_toplevel_of v) v self
               = (Returned (Continue (after_non_guard_line u v)),
                  set_result_lines
                    (fun lines => pop_line_directives lines
                                  ++ [line_directive (i + 2) (relative_path w path)])
                    self)).
  { unfold non_guard_line, after_non_guard_line. rewrite Hne. cbn [negb]. cbv zeta.
    assert (He : include_guard_endif_found
                   (if bool_decide (include_guard_macro (set_non_guard_line_found true v) ≠ None)
                       && negb (include_guard_define_found (set_non_guard_line_found true v))
                    then set_include_guard_macro None (set_non_guard_line_found true v)
                    else set_non_guard_line_found true v) = false).
    { destruct (_ && _); exact Hend. }
    rewrite He. apply Hs, He. }
  assert (Hge : guard_endif w rec path i line u (is_toplevel_of v) v self
                = (Returned (Continue (after_non_guard_line u v)),
                   set_result_lines
                     (fun lines => pop_line_directives lines
                                   ++ [line_directive (i + 2) (relative_path w path)])
                     self)).
  { unfold guard_endif. rewrite Hendif, andb_false_r. exact Hn. }
  assert (Hgd : guard_define w rec path i line u (is_toplevel_of v) v self
                = (Returned (Continue (after_non_guard_line u v)),
                   set_result_lines
                     (fun lines => pop_line_directives lines
                                   ++ [line_directive (i + 2) (relative_path w path)])
                     self)).
  { unfold guard_define. rewrite Hdefine.
    destruct (include_guard_macro v); [destruct (include_guard_define_found v) |];
      exact Hge. }
  unfold guard_ifndef. rewrite Hifndef.
  destruct (negb (pragma_once_found v) && negb (non_guard_line_found v));
    destruct (include_guard_macro v); exact Hgd.
Qed.

Lemma recorded_system_include_dropped_witness :
  let w := MemFS.world MemFS.umbrella_first in
  let line := "#include <atcoder/all>" +:+ MemFS.nl in
  let v := mkLocals true false None false false 0 in
  let self := mkBundler [] ∅ {[ "bits/stdc++.h" ]}
                [line_directive 1 "main.cc"; "#include <bits/stdc++.h>" +:+ MemFS.nl;
                 line_directive 3 "main.cc"] {[ "main.cc" ]} "g++" in
  process_line w (update w 0) "main.cc" 2 line line v self
  = (Returned (Continue (after_non_guard_line line v)),
     set_result_lines
       (fun lines => pop_line_directives lines
                     ++ [line_directive (2 + 2) (relative_path w "main.cc")])
       self).
Proof.
  intros w line v self.
  apply (recorded_system_include_dropped w (update w 0) "main.cc" 2 line line
           "atcoder/all" "atcoder/all" v self); try reflexivity.
  right. unfold bits_stdcxx_h, self. cbn. set_solver.
Defined.

(** ** Termination *)

Section Safe.
Context (PS : gset string).

Lemma safe_ret {A} (Q : A -> Prop) a : Q a -> safe PS Q (ret a).
Proof. intros HQ s Hs. cbn. auto. Qed.

Lemma safe_raise {A} (Q : A -> Prop) e : safe PS Q (raise e).
Proof. intros s Hs. exact Hs. Qed.

Lemma safe_get_self : safe PS (fun self => path_stack self = PS) get_self.
Proof. intros s Hs. cbn. auto. Qed.

Lemma safe_lift_sum {A} (x : exn + A) : safe PS (fun _ => True) (lift_sum x).
Proof. destruct x; [apply safe_raise | apply safe_ret; exact I]. Qed.

Lemma safe_modify f :
  (forall s, path_stack (f s) = path_stack s) -> safe PS (fun _ => True) (modify f).
Proof. intros Hf s Hs. cbn. rewrite Hf. auto. Qed.

Lemma safe_bind {A B} (Q : A -> Prop) (Q' : B -> Prop) (m : M A) (k : A -> M B) :
  safe PS Q m -> (forall a, Q a -> safe PS Q' (k a)) -> safe PS Q' (bind m k).
Proof.
  intros Hm Hk s Hs. specialize (Hm s Hs). unfold bind.
  destruct (m s) as [[a | e |] s1]; [| exact Hm | exact Hm].
  destruct Hm as [Ha Hs1]. exact (Hk a Ha s1 Hs1).
Qed.

Lemma safe_weaken {A} (Q Q' : A -> Prop) (m : M A) :
  (forall a, Q a -> Q' a) -> safe PS Q m -> safe PS Q' m.
Proof.
  intros HQ Hm s Hs. specialize (Hm s Hs).
  destruct (m s) as [[a | e |] s1]; [| exact Hm | exact Hm].
  destruct Hm; auto.
Qed.

End Safe.

Create HintDb safe.
#[local] Hint Resolve safe_raise safe_lift_sum : safe.

Section Terminates.
Context (w : World) (files : gset string).
Hypothesis within : resolves_within w files.
Context (PS : gset string) (rec : Path -> M unit).
Hypothesis rec_safe : forall t, t ∈ files -> safe PS (fun _ => True) (rec t).

Lemma safe_line n p : safe PS (fun _ => True) (_line w n p).
Proof. apply safe_modify. reflexivity. Qed.

Lemma safe_append_line l : safe PS (fun _ => True) (append_line l).
Proof. apply safe_modify. reflexivity. Qed.

Lemma resolve_in_within dirs p t : resolve_in w dirs p = Some t -> t ∈ files.
Proof.
  induction dirs as [| d dirs IH]; cbn; [discriminate |].
  destruct (path_exists w (path_join w d p)) eqn:E; [| exact IH].
  intros [= <-]. apply within, E.
Qed.

Lemma safe_resolve p from : safe PS (fun t => t ∈ files) (_resolve w p from).
Proof.
  unfold _resolve. eapply safe_bind; [apply safe_get_self | intros self _].
  destruct (path_exists w _) eqn:E; [apply safe_ret, within, E |].
  destruct (resolve_in w _ _) eqn:E'; [| apply safe_raise].
  apply safe_ret. eapply resolve_in_within, E'.
Qed.

Ltac safe_step :=
  first
    [ apply safe_raise
    | apply safe_ret; exact I
    | apply safe_line
    | apply safe_append_line
    | apply safe_lift_sum
    | apply safe_modify; reflexivity
    | eapply safe_bind; [| intros ? ?] ].

Lemma safe_system_include path i line u t v :
  safe PS (fun _ => True) (system_include w rec path i line u t v).
Proof.
  unfold system_include, user_include, otherwise.
  destruct (Re.include_system u) as [g |].
  - destruct (Bytes.decode g); [| apply safe_raise].
    eapply safe_bind; [apply safe_get_self | intros self _].
    eapply safe_bind; [| intros ? ?; apply safe_ret; exact I].
    destruct (_ || _); [apply safe_line |].
    destruct (_ && _); [| apply safe_append_line].
    eapply safe_bind; [apply safe_modify; reflexivity | intros ? ?].
    apply safe_append_line.
  - destruct (Re.include_user u) as [g |].
    + destruct (Bytes.decode g); [| apply safe_raise].
      destruct (negb t); [apply safe_raise |].
      eapply safe_bind; [apply safe_resolve | intros target Ht].
      eapply safe_bind; [apply rec_safe, Ht | intros ? ?].
      eapply safe_bind; [apply safe_line | intros ? ?].
      apply safe_ret; exact I.
    + eapply safe_bind; [apply safe_append_line | intros ? ?].
      apply safe_ret; exact I.
Qed.

Lemma safe_process_line path i line u v :
  safe PS (fun _ => True) (process_line w rec path i line u v).
Proof.
  assert (Hng : forall t v0, safe PS (fun _ => True) (non_guard_line w rec path i line u t v0)).
  { intros t v0. unfold non_guard_line.
    destruct (negb (Bytes.is_empty u)); [| apply safe_system_include].
    cbv zeta. destruct (include_guard_endif_found _); [apply safe_raise |].
    apply safe_system_include. }
  assert (Hge : forall t v0, safe PS (fun _ => True) (guard_endif w rec path i line u t v0)).
  { intros t v0. unfold guard_endif. destruct (_ && Re.endif_directive u); [| apply Hng].
    repeat safe_step. }
  assert (Hgd : forall t v0, safe PS (fun _ => True) (guard_define w rec path i line u t v0)).
  { intros t v0. unfold guard_define.
    destruct (include_guard_macro v0) as [macro |]; [| apply Hge].
    destruct (include_guard_define_found v0); [apply Hge |].
    destruct (Re.define_macro u) as [g |]; [| apply Hge].
    destruct (Bytes.decode g) as [name |]; [| apply safe_raise].
    destruct (String.eqb name macro); [| apply Hge].
    repeat safe_step. }
  assert (Hgi : forall t v0, safe PS (fun _ => True) (guard_ifndef w rec path i line u t v0)).
  { intros t v0. unfold guard_ifndef.
    destruct (negb (pragma_once_found v0) && negb (non_guard_line_found v0));
      [| apply Hgd].
    destruct (include_guard_macro v0); [apply Hgd |].
    destruct (Re.ifndef_macro u) as [g |]; [| apply Hgd].
    destruct (Bytes.decode g); [| apply safe_raise].
    repeat safe_step. }
  unfold process_line.
  eapply safe_bind; [apply safe_lift_sum | intros nest _].
  unfold pragma_once_line.
  destruct (Re.pragma_once_directive line); [| apply Hgi].
  destruct (non_guard_line_found _); [apply safe_raise |].
  destruct (bool_decide _); [apply safe_raise |].
  eapply safe_bind; [apply safe_get_self | intros self _].
  destruct (bool_decide _); [apply safe_ret; exact I |].
  repeat safe_step.
Qed.

Lemma safe_process_lines path views :
  forall i v, safe PS (fun _ => True) (process_lines w rec path i views v).
Proof.
  induction views as [| [line u] rest IH]; intros i v; cbn [process_lines].
  - apply safe_ret. exact I.
  - eapply safe_bind; [apply safe_process_line | intros f _].
    destruct f; [apply IH | apply safe_ret; exact I].
Qed.

Lemma safe_update_body path :
  safe PS (fun _ => True) (update_body w rec path).
Proof.
  unfold update_body.
  eapply safe_bind; [apply safe_get_self | intros self _].
  eapply safe_bind; [apply safe_lift_sum | intros views _].
  eapply safe_bind; [apply safe_line | intros ? ?].
  eapply safe_bind; [apply safe_process_lines | intros f _].
  destruct f; [| apply safe_ret; exact I].
  unfold end_of_file.
  destruct (negb _); [apply safe_raise |].
  destruct (_ && _); [apply safe_raise | apply safe_ret; exact I].
Qed.

End Terminates.

Lemma safe_update_step w files :
  resolves_within w files ->
  forall fuel path PS,
    (forall t, t ∈ files -> safe ({[path]} ∪ PS) (fun _ => True) (update w fuel t)) ->
    safe PS (fun _ => True) (update w (S fuel) path).
Proof.
  intros Hwithin fuel path PS Hrec s Hs.
  cbn [update]. unfold bind at 1, get_self.
  destruct (bool_decide (path_resolve w path ∈ pragma_once s)); [cbn; auto |].
  destruct (bool_decide (path ∈ path_stack s)) eqn:Hin; [exact Hs |].
  apply bool_decide_eq_false in Hin.
  unfold bind, modify, try_finally.
  pose proof (safe_update_body w files Hwithin ({[path]} ∪ PS) (update w fuel) Hrec path
                (set_path_stack (fun x => {[path]} ∪ x) s)) as Hbody.
  specialize (Hbody ltac:(cbn; rewrite Hs; reflexivity)).
  destruct (update_body w (update w fuel) path _) as [r s2].
  assert (Hs2 : path_stack s2 = {[path]} ∪ PS)
    by (destruct r as [a | e |]; [apply Hbody | exact Hbody | contradiction]).
  unfold path_stack_remove, bind, get_self, modify.
  rewrite bool_decide_eq_true_2 by (rewrite Hs2; set_solver).
  assert (Hpop : path_stack (set_path_stack (fun x => x ∖ {[path]}) s2) = PS).
  { cbn. rewrite Hs2. rewrite <- Hs in *. apply path_stack_pop, Hin. }
  destruct r as [a | e |]; [split; [exact I | exact Hpop] | exact Hpop | contradiction].
Qed.

Lemma safe_update_within w files :
  resolves_within w files ->
  forall fuel t PS,
    t ∈ files -> size (files ∖ PS) < fuel ->
    safe PS (fun _ => True) (update w fuel t).
Proof.
  intros Hwithin. induction fuel as [| fuel IH]; intros t PS Ht Hsize; [lia |].
  intros s Hs.
  destruct (decide (t ∈ PS)) as [Hin | Hout].
  - cbn [update]. unfold bind at 1, get_self.
    destruct (bool_decide (path_resolve w t ∈ pragma_once s)); [cbn; auto |].
    rewrite bool_decide_eq_true_2 by (rewrite Hs; exact Hin). exact Hs.
  - apply (safe_update_step w files Hwithin fuel t PS); [| exact Hs].
    intros t' Ht'. apply IH; [exact Ht' |].
    assert (H : files ∖ ({[t]} ∪ PS) ⊂ files ∖ PS).
    { split; [set_solver |]. intros Hsub.
      assert (Hin : t ∈ files ∖ PS) by set_solver.
      apply Hsub in Hin. set_solver. }
    apply subset_size in H. lia.
Qed.

(** X16.  [update] terminates.  In a world where every header that can be
    resolved is one of finitely many files, the recursion through
    [#include "..."] is never deeper than the number of those files plus
    one: with that much fuel and one more, the outcome of [update] is a
    return or a raised error, for every path and every Bundler. *)
Theorem update_terminates (w : World) (files : gset string) (fuel : nat)
    (path : Path) (self : Bundler) :
  resolves_within w files ->
  size files + 1 < fuel ->
  fst (update w fuel path self) <> OutOfFuel.
Proof.
  intros Hwithin Hfuel. destruct fuel as [| fuel]; [lia |].
  pose proof (safe_update_step w files Hwithin fuel path (path_stack self)) as H.
  assert (Hrec : forall t, t ∈ files ->
                 safe ({[path]} ∪ path_stack self) (fun _ => True) (update w fuel t)).
  { intros t Ht. apply (safe_update_within w files Hwithin); [exact Ht |].
    assert (size (files ∖ ({[path]} ∪ path_stack self)) <= size files)
      by (apply subseteq_size; set_solver).
    lia. }
  specialize (H Hrec self eq_refl).
  destruct (update w (S fuel) path self) as [[a | e |] s']; [discriminate | discriminate |].
  contradiction.
Qed.

Lemma nested_resolves_within :
  resolves_within (MemFS.world MemFS.nested) {[ "/w/main.cc"; "/w/a.h"; "/w/b.h" ]}.
Proof.
  intros p. cbn [path_exists path_resolve MemFS.world].
  unfold MemFS.nested. cbn [MemFS.lookup_file MemFS.plain].
  destruct (String.eqb_spec "/w/main.cc" (MemFS.absolute p)) as [<- | _]; [set_solver |].
  destruct (String.eqb_spec "/w/a.h" (MemFS.absolute p)) as [<- | _]; [set_solver |].
  destruct (String.eqb_spec "/w/b.h" (MemFS.absolute p)) as [<- | _]; [set_solver |].
  discriminate.
Qed.

Lemma update_terminates_witness :
  fst (update (MemFS.world MemFS.nested) 5 "main.cc" (init [] "g++")) <> OutOfFuel.
Proof.
  apply (update_terminates (MemFS.world MemFS.nested)
           {[ "/w/main.cc"; "/w/a.h"; "/w/b.h" ]} 5 "main.cc" (init [] "g++")).
  - exact nested_resolves_within.
  - vm_compute. lia.
Defined.

(** ** The compiler *)

(** X17.  The preprocessor is run only with a compiler that is found on the
    host and whose version banner, read without regard to case, holds
    [g++] and neither [clang] nor [apple llvm].  A compiler that is not
    found is reported as "command not found".  A banner that holds [clang]
    or [apple llvm] is refused even when it also holds [g++]: as a fake g++
    when the command is [g++] itself, as not g++ otherwise.  An accepted
    compiler is run with the include options followed by
    [-fpreprocessed -dD -E] and the path. *)
Theorem compiler_accepted_or_refused (h : Host) (path : Path)
    (options : list string) (compiler : string) :
  (which h compiler = false ->
   _get_uncommented_code h path options compiler
   = inl (BundleError ("command not found: " +:+ compiler)))
  /\ (forall printed version,
        which h compiler = true ->
        check_output h [compiler; "--version"] = inr printed ->
        Bytes.decode printed = Some version ->
        let clang := contains "clang" (lower version)
                     || contains "apple llvm" (lower version) in
        let gxx := contains "g++" (lower version) in
        (clang = false -> gxx = true ->
         _get_uncommented_code h path options compiler
         = check_output h ([compiler] ++ options
                           ++ ["-fpreprocessed"; "-dD"; "-E"; path]))
        /\ (clang = true \/ gxx = false ->
            _get_uncommented_code h path options compiler
            = inl (BundleError
                     (if String.eqb compiler "g++"
                      then "A fake g++ is detected. Please install the GNU C++ compiler.: "
                           +:+ compiler
                      else "It's not g++. Please specify g++ with $CXX envvar.: "
                           +:+ compiler)))).
Proof.
  split.
  - intros Hw. unfold _get_uncommented_code. rewrite Hw. reflexivity.
  - intros printed version Hw Hout Hdec clang gxx.
    unfold _get_uncommented_code, _check_compiler. rewrite Hw, Hout, Hdec.
    cbn [negb]. change (lower "Apple LLVM") with "apple llvm".
    fold clang gxx. split.
    + intros -> ->. reflexivity.
    + intros [-> | ->].
      * cbn. destruct (String.eqb compiler "g++"); reflexivity.
      * destruct clang; cbn; destruct (String.eqb compiler "g++"); reflexivity.
Qed.

Lemma compiler_accepted_or_refused_witness :
  _get_uncommented_code apple_host "/w/a.h" [] "clang++"
  = inl (BundleError ("command not found: " +:+ "clang++"))
  /\ _get_uncommented_code apple_host "/w/a.h" [] "g++"
     = inl (BundleError
              (if String.eqb "g++" "g++"
               then "A fake g++ is detected. Please install the GNU C++ compiler.: "
                    +:+ "g++"
               else "It's not g++. Please specify g++ with $CXX envvar.: "
                    +:+ "g++")).
Proof.
  destruct (compiler_accepted_or_refused apple_host "/w/a.h" [] "g++") as [_ H2].
  destruct (compiler_accepted_or_refused apple_host "/w/a.h" [] "clang++") as [H1 _].
  split; [apply H1; reflexivity |].
  refine (proj2 (H2 _ _ eq_refl eq_refl eq_refl) _).
  left. reflexivity.
Defined.

(** X18.  With a compiler that the host refuses, [update] fails before it
    writes anything: for a file that can be read, is not registered and is
    not being processed, it raises the error of the probe and leaves the
    Bundler exactly as it was, the path stack included. *)
Theorem refused_compiler_aborts (h : Host) (w : World) (fuel : nat) (path : Path)
    (code : bytes) (message : string) (self : Bundler) :
  read_file w path = Some code ->
  (forall p options,
      _get_uncommented_code h p options (compiler self)
      = inl (BundleError message)) ->
  path_resolve w path ∉ pragma_once self ->
  path ∉ path_stack self ->
  update (on_host h w) (S fuel) path self = (Raised (BundleError message), self).
Proof.
  intros Hread Hrefused Hpo Hps. destruct self as [iq po pos out ps cc].
  cbn [update]. unfold bind at 1, get_self.
  cbn [pragma_once path_stack path_resolve on_host] in *.
  rewrite bool_decide_eq_false_2 by exact Hpo.
  rewrite bool_decide_eq_false_2 by exact Hps.
  unfold bind at 1, modify at 1, try_finally, set_path_stack.
  cbn [iquotes pragma_once pragma_once_system result_lines path_stack compiler].
  unfold update_body. unfold bind at 1, get_self.
  cbn [iquotes compiler].
  unfold line_views, get_uncommented_code.
  cbn [read_file preprocess on_host]. rewrite Hread.
  cbn [compiler] in Hrefused. rewrite Hrefused.
  cbn [lift_sum]. unfold bind at 1, raise.
  rewrite leave_file by exact Hps. reflexivity.
Qed.

Lemma refused_compiler_aborts_witness :
  update (on_host apple_host (MemFS.world MemFS.pragma_header)) 1 "a.h" (init [] "g++")
  = (Raised (BundleError
       ("A fake g++ is detected. Please install the GNU C++ compiler.: " +:+ "g++")),
     init [] "g++").
Proof.
  apply (refused_compiler_aborts apple_host (MemFS.world MemFS.pragma_header) 0 "a.h"
           (MemFS.text ["#pragma once"; "int x;"])).
  - reflexivity.
  - intros p options. reflexivity.
  - cbn. set_solver.
  - cbn. set_solver.
Defined.

(** ** Sources without comments *)

Lemma combine_same {A} (l : list A) : combine l l = map (fun x => (x, x)) l.
Proof. induction l as [| a l IH]; [reflexivity |]. cbn. rewrite IH. reflexivity. Qed.

(** X19.  For a file without comments, for which the preprocessor prints
    a linemarker for line 1 and then the file itself, the two views of
    [update] are the same: every raw line is paired with itself and the
    [assert] holds. *)
Theorem views_agree_without_comments (w : World) (iq : list Path) (cc : string)
    (path : Path) (code marker : bytes) (n : nat) :
  read_file w path = Some code ->
  let text := if Bytes.ends_with_newline code then code else code +:+ Bytes.newline in
  preprocess w (path_resolve w path)
    (flat_map (fun d => ["-I"; path_resolve w d]) iq) cc = inr (marker +:+ text) ->
  Bytes.splitlines (marker +:+ text) = marker :: Bytes.splitlines text ->
  Re.linemarker (Bytes.rstrip marker) = Some n -> n <= 1 ->
  Forall (fun l => Re.linemarker (Bytes.rstrip l) = None) (Bytes.splitlines text) ->
  line_views w iq cc path = inr (map (fun l => (l, l)) (raw_lines code)).
Proof.
  intros Hread text Hprinted Hsplit Hmarker Hn Hplain.
  assert (Hu : fold_left uncomment_step (Bytes.splitlines (marker +:+ text)) []
               = Bytes.splitlines text).
  { rewrite Hsplit. cbn [fold_left]. unfold uncomment_step at 2. rewrite Hmarker.
    cbn [length app]. replace (n - (0 + 1)) with 0 by lia. cbn [repeat].
    apply (uncomment_plain [] _ Hplain). }
  unfold line_views, get_uncommented_code. rewrite Hread, Hprinted, Hu.
  rewrite join_splitlines. cbv zeta. unfold pad_uncommented, raw_lines. fold text.
  rewrite Nat.sub_diag. cbn [repeat]. rewrite app_nil_r.
  rewrite Nat.eqb_refl, combine_same. reflexivity.
Qed.

Lemma views_agree_without_comments_witness :
  let w := MemFS.world MemFS.nested in
  line_views w [] "g++" "b.h"
  = inr (map (fun l => (l, l)) (raw_lines (MemFS.text ["int b;"]))).
Proof.
  intros w.
  apply (views_agree_without_comments w [] "g++" "b.h" (MemFS.text ["int b;"])
           ("# 1 " +:+ MemFS.quoted "/w/b.h" +:+ MemFS.nl) 1);
    first [vm_compute; reflexivity | lia | vm_compute; repeat constructor].
Defined.

(** ** The head of the output *)

Lemma pop_line_directives_head d rest :
  pop_line_directives (d :: rest) = []
  \/ exists rest', pop_line_directives (d :: rest) = d :: rest'.
Proof.
  cbn [pop_line_directives].
  destruct (pop_line_directives rest) as [| y rest'].
  - destruct (Bytes.startswith "#line " d); [left; reflexivity | right; eauto].
  - right. eauto.
Qed.

Lemma line_directive_starts n p : Bytes.startswith "#line " (line_directive n p) = true.
Proof. reflexivity. Qed.

Lemma begins_after_line w n p s :
  result_lines s = [] \/ begins_with_line_directive s ->
  begins_with_line_directive (snd (_line w n p s)).
Proof.
  unfold begins_with_line_directive, _line, modify, set_result_lines. cbn [snd result_lines].
  intros [-> | (d & rest & -> & Hd)].
  - cbn. eexists _, _. split; [reflexivity | apply line_directive_starts].
  - destruct (pop_line_directives_head d rest) as [-> | [rest' ->]].
    + cbn. eexists _, _. split; [reflexivity | apply line_directive_starts].
    + cbn. eexists _, _. split; [reflexivity | exact Hd].
Qed.

Section Head.
Context (w : World).

Lemma begins_result_lines_append l s :
  begins_with_line_directive s ->
  begins_with_line_directive (set_result_lines (fun lines => lines ++ [l]) s).
Proof.
  intros (d & rest & Hs & Hd). unfold begins_with_line_directive. cbn.
  rewrite Hs. eexists _, _. split; [reflexivity | exact Hd].
Qed.

Lemma keeps_head_line n p : keeps begins_with_line_directive (_line w n p).
Proof.
  intros s a s' Hs H.
  pose proof (begins_after_line w n p s (or_intror Hs)) as H'.
  rewrite H in H'. exact H'.
Qed.

Lemma keeps_head_append l : keeps begins_with_line_directive (append_line l).
Proof. apply keeps_modify. intros s. apply begins_result_lines_append. Qed.

Lemma keeps_head_resolve p from : keeps begins_with_line_directive (_resolve w p from).
Proof.
  apply keeps_bind; [apply keeps_get_self | intros self].
  destruct (path_exists w _); [apply keeps_ret |].
  destruct (resolve_in w _ _); [apply keeps_ret | apply keeps_raise].
Qed.

Ltac head_step :=
  first
    [ apply keeps_raise
    | apply keeps_ret
    | apply keeps_get_self
    | apply keeps_lift_sum
    | apply keeps_head_line
    | apply keeps_head_append
    | apply keeps_head_resolve
    | apply keeps_modify; intros ? H; exact H
    | apply keeps_bind; [| intros ?]
    | match goal with
      | |- keeps _ (match ?x with _ => _ end) => destruct x
      | |- keeps _ (if ?x then _ else _) => destruct x
      end ].

Section Turn.
Context (rec : Path -> M unit).
Hypothesis rec_keeps : forall p, keeps begins_with_line_directive (rec p).
Context (path : Path) (i : nat) (line u : bytes).

Lemma keeps_head_system_include t v :
  keeps begins_with_line_directive (system_include w rec path i line u t v).
Proof.
  unfold system_include, user_include, otherwise.
  repeat first [apply rec_keeps | head_step].
Qed.

Lemma keeps_head_process_line v :
  keeps begins_with_line_directive (process_line w rec path i line u v).
Proof.
  pose proof keeps_head_system_include as Hs.
  unfold process_line, pragma_once_line, guard_ifndef, guard_define, guard_endif,
    non_guard_line.
  repeat first [apply Hs | head_step].
Qed.

End Turn.

Lemma keeps_head_process_lines rec path views :
  (forall p, keeps begins_with_line_directive (rec p)) ->
  forall i v, keeps begins_with_line_directive (process_lines w rec path i views v).
Proof.
  intros Hrec. induction views as [| [line u] rest IH]; intros i v; cbn [process_lines].
  - apply keeps_ret.
  - apply keeps_bind; [apply keeps_head_process_line, Hrec | intros f].
    destruct f; [apply IH | apply keeps_ret].
Qed.

(** a call of [update] that goes past the test at entry and returns *)
Lemma update_begins fuel :
  forall path s s',
    result_lines s = [] \/ begins_with_line_directive s ->
    update w fuel path s = (Returned tt, s') ->
    (path_resolve w path ∈ pragma_once s /\ s' = s) \/ begins_with_line_directive s'.
Proof.
  induction fuel as [| fuel IH]; intros path s s' Hs H; [discriminate H |].
  assert (Hrec : forall p, keeps begins_with_line_directive (update w fuel p)).
  { intros p s0 [] s1 Hs0 H0.
    destruct (IH p s0 s1 (or_intror Hs0) H0) as [[_ ->] | H1]; assumption. }
  cbn [update] in H. unfold bind at 1, get_self in H.
  destruct (bool_decide (path_resolve w path ∈ pragma_once s)) eqn:Hreg.
  { apply bool_decide_eq_true in Hreg. inversion H; subst. left. auto. }
  right.
  destruct (bool_decide (path ∈ path_stack s)); [discriminate H |].
  unfold bind at 1, modify at 1, try_finally in H.
  destruct (update_body w (update w fuel) path _) as [r s2] eqn:Hbody.
  unfold path_stack_remove, bind, get_self, modify in H.
  destruct (bool_decide (path ∈ path_stack s2)); [| discriminate H].
  destruct r as [[] | |]; try discriminate H. inversion H; subst s'.
  assert (Hs2 : begins_with_line_directive s2).
  { revert Hbody. unfold update_body.
    set (s0 := set_path_stack (fun x => {[path]} ∪ x) s).
    assert (Hs0 : result_lines s0 = [] \/ begins_with_line_directive s0) by exact Hs.
    clearbody s0. intros Hbody. unfold bind at 1, get_self in Hbody.
    apply bind_returned in Hbody as (views & s1 & Hv & Hbody).
    apply lift_sum_returned in Hv as [_ ->].
    apply bind_returned in Hbody as ([] & s3 & Hline & Hbody).
    apply bind_returned in Hbody as (f & s4 & Hloop & Hend).
    assert (Hs3 : begins_with_line_directive s3).
    { pose proof (begins_after_line w 1 path s0 Hs0) as H3.
      rewrite Hline in H3. exact H3. }
    assert (Hs4 : begins_with_line_directive s4)
      by (eapply keeps_head_process_lines; eassumption).
    destruct f as [v |].
    - unfold end_of_file in Hend.
      destruct (negb _); [discriminate Hend |].
      destruct (_ && _); [discriminate Hend |].
      inversion Hend; subst. exact Hs4.
    - inversion Hend; subst. exact Hs4. }
  destruct Hs2 as (d & rest & Hs2 & Hd). exists d, rest. split; assumption.
Qed.

End Head.

(** X20.  The output of a successful bundle is not empty and begins with a
    [#line] directive: from a fresh Bundler, when [update] returns, the
    first line of the output starts with [#line ]. *)
Theorem output_begins_with_line_directive (w : World) (fuel : nat) (path : Path)
    (iq : list Path) (cc : string) (self' : Bundler) :
  update w fuel path (init iq cc) = (Returned tt, self') ->
  exists d rest,
    result_lines self' = d :: rest /\ Bytes.startswith "#line " d = true.
Proof.
  intros H.
  destruct (update_begins w fuel path (init iq cc) self' (or_introl eq_refl) H)
    as [[Hreg _] | H']; [| exact H'].
  cbn in Hreg. set_solver.
Qed.

Lemma output_begins_with_line_directive_witness :
  exists d rest,
    result_lines (snd (update (MemFS.world MemFS.nested) 3 "main.cc" (init [] "g++")))
    = d :: rest
    /\ Bytes.startswith "#line " d = true.
Proof.
  apply (output_begins_with_line_directive (MemFS.world MemFS.nested) 3 "main.cc"
           [] "g++").
  vm_compute. reflexivity.
Defined.
